(** * Units Ontology matching: a shallow embedding of [scripts/uo_owl_extract.py]

    The development follows the script: Python string primitives, the
    symbol-likeness and plausibility heuristics, the two lookup indices
    built by [build_uo_lookup], the spelling-variant generator and the
    strategy cascade of [match_dataset].

    Python strings are sequences of Unicode code points; a code point is a
    number in [N] and a string is a [list N].  Dictionaries are [gmap]s,
    sets are [gset]s, and the exceptions Python can raise on the modelled
    paths are values of [exn]. *)

From Stdlib Require Import NArith Ascii String List Lia.
From stdpp Require Import base option list gmap sets.

Open Scope N_scope.

(** ** Strings *)

Abbreviation char := N (only parsing).
Abbreviation str := (list N) (only parsing).

(** [u "text"] is the Python literal ["text"] (ASCII literals only). *)
Definition u (s : string) : str :=
  (λ a, N_of_ascii a) <$> list_ascii_of_string s.

Arguments u : simpl never.

Definition str_eqb (a b : str) : bool := bool_decide (a = b).

Definition nonempty {A} (l : list A) : bool :=
  match l with [] => false | _ :: _ => true end.

(** [Py_UNICODE_ISSPACE]: what [str.strip()] removes and what [\s] matches
    in a [str] pattern. *)
Definition isspace (c : char) : bool :=
  ((9 <=? c) && (c <=? 13)) || ((28 <=? c) && (c <=? 32))
  || (c =? 133) || (c =? 160) || (c =? 5760)
  || ((8192 <=? c) && (c <=? 8202))
  || (c =? 8232) || (c =? 8233) || (c =? 8239) || (c =? 8287)
  || (c =? 12288).

Fixpoint drop_while (P : char → bool) (s : str) : str :=
  match s with
  | [] => []
  | c :: s' => if P c then drop_while P s' else s
  end.

Fixpoint take_while (P : char → bool) (s : str) : str :=
  match s with
  | [] => []
  | c :: s' => if P c then c :: take_while P s' else []
  end.

Definition lstrip (s : str) : str := drop_while isspace s.

Definition rstrip (s : str) : str := rev (lstrip (rev s)).

(** [s.strip()] *)
Definition strip (s : str) : str := rstrip (lstrip s).

(** [s.startswith(p)] *)
Fixpoint startswith (p s : str) : bool :=
  match p, s with
  | [], _ => true
  | _ :: _, [] => false
  | a :: p', b :: s' => (a =? b) && startswith p' s'
  end.

(** [sub in s] *)
Fixpoint contains (sub s : str) : bool :=
  startswith sub s ||
  match s with
  | [] => false
  | _ :: s' => contains sub s'
  end.

(** [s.replace(old, new)]: occurrences of [old] are replaced from left to
    right without overlap.  [skip] counts the characters of an occurrence
    still to be dropped. *)
Fixpoint replace_from (old new : str) (skip : nat) (s : str) : str :=
  match s with
  | [] => []
  | c :: s' =>
      match skip with
      | S k => replace_from old new k s'
      | O =>
          if startswith old s
          then new ++ replace_from old new (Nat.pred (length old)) s'
          else c :: replace_from old new O s'
      end
  end.

Definition str_replace (old new s : str) : str :=
  match old with
  | [] => new ++ flat_map (λ c, c :: new) s
  | _ :: _ => replace_from old new O s
  end.

(** [re.sub(r"\s+", " ", s)] *)
Fixpoint collapse_ws (in_ws : bool) (s : str) : str :=
  match s with
  | [] => []
  | c :: s' =>
      if isspace c
      then (if in_ws then collapse_ws true s' else 32 :: collapse_ws true s')
      else c :: collapse_ws false s'
  end.

(** [re.sub(r"\s*X\s*", "X", s)] for a single non-space character [X]:
    every whitespace run that touches an [X] disappears.  [pend] holds, in
    reverse, the whitespace read since the last other character, and
    [after_op] tells whether that run started right after an [X]. *)
Fixpoint sub_ws_around (X : char) (pend : str) (after_op : bool) (s : str) : str :=
  match s with
  | [] => if after_op then [] else rev pend
  | c :: s' =>
      if c =? X then X :: sub_ws_around X [] true s'
      else if isspace c then sub_ws_around X (c :: pend) after_op s'
      else (if after_op then [] else rev pend) ++ c :: sub_ws_around X [] false s'
  end.

(** [re.findall(r"[a-z]{3,}", s)]: the maximal runs of ASCII lower-case
    letters that are at least three long, from left to right. *)
Definition is_az (c : char) : bool := (97 <=? c) && (c <=? 122).
Definition is_AZ (c : char) : bool := (65 <=? c) && (c <=? 90).

Definition flush_word (cur : str) : list str :=
  if (3 <=? length cur)%nat then [rev cur] else [].

Fixpoint findall_words (cur : str) (s : str) : list str :=
  match s with
  | [] => flush_word cur
  | c :: s' =>
      if is_az c then findall_words (c :: cur) s'
      else flush_word cur ++ findall_words [] s'
  end.

(** ** The Unicode tables Python consults

    [str.lower], [str.isalpha], [str.islower] and the regex class [\d]
    depend on the Unicode character database.  The tables are taken as an
    interface whose laws fix their behaviour on ASCII, where it is known
    in closed form. *)

Definition is_ascii (c : char) : bool := c <? 128.

Definition ascii_lower (c : char) : char := if is_AZ c then c + 32 else c.

Definition ascii_isalpha (s : str) : bool :=
  nonempty s && forallb (λ c, is_az c || is_AZ c) s.

Definition ascii_islower (s : str) : bool :=
  existsb is_az s && negb (existsb is_AZ s).

Definition ascii_isdigit (c : char) : bool := (48 <=? c) && (c <=? 57).

Class Unicode := {
  lower : str → str;
  isalpha : str → bool;
  islower : str → bool;
  isdecimal : char → bool;
  lower_ascii s : forallb is_ascii s = true → lower s = ascii_lower <$> s;
  isalpha_ascii s : forallb is_ascii s = true → isalpha s = ascii_isalpha s;
  islower_ascii s : forallb is_ascii s = true → islower s = ascii_islower s;
  isdecimal_ascii c : is_ascii c = true → isdecimal c = ascii_isdigit c
}.

(** The tables restricted to ASCII: every other code point is caseless,
    not alphabetic and not a digit. *)
Definition ascii_only_lower (s : str) : str := ascii_lower <$> s.
Definition ascii_only_isalpha (s : str) : bool := ascii_isalpha s.
Definition ascii_only_islower (s : str) : bool := ascii_islower s.
Definition ascii_only_isdecimal (c : char) : bool := ascii_isdigit c.

Definition ascii_tables : Unicode := {|
  lower := ascii_only_lower;
  isalpha := ascii_only_isalpha;
  islower := ascii_only_islower;
  isdecimal := ascii_only_isdecimal;
  lower_ascii := λ _ _, eq_refl;
  isalpha_ascii := λ _ _, eq_refl;
  islower_ascii := λ _ _, eq_refl;
  isdecimal_ascii := λ _ _, eq_refl
|}.

(** ** Ontology entries and provenance tags *)

(** The dictionary built by [extract_uo_entry]. *)
Record entry := Entry {
  uri : str;
  uo_id : str;
  label : option str;
  definition : option str;
  exact_synonyms : list str;
  related_synonyms : list str;
  narrow_synonyms : list str;
  deprecated : bool;
  parent_classes : list str
}.

(** ["exact_synonym"], ["related_synonym"], ["narrow_synonym"]. *)
Inductive syn_type := exact_synonym | related_synonym | narrow_synonym.

(** The second component of an index pair: ["label"], a synonym kind, or
    a synonym kind followed by ["_as_symbol"]. *)
Inductive source_type :=
  | src_label
  | src_synonym (t : syn_type)
  | src_as_symbol (t : syn_type).

#[export] Instance syn_type_eq_dec : EqDecision syn_type.
Proof. solve_decision. Defined.
#[export] Instance source_type_eq_dec : EqDecision source_type.
Proof. solve_decision. Defined.

Definition is_label (p : entry * source_type) : bool :=
  bool_decide (p.2 = src_label).

(** [x or ""] *)
Definition or_empty (o : option str) : str := default [] o.

(** Truth value of a string or [None]. *)
Definition truthy (o : option str) : bool :=
  match o with
  | Some (_ :: _) => true
  | _ => false
  end.

(** ** Heuristics *)

(** The tail of a pattern ending in [$]: the end of the string, or a final
    newline. *)
Definition at_end (s : str) : bool :=
  match s with
  | [] => true
  | [10] => true
  | _ => false
  end.

Definition CATEGORY_LABELS : list str :=
  [u "unit"; u "base unit"; u "prefix"].

Definition PREFIX_WORDS : list str :=
  [u "yotta"; u "zetta"; u "exa"; u "peta"; u "tera"; u "giga"; u "mega";
   u "kilo"; u "hecto"; u "deca"; u "deka"; u "deci"; u "centi"; u "milli";
   u "micro"; u "nano"; u "pico"; u "femto"; u "atto"; u "zepto"; u "yocto"].

(** A lower-case ASCII letter [p] of a pattern compiled with
    [re.IGNORECASE] matches [c] when [c] lower-cases to [p], or is one of
    the case-equivalent letters of [i] and [s]. *)
Definition ignorecase_eq (p c : char) : bool :=
  (c =? p) || (is_AZ c && (c + 32 =? p))
  || ((p =? 105) && ((c =? 304) || (c =? 305)))
  || ((p =? 107) && (c =? 8490))
  || ((p =? 115) && (c =? 383)).

Fixpoint ignorecase_word (w s : str) : bool :=
  match w, s with
  | [], _ => at_end s
  | _ :: _, [] => false
  | p :: w', c :: s' => ignorecase_eq p c && ignorecase_word w' s'
  end.

(** [PREFIX_LABEL_RE.match(s)] *)
Definition PREFIX_LABEL_RE (s : str) : bool :=
  existsb (λ w, ignorecase_word w s) PREFIX_WORDS.

(** [set("YZEPTGMkhdcmnfazy")] *)
Definition SINGLE_CHAR_PREFIX_SYMBOLS : list char := u "YZEPTGMkhdcmnfazy".

(** The characters of the class [[/\^µ°Ω²³]]. *)
Definition is_special (c : char) : bool :=
  (c =? 47) || (c =? 94) || (c =? 181) || (c =? 176) || (c =? 937)
  || (c =? 178) || (c =? 179).

Section WithUnicode.
Context {U : Unicode}.

(** [POWER_SYNONYMS_RE.match(s)], the pattern [^10\^\[[-]?\d+\]$]. *)
Definition POWER_SYNONYMS_RE (s : str) : bool :=
  if startswith (u "10^[") s then
    let r := drop 4 s in
    let r := match r with c :: r' => if c =? 45 then r' else r | [] => r end in
    match r with
    | d :: _ =>
        isdecimal d &&
        match drop_while isdecimal r with
        | 93 :: rest => at_end rest
        | _ => false
        end
    | [] => false
    end
  else false.

Definition is_symbol_like (text : str) : bool :=
  if negb (nonempty text) then false
  else
    let stripped := strip text in
    if existsb (N.eqb 32) stripped then false
    else if (15 <? length stripped)%nat then false
    else if existsb is_special stripped then true
    else if existsb is_AZ stripped && (length stripped <=? 10)%nat then true
    else if (length stripped <=? 5)%nat && isalpha stripped && islower stripped
         then true
    else false.

(** The body of [symbol_match_is_plausible] once [dataset_unit_name] is
    known to be a string.  The source also computes [uo_words], which it
    never reads. *)
Definition plausible (dataset_unit_name : str) (uo_entry : entry) : bool :=
  let uo_label := lower (or_empty (label uo_entry)) in
  let unit_lower := lower dataset_unit_name in
  let unit_words : gset str := list_to_set (findall_words [] unit_lower) in
  let all_uo_text :=
    fold_left (λ acc syn, acc ++ u " " ++ lower syn)
              (exact_synonyms uo_entry) uo_label in
  let all_uo_text :=
    fold_left (λ acc syn, acc ++ u " " ++ lower syn)
              (related_synonyms uo_entry) all_uo_text in
  let uo_words_extended : gset str :=
    list_to_set (findall_words [] all_uo_text) in
  let shared := unit_words ∩ uo_words_extended in
  if bool_decide (shared ≠ ∅) then true
  else if contains uo_label unit_lower || contains unit_lower uo_label then true
  else if existsb (λ uw,
            existsb (λ ow,
              (3 <=? length uw)%nat && (3 <=? length ow)%nat
              && (contains uw ow || contains ow uw))
              (elements uo_words_extended))
            (elements unit_words) then true
  else
    let defn := lower (or_empty (definition uo_entry)) in
    existsb (λ uw, (4 <=? length uw)%nat && contains uw defn)
            (elements unit_words).

(** [normalize_name]; the argument may be [None]. *)
Definition normalize_name (text : option str) : str :=
  match text with
  | None | Some [] => []
  | Some text =>
      let text := strip (lower text) in
      let text :=
        str_replace [95] [32] (str_replace [42] [32] (str_replace [183] [32] text)) in
      collapse_ws false text
  end.

Definition normalize_symbol_for_match (text : str) : str :=
  match text with
  | [] => []
  | _ =>
      let text := strip text in
      let text := sub_ws_around 183 [] false text in
      let text := sub_ws_around 47 [] false text in
      let text := sub_ws_around 94 [] false text in
      collapse_ws false text
  end.

(** ** The lookup indices *)

(** [m[k].append(x)] on a [defaultdict(list)]. *)
Definition append_to (k : str) (x : entry * source_type)
    (m : gmap str (list (entry * source_type))) :
    gmap str (list (entry * source_type)) :=
  <[k := default [] (m !! k) ++ [x]]> m.

(** The key under which [index_synonym] enters a synonym into [name_map],
    if it does (see [index_synonym_keys]). *)
Definition name_key (syn : str) : option str :=
  let syn_stripped := strip syn in
  if negb (nonempty syn_stripped) then None
  else if POWER_SYNONYMS_RE syn_stripped then None
  else
    let norm := normalize_name (Some syn_stripped) in
    if nonempty norm then Some norm else None.

(** The key under which [index_synonym] enters a synonym into
    [symbol_map], if it does. *)
Definition symbol_key (syn : str) : option str :=
  let syn_stripped := strip syn in
  if negb (nonempty syn_stripped) then None
  else if POWER_SYNONYMS_RE syn_stripped then None
  else if is_symbol_like syn_stripped then
    if (length syn_stripped =? 1)%nat
       && existsb (λ c, str_eqb syn_stripped [c]) SINGLE_CHAR_PREFIX_SYMBOLS
    then None
    else
      let sym_norm := normalize_symbol_for_match syn_stripped in
      if nonempty sym_norm then Some sym_norm else None
  else None.

(** One turn of the inner loop [for syn in syn_list]. *)
Definition index_synonym (e : entry) (t : syn_type)
    (maps : gmap str (list (entry * source_type))
            * gmap str (list (entry * source_type)))
    (syn : str) :=
  let syn_stripped := strip syn in
  if negb (nonempty syn_stripped) then maps
  else if POWER_SYNONYMS_RE syn_stripped then maps
  else
    let norm := normalize_name (Some syn_stripped) in
    let name_map :=
      if nonempty norm then append_to norm (e, src_synonym t) maps.1
      else maps.1 in
    if is_symbol_like syn_stripped then
      if (length syn_stripped =? 1)%nat
         && existsb (λ c, str_eqb syn_stripped [c]) SINGLE_CHAR_PREFIX_SYMBOLS
      then (name_map, maps.2)
      else
        let sym_norm := normalize_symbol_for_match syn_stripped in
        if nonempty sym_norm
        then (name_map, append_to sym_norm (e, src_as_symbol t) maps.2)
        else (name_map, maps.2)
    else (name_map, maps.2).

Definition all_synonyms (e : entry) : list (list str * syn_type) :=
  [(exact_synonyms e, exact_synonym);
   (related_synonyms e, related_synonym);
   (narrow_synonyms e, narrow_synonym)].

(** The three [continue] guards at the head of the loop over entries. *)
Definition skipped (e : entry) : bool :=
  deprecated e
  || existsb (str_eqb (normalize_name (label e))) CATEGORY_LABELS
  || PREFIX_LABEL_RE (normalize_name (label e)).

(** One turn of the loop [for entry in uo_entries]. *)
Definition index_entry
    (maps : gmap str (list (entry * source_type))
            * gmap str (list (entry * source_type)))
    (e : entry) :=
  if skipped e then maps
  else
    let norm_label := normalize_name (label e) in
    let maps :=
      if nonempty norm_label
      then (append_to norm_label (e, src_label) maps.1, maps.2)
      else maps in
    fold_left (λ maps '(syn_list, t), fold_left (index_synonym e t) syn_list maps)
              (all_synonyms e) maps.

Definition build_uo_lookup (uo_entries : list entry) :
    gmap str (list (entry * source_type))
    * gmap str (list (entry * source_type)) :=
  fold_left index_entry uo_entries (∅, ∅).

End WithUnicode.

(** ** Spelling variants *)

(** Iterating over a Python [set] visits its elements in an order the
    language does not fix.  The order is an interface: any enumeration of
    the elements. *)
Class SetOrder := {
  set_iter : gset str → list str;
  set_iter_perm X : set_iter X ≡ₚ elements X
}.

Definition elements_order : SetOrder :=
  {| set_iter := elements; set_iter_perm := λ _, reflexivity _ |}.

Definition base_swaps : list (str * str) :=
  [(u "meter", u "metre"); (u "metre", u "meter");
   (u "liter", u "litre"); (u "litre", u "liter");
   (u "deca", u "deka"); (u "deka", u "deca")].

Definition swaps_for (text : str) : list (str * str) :=
  base_swaps
  ++ (if contains (u "gram") text && negb (contains (u "gramme") text)
         && negb (contains (u "program") text)
      then [(u "gram", u "gramme")] else [])
  ++ (if contains (u "gramme") text then [(u "gramme", u "gram")] else []).

(** [for old, new in swaps: if old in v: acc.add(v.replace(old, new))] *)
Definition add_swapped (swaps : list (str * str)) (v : str) (acc : gset str) :
    gset str :=
  fold_left (λ acc '(old, new),
               if contains old v then {[str_replace old new v]} ∪ acc else acc)
            swaps acc.

(** The result is a set, so the order in which the second loop visits
    [list(variants)] does not show. *)
Definition generate_spelling_variants (text : str) : gset str :=
  let swaps := swaps_for text in
  let variants := add_swapped swaps text ∅ in
  let second_level :=
    fold_left (λ acc v, add_swapped swaps v acc) (elements variants) ∅ in
  (variants ∪ second_level) ∖ {[text]}.

(** ** Collecting the extracted entries

    [parse_uo_owl] below the XML layer: the elements arrive as the values
    [extract_uo_entry] returned for them, [None] for an element whose
    identifier is not a UO URI.  The dictionary [entries] keeps its keys in
    insertion order, so it is an association list. *)

Section Parsing.
Context {SO : SetOrder}.

(** [list(set(a + b))] *)
Definition union_list (a b : list str) : list str :=
  set_iter (list_to_set (a ++ b)).

(** [merge_entry(existing, new_entry)], as the new value of [existing]. *)
Definition merge_entry (existing new_entry : entry) : entry :=
  Entry (uri existing) (uo_id existing)
        (if truthy (label new_entry) && negb (truthy (label existing))
         then label new_entry else label existing)
        (if truthy (definition new_entry) && negb (truthy (definition existing))
         then definition new_entry else definition existing)
        (union_list (exact_synonyms existing) (exact_synonyms new_entry))
        (union_list (related_synonyms existing) (related_synonyms new_entry))
        (union_list (narrow_synonyms existing) (narrow_synonyms new_entry))
        (if deprecated new_entry then true else deprecated existing)
        (union_list (parent_classes existing) (parent_classes new_entry)).

(** [if uri in entries: merge_entry(entries[uri], entry)
     else: entries[uri] = entry] *)
Fixpoint add_entry (entries : list (str * entry)) (e : entry) :
    list (str * entry) :=
  match entries with
  | [] => [(uri e, e)]
  | (k, existing) :: entries' =>
      if str_eqb k (uri e) then (k, merge_entry existing e) :: entries'
      else (k, existing) :: add_entry entries' e
  end.

Definition add_element (entries : list (str * entry)) (x : option entry) :
    list (str * entry) :=
  match x with
  | Some e => add_entry entries e
  | None => entries
  end.

(** The [owl:Class] elements are read first, then the [rdf:Description]
    elements; the result is [list(entries.values())]. *)
Definition parse_uo_owl (classes descriptions : list (option entry)) :
    list entry :=
  (fold_left add_element descriptions (fold_left add_element classes [])).*2.

End Parsing.

(** ** Exceptions *)

Inductive exn := IndexError | AttributeError.

Inductive result (A : Type) :=
  | Ok (a : A)
  | Raise (e : exn).
Arguments Ok {A} a.
Arguments Raise {A} e.

Definition bind {A B} (r : result A) (k : A → result B) : result B :=
  match r with
  | Ok a => k a
  | Raise e => Raise e
  end.

Notation "x ←! r ; k" := (bind r (λ x, k))
  (at level 20, r at level 100, k at level 200, right associativity).
Notation "' p ←! r ; k" := (bind r (λ p, k))
  (at level 20, p pattern, r at level 100, k at level 200, right associativity).

(** [l[0]] *)
Definition first {A} (l : list A) : result A :=
  match l with
  | x :: _ => Ok x
  | [] => Raise IndexError
  end.

(** ** Decomposition patterns *)

(** [(.+)$]: a non-empty run without newline that reaches the end of the
    string or its final newline. *)
Definition is_dot (c : char) : bool := negb (c =? 10).

Definition dotplus_end (s : str) : option str :=
  let g := take_while is_dot s in
  if nonempty g && at_end (drop_while is_dot s) then Some g else None.

(** [\s+(.+)$]; the greedy [\s+] gives whitespace back only when the rest
    cannot match. *)
Fixpoint ws_dotplus_end (s : str) : option str :=
  match s with
  | [] => None
  | c :: s' =>
      if isspace c then
        match ws_dotplus_end s' with
        | Some g => Some g
        | None => dotplus_end s'
        end
      else None
  end.

(** [\s+per\s+(.+)$] *)
Definition per_tail (s : str) : option str :=
  match s with
  | c :: _ =>
      let r := drop_while isspace s in
      if isspace c && startswith (u "per") r then ws_dotplus_end (drop 3 r)
      else None
  | [] => None
  end.

(** [re.match(r"^(.+?)\s+per\s+(.+)$", text)]: the lazy first group grows
    one character at a time; [acc] is what it holds so far, reversed. *)
Fixpoint per_match (acc : str) (s : str) : option (str * str) :=
  match s with
  | [] => None
  | c :: s' =>
      if is_dot c then
        match per_tail s' with
        | Some g2 => Some (rev (c :: acc), g2)
        | None => per_match (c :: acc) s'
        end
      else None
  end.

(** [re.match(rf"^{prefix}\s+(.+)$", text)] *)
Definition shape_match (prefix text : str) : option str :=
  if startswith prefix text then ws_dotplus_end (drop (length prefix) text)
  else None.

(** ** Dataset records and match results *)

(** A JSON field of a dataset record: absent, [null], or a string. *)
Inductive field := Missing | Null | Str (s : str).

(** The [alternate_unit] field: absent, [null], or a list whose items are
    strings or [null]. *)
Inductive list_field := LMissing | LNull | LList (l : list (option str)).

Record record := Record_ {
  r_unit : field;
  r_symbol : field;
  r_plural : field;
  r_canonical_unit : field;
  r_alternate_unit : list_field;
  r_property : field;
  r_quantity : field;
  r_system : field
}.

(** [record.get(key, "")]; [None] is Python's [None]. *)
Definition get (f : field) : option str :=
  match f with
  | Missing => Some []
  | Null => None
  | Str s => Some s
  end.

(** [record.get("alternate_unit", []) or []] *)
Definition get_list (f : list_field) : list (option str) :=
  match f with
  | LMissing | LNull => []
  | LList l => l
  end.

(** The tag stored in [match_method]. *)
Inductive method :=
  | unit_name_to (src : source_type)
  | symbol_to_synonym
  | plural_to_uo
  | alternate_unit_to_uo
  | canonical_unit_to_uo
  | spelling_variant
  | per_variant
  | shape_variant
  | alternate_spelling_variant.

Inductive shape := square | cubic.

(** The tag stored with every candidate of [all_matches]. *)
Inductive audit_method :=
  | am_unit_name_to (src : source_type)
  | am_symbol_to (src : source_type)
  | am_plural_to (src : source_type)
  | am_alternate_unit_to (src : source_type)
  | am_canonical_unit_to (src : source_type)
  | am_spelling_variant (src : source_type)
  | am_per_variant (src : source_type)
  | am_shape_variant (prefix : shape) (src : source_type)
  | am_alternate_spelling_variant (src : source_type).

Record audit := Audit {
  a_method : audit_method;
  a_uo_uri : str;
  a_uo_id : str;
  a_uo_label : option str;
  a_alternate_unit : option (option str);
  a_variant : option str
}.

Record match_info := MatchInfo {
  mi_unit : option str;
  mi_symbol : option str;
  mi_property : option str;
  mi_quantity : option str;
  mi_system : option str;
  matched : bool;
  match_method : option method;
  match_uo_uri : option str;
  match_uo_label : option str;
  match_uo_id : option str;
  all_matches : list audit
}.

Definition mk_audit (m : source_type → audit_method)
    (alt : option (option str)) (variant : option str)
    (p : entry * source_type) : audit :=
  Audit (m p.2) (uri p.1) (uo_id p.1) (label p.1) alt variant.

Definition shape_str (p : shape) : str :=
  match p with
  | square => u "square"
  | cubic => u "cubic"
  end.

Section Matching.
Context {U : Unicode} {SO : SetOrder}.

Abbreviation index := (gmap str (list (entry * source_type))) (only parsing).

(** [symbol_match_is_plausible]; [dataset_unit_name.lower()] fails on
    [None]. *)
Definition symbol_match_is_plausible (dataset_unit_name : option str)
    (uo_entry : entry) : result bool :=
  match dataset_unit_name with
  | None => Raise AttributeError
  | Some name => Ok (plausible name uo_entry)
  end.

(** [[(e, src) for e, src in pairs if symbol_match_is_plausible(name, e)]] *)
Fixpoint filter_plausible (unit_name : option str)
    (pairs : list (entry * source_type)) : result (list (entry * source_type)) :=
  match pairs with
  | [] => Ok []
  | p :: pairs' =>
      ok ←! symbol_match_is_plausible unit_name p.1;
      rest ←! filter_plausible unit_name pairs';
      Ok (if ok : bool then p :: rest else rest)
  end.

(** The first variant, in iteration order, that is a key of [name_map]. *)
Fixpoint find_key (keys : list str) (name_map : index) :
    option (str * list (entry * source_type)) :=
  match keys with
  | [] => None
  | k :: keys' =>
      match name_map !! k with
      | Some pairs => Some (k, pairs)
      | None => find_key keys' name_map
      end
  end.

(** The functions below return [(entry, method, variant, pairs)] or
    [None]. *)
Definition try_spelling_variant_match (text : str) (name_map : index) :
    result (option (entry * audit_method * str * list (entry * source_type))) :=
  match find_key (set_iter (generate_spelling_variants text)) name_map with
  | Some (variant, pairs) =>
      p ←! first pairs;
      Ok (Some (p.1, am_spelling_variant p.2, variant, pairs))
  | None => Ok None
  end.

Definition try_per_decomposition_match (text : str) (name_map : index) :
    result (option (entry * audit_method * str * list (entry * source_type))) :=
  match per_match [] text with
  | None => Ok None
  | Some (g1, g2) =>
      let numerator := strip g1 in
      let denominator := strip g2 in
      let num_variants :=
        numerator :: set_iter (generate_spelling_variants numerator) in
      let den_variants :=
        denominator :: set_iter (generate_spelling_variants denominator) in
      let fulls :=
        flat_map (λ nv, (λ dv, nv ++ u " per " ++ dv) <$> den_variants)
                 num_variants in
      match find_key (List.filter (λ full, negb (str_eqb full text)) fulls)
                     name_map with
      | Some (full, pairs) =>
          p ←! first pairs;
          Ok (Some (p.1, am_per_variant p.2, full, pairs))
      | None => Ok None
      end
  end.

Definition try_shape_prefix (prefix : shape) (text : str) (name_map : index) :
    result (option (entry * audit_method * str * list (entry * source_type))) :=
  match shape_match (shape_str prefix) text with
  | Some base =>
      let alts :=
        (λ variant, shape_str prefix ++ u " " ++ variant)
          <$> set_iter (generate_spelling_variants base) in
      match find_key alts name_map with
      | Some (alt, pairs) =>
          p ←! first pairs;
          Ok (Some (p.1, am_shape_variant prefix p.2, alt, pairs))
      | None => Ok None
      end
  | None => Ok None
  end.

(** [for prefix in ("square", "cubic")] *)
Definition try_shape_variant_match (text : str) (name_map : index) :
    result (option (entry * audit_method * str * list (entry * source_type))) :=
  r ←! try_shape_prefix square text name_map;
  match r with
  | Some _ => Ok r
  | None => try_shape_prefix cubic text name_map
  end.

(** *** The strategies

    A strategy yields the value it gives to [best], if any, and the
    candidates it appends to [all_matches]. *)

Abbreviation outcome := (option (method * entry) * list audit)%type (only parsing).

Definition no_match : result outcome := Ok (None, []).

(** Strategy 1: unit name against the name index, labels preferred. *)
Definition strategy_unit_name (norm_unit : str) (name_map : index) :
    result outcome :=
  if nonempty norm_unit then
    match name_map !! norm_unit with
    | Some pairs =>
        let label_pairs := List.filter is_label pairs in
        best ←! match label_pairs with
                | p :: _ => Ok (unit_name_to src_label, p.1)
                | [] => p ←! first pairs; Ok (unit_name_to p.2, p.1)
                end;
        Ok (Some best, mk_audit am_unit_name_to None None <$> pairs)
    | None => no_match
    end
  else no_match.

(** Strategy 2: symbol against the symbol index, plausible pairs only. *)
Definition strategy_symbol (unit_name symbol : option str) (symbol_map : index) :
    result outcome :=
  match symbol with
  | Some ((_ :: _) as symbol) =>
      let sym_norm := normalize_symbol_for_match symbol in
      if nonempty sym_norm then
        match symbol_map !! sym_norm with
        | Some pairs =>
            plausible_pairs ←! filter_plausible unit_name pairs;
            match plausible_pairs with
            | p :: _ =>
                Ok (Some (symbol_to_synonym, p.1),
                    mk_audit am_symbol_to None None <$> plausible_pairs)
            | [] => no_match
            end
        | None => no_match
        end
      else no_match
  | _ => no_match
  end.

(** Strategy 3: plural against the name index. *)
Definition strategy_plural (plural : option str) (name_map : index) :
    result outcome :=
  if truthy plural then
    let norm_plural := normalize_name plural in
    if nonempty norm_plural then
      match name_map !! norm_plural with
      | Some pairs =>
          p ←! first pairs;
          Ok (Some (plural_to_uo, p.1),
              mk_audit am_plural_to None None <$> pairs)
      | None => no_match
      end
    else no_match
  else no_match.

(** Strategy 4: the alternates in list order; the first hit ends the loop. *)
Fixpoint strategy_alternates (alternates : list (option str))
    (name_map : index) : result outcome :=
  match alternates with
  | [] => no_match
  | alt :: alternates' =>
      let norm_alt := normalize_name alt in
      if nonempty norm_alt then
        match name_map !! norm_alt with
        | Some pairs =>
            p ←! first pairs;
            Ok (Some (alternate_unit_to_uo, p.1),
                mk_audit am_alternate_unit_to (Some alt) None <$> pairs)
        | None => strategy_alternates alternates' name_map
        end
      else strategy_alternates alternates' name_map
  end.

(** Strategy 5: canonical unit, when it differs from the unit name. *)
Definition strategy_canonical (canonical : option str) (norm_unit : str)
    (name_map : index) : result outcome :=
  if truthy canonical then
    let norm_canon := normalize_name canonical in
    if nonempty norm_canon && negb (str_eqb norm_canon norm_unit) then
      match name_map !! norm_canon with
      | Some pairs =>
          p ←! first pairs;
          Ok (Some (canonical_unit_to_uo, p.1),
              mk_audit am_canonical_unit_to None None <$> pairs)
      | None => no_match
      end
    else no_match
  else no_match.

(** Strategy 6: spelling variants of the unit name. *)
Definition strategy_spelling (norm_unit : str) (name_map : index) :
    result outcome :=
  if nonempty norm_unit then
    r ←! try_spelling_variant_match norm_unit name_map;
    match r with
    | Some (e, _, variant, pairs) =>
        Ok (Some (spelling_variant, e),
            mk_audit am_spelling_variant None (Some variant) <$> pairs)
    | None => no_match
    end
  else no_match.

(** Strategies 7 and 8 record the method string of the helper, which
    carries the provenance of the first pair, with every candidate. *)
Definition strategy_per (norm_unit : str) (name_map : index) : result outcome :=
  if nonempty norm_unit then
    r ←! try_per_decomposition_match norm_unit name_map;
    match r with
    | Some (e, m, variant, pairs) =>
        Ok (Some (per_variant, e),
            mk_audit (λ _, m) None (Some variant) <$> pairs)
    | None => no_match
    end
  else no_match.

Definition strategy_shape (norm_unit : str) (name_map : index) : result outcome :=
  if nonempty norm_unit then
    r ←! try_shape_variant_match norm_unit name_map;
    match r with
    | Some (e, m, variant, pairs) =>
        Ok (Some (shape_variant, e),
            mk_audit (λ _, m) None (Some variant) <$> pairs)
    | None => no_match
    end
  else no_match.

(** Strategy 9: spelling variants of the alternates, in list order. *)
Fixpoint strategy_alternate_spelling (alternates : list (option str))
    (name_map : index) : result outcome :=
  match alternates with
  | [] => no_match
  | alt :: alternates' =>
      let norm_alt := normalize_name alt in
      if nonempty norm_alt then
        r ←! try_spelling_variant_match norm_alt name_map;
        match r with
        | Some (e, _, variant, pairs) =>
            Ok (Some (alternate_spelling_variant, e),
                mk_audit am_alternate_spelling_variant (Some alt) (Some variant)
                  <$> pairs)
        | None => strategy_alternate_spelling alternates' name_map
        end
      else strategy_alternate_spelling alternates' name_map
  end.

(** [if not best: ...]: a later strategy runs only while [best] is unset. *)
Definition unless_best (st : outcome) (next : result outcome) : result outcome :=
  match st.1 with
  | Some _ => Ok st
  | None => '(best, found) ←! next; Ok (best, st.2 ++ found)
  end.

(** The strategy cascade of the loop body of [match_dataset]: the final
    [best] and [all_matches]. *)
Definition select_best (name_map symbol_map : index) (r : record) :
    result outcome :=
  let unit_name := get (r_unit r) in
  let symbol := get (r_symbol r) in
  let plural := get (r_plural r) in
  let canonical := get (r_canonical_unit r) in
  let alternates := get_list (r_alternate_unit r) in
  let norm_unit := normalize_name unit_name in
  st ←! strategy_unit_name norm_unit name_map;
  st ←! unless_best st (strategy_symbol unit_name symbol symbol_map);
  st ←! unless_best st (strategy_plural plural name_map);
  st ←! unless_best st (strategy_alternates alternates name_map);
  st ←! unless_best st (strategy_canonical canonical norm_unit name_map);
  st ←! unless_best st (strategy_spelling norm_unit name_map);
  st ←! unless_best st (strategy_per norm_unit name_map);
  st ←! unless_best st (strategy_shape norm_unit name_map);
  unless_best st (strategy_alternate_spelling alternates name_map).

(** The [match_info] dictionary of one record. *)
Definition match_record (name_map symbol_map : index) (r : record) :
    result match_info :=
  '(best, found) ←! select_best name_map symbol_map r;
  Ok match best with
     | Some (m, e) =>
         MatchInfo (get (r_unit r)) (get (r_symbol r)) (get (r_property r))
                   (get (r_quantity r)) (get (r_system r))
                   true (Some m) (Some (uri e)) (label e) (Some (uo_id e)) found
     | None =>
         MatchInfo (get (r_unit r)) (get (r_symbol r)) (get (r_property r))
                   (get (r_quantity r)) (get (r_system r))
                   false None None None None found
     end.

Definition syn_type_str (t : syn_type) : str :=
  match t with
  | exact_synonym => u "exact_synonym"
  | related_synonym => u "related_synonym"
  | narrow_synonym => u "narrow_synonym"
  end.

Definition source_type_str (src : source_type) : str :=
  match src with
  | src_label => u "label"
  | src_synonym t => syn_type_str t
  | src_as_symbol t => syn_type_str t ++ u "_as_symbol"
  end.

(** The string stored in [match_method], the key of [method_counts]. *)
Definition method_str (m : method) : str :=
  match m with
  | unit_name_to src => u "unit_name_to_" ++ source_type_str src
  | symbol_to_synonym => u "symbol_to_synonym"
  | plural_to_uo => u "plural_to_uo"
  | alternate_unit_to_uo => u "alternate_unit_to_uo"
  | canonical_unit_to_uo => u "canonical_unit_to_uo"
  | spelling_variant => u "spelling_variant"
  | per_variant => u "per_variant"
  | shape_variant => u "shape_variant"
  | alternate_spelling_variant => u "alternate_spelling_variant"
  end.

(** One turn of [for record in dataset]. *)
Definition match_step (name_map symbol_map : index)
    (acc : list match_info * nat * gmap str nat) (r : record) :
    result (list match_info * nat * gmap str nat) :=
  let '(results, matched_count, method_counts) := acc in
  mi ←! match_record name_map symbol_map r;
  Ok match match_method mi with
     | Some m =>
         (results ++ [mi], S matched_count,
          <[method_str m := S (default O (method_counts !! method_str m))]>
            method_counts)
     | None => (results ++ [mi], matched_count, method_counts)
     end.

Fixpoint match_loop (name_map symbol_map : index)
    (acc : list match_info * nat * gmap str nat) (dataset : list record) :
    result (list match_info * nat * gmap str nat) :=
  match dataset with
  | [] => Ok acc
  | r :: dataset' =>
      acc ←! match_step name_map symbol_map acc r;
      match_loop name_map symbol_map acc dataset'
  end.

(** [match_dataset(dataset, uo_entries)]: results, [matched_count] and
    [method_counts]. *)
Definition match_dataset (dataset : list record) (uo_entries : list entry) :
    result (list match_info * nat * gmap str nat) :=
  let '(name_map, symbol_map) := build_uo_lookup uo_entries in
  match_loop name_map symbol_map ([], O, ∅) dataset.

End Matching.

(** * Properties *)

(** ** The indices built by [build_uo_lookup] *)

Section IndexFacts.
Context {U : Unicode}.

(** The candidates stored under a key, none when the key is absent. *)
Definition bucket (m : gmap str (list (entry * source_type))) (k : str) :
    list (entry * source_type) :=
  default [] (m !! k).

(** No key maps to an empty list: what a [defaultdict(list)] filled by
    [append] alone guarantees. *)
Definition nonempty_buckets (m : gmap str (list (entry * source_type))) : Prop :=
  ∀ k l, m !! k = Some l → l ≠ [].

(** The pairs a list of synonyms contributes under key [k]. *)
Definition syn_hits (key : str → option str) (k : str)
    (x : entry * source_type) (syns : list str) : list (entry * source_type) :=
  flat_map (λ syn, if bool_decide (key syn = Some k) then [x] else []) syns.

(** What one entry contributes to the bucket of [k] in the name index. *)
Definition name_pairs (k : str) (e : entry) : list (entry * source_type) :=
  if skipped e then []
  else
    (if nonempty (normalize_name (label e))
        && bool_decide (normalize_name (label e) = k)
     then [(e, src_label)] else [])
    ++ syn_hits name_key k (e, src_synonym exact_synonym) (exact_synonyms e)
    ++ syn_hits name_key k (e, src_synonym related_synonym) (related_synonyms e)
    ++ syn_hits name_key k (e, src_synonym narrow_synonym) (narrow_synonyms e).

(** What one entry contributes to the bucket of [k] in the symbol index. *)
Definition symbol_pairs (k : str) (e : entry) : list (entry * source_type) :=
  if skipped e then []
  else
    syn_hits symbol_key k (e, src_as_symbol exact_synonym) (exact_synonyms e)
    ++ syn_hits symbol_key k (e, src_as_symbol related_synonym) (related_synonyms e)
    ++ syn_hits symbol_key k (e, src_as_symbol narrow_synonym) (narrow_synonyms e).

Lemma bucket_append_to k k' x m :
  bucket (append_to k' x m) k
  = bucket m k ++ (if bool_decide (k' = k) then [x] else []).
Proof.
  unfold bucket, append_to. case_bool_decide as Hk.
  - subst k'. by rewrite lookup_insert_eq.
  - rewrite lookup_insert_ne; [|done]. by rewrite app_nil_r.
Qed.

Lemma nonempty_buckets_empty : nonempty_buckets ∅.
Proof. intros k l Hl. by rewrite lookup_empty in Hl. Qed.

Lemma nonempty_buckets_append_to k x m :
  nonempty_buckets m → nonempty_buckets (append_to k x m).
Proof.
  intros Hm k' l. unfold append_to.
  destruct (decide (k = k')) as [->|Hne].
  - rewrite lookup_insert_eq. intros [= <-]. by destruct (default [] (m !! k')).
  - rewrite lookup_insert_ne; [|done]. apply Hm.
Qed.

(** [index_synonym] appends under [name_key] and under [symbol_key]. *)
Lemma index_synonym_keys e t maps syn :
  index_synonym e t maps syn
  = (match name_key syn with
     | Some norm => append_to norm (e, src_synonym t) maps.1
     | None => maps.1
     end,
     match symbol_key syn with
     | Some sym_norm => append_to sym_norm (e, src_as_symbol t) maps.2
     | None => maps.2
     end).
Proof.
  unfold index_synonym, name_key, symbol_key.
  destruct maps as [nm sm]; cbn [fst snd].
  destruct (nonempty (strip syn)); cbn [negb]; [|done].
  destruct (POWER_SYNONYMS_RE (strip syn)); [done|].
  destruct (is_symbol_like (strip syn)).
  - destruct ((length (strip syn) =? 1)%nat && _).
    + by destruct (nonempty (normalize_name (Some (strip syn)))).
    + destruct (nonempty (normalize_symbol_for_match (strip syn)));
        by destruct (nonempty (normalize_name (Some (strip syn)))).
  - by destruct (nonempty (normalize_name (Some (strip syn)))).
Qed.

Lemma index_synonym_bucket e t maps syn k :
  bucket (index_synonym e t maps syn).1 k
  = bucket maps.1 k ++ syn_hits name_key k (e, src_synonym t) [syn]
  ∧ bucket (index_synonym e t maps syn).2 k
    = bucket maps.2 k ++ syn_hits symbol_key k (e, src_as_symbol t) [syn].
Proof.
  rewrite index_synonym_keys. unfold syn_hits. simpl. rewrite !app_nil_r. split.
  - destruct (name_key syn) as [n|].
    + rewrite bucket_append_to. repeat case_bool_decide; congruence.
    + rewrite bool_decide_eq_false_2; [by rewrite app_nil_r | done].
  - destruct (symbol_key syn) as [n|].
    + rewrite bucket_append_to. repeat case_bool_decide; congruence.
    + rewrite bool_decide_eq_false_2; [by rewrite app_nil_r | done].
Qed.

Lemma index_synonym_nonempty e t maps syn :
  nonempty_buckets maps.1 → nonempty_buckets maps.2 →
  nonempty_buckets (index_synonym e t maps syn).1
  ∧ nonempty_buckets (index_synonym e t maps syn).2.
Proof.
  intros H1 H2. rewrite index_synonym_keys. simpl. split.
  - destruct (name_key syn); [by apply nonempty_buckets_append_to | done].
  - destruct (symbol_key syn); [by apply nonempty_buckets_append_to | done].
Qed.

Lemma fold_index_synonym_bucket e t syns maps k :
  bucket (fold_left (index_synonym e t) syns maps).1 k
  = bucket maps.1 k ++ syn_hits name_key k (e, src_synonym t) syns
  ∧ bucket (fold_left (index_synonym e t) syns maps).2 k
    = bucket maps.2 k ++ syn_hits symbol_key k (e, src_as_symbol t) syns.
Proof.
  revert maps. induction syns as [|syn syns IH]; intros maps; simpl.
  - by rewrite !app_nil_r.
  - destruct (IH (index_synonym e t maps syn)) as [-> ->].
    destruct (index_synonym_bucket e t maps syn k) as [-> ->].
    unfold syn_hits. simpl. by rewrite !app_nil_r, <- !app_assoc.
Qed.

Lemma fold_index_synonym_nonempty e t syns maps :
  nonempty_buckets maps.1 → nonempty_buckets maps.2 →
  nonempty_buckets (fold_left (index_synonym e t) syns maps).1
  ∧ nonempty_buckets (fold_left (index_synonym e t) syns maps).2.
Proof.
  revert maps. induction syns as [|syn syns IH]; intros maps H1 H2; simpl.
  - done.
  - destruct (index_synonym_nonempty e t maps syn H1 H2). by apply IH.
Qed.

Lemma index_entry_bucket maps e k :
  bucket (index_entry maps e).1 k = bucket maps.1 k ++ name_pairs k e
  ∧ bucket (index_entry maps e).2 k = bucket maps.2 k ++ symbol_pairs k e.
Proof.
  unfold index_entry, name_pairs, symbol_pairs.
  destruct (skipped e); [by rewrite !app_nil_r|].
  unfold all_synonyms. cbn [fold_left].
  set (m0 := if nonempty (normalize_name (label e)) then _ else maps).
  assert (bucket m0.1 k = bucket maps.1 k ++
            (if nonempty (normalize_name (label e))
                && bool_decide (normalize_name (label e) = k)
             then [(e, src_label)] else [])
          ∧ bucket m0.2 k = bucket maps.2 k) as [H1 H2].
  { subst m0. destruct (nonempty (normalize_name (label e))); simpl.
    - by rewrite bucket_append_to.
    - by rewrite app_nil_r. }
  destruct (fold_index_synonym_bucket e narrow_synonym (narrow_synonyms e)
    (fold_left (index_synonym e related_synonym) (related_synonyms e)
       (fold_left (index_synonym e exact_synonym) (exact_synonyms e) m0)) k)
    as [-> ->].
  destruct (fold_index_synonym_bucket e related_synonym (related_synonyms e)
    (fold_left (index_synonym e exact_synonym) (exact_synonyms e) m0) k)
    as [-> ->].
  destruct (fold_index_synonym_bucket e exact_synonym (exact_synonyms e) m0 k)
    as [-> ->].
  rewrite H1, H2. by rewrite <- !app_assoc.
Qed.

Lemma index_entry_nonempty maps e :
  nonempty_buckets maps.1 → nonempty_buckets maps.2 →
  nonempty_buckets (index_entry maps e).1
  ∧ nonempty_buckets (index_entry maps e).2.
Proof.
  intros H1 H2. unfold index_entry. destruct (skipped e); [done|].
  unfold all_synonyms. cbn [fold_left].
  repeat apply fold_index_synonym_nonempty;
    destruct (nonempty (normalize_name (label e))); simpl; try done;
    by apply nonempty_buckets_append_to.
Qed.

Lemma fold_index_entry_bucket entries maps k :
  bucket (fold_left index_entry entries maps).1 k
  = bucket maps.1 k ++ flat_map (name_pairs k) entries
  ∧ bucket (fold_left index_entry entries maps).2 k
    = bucket maps.2 k ++ flat_map (symbol_pairs k) entries.
Proof.
  revert maps. induction entries as [|e entries IH]; intros maps; simpl.
  - by rewrite !app_nil_r.
  - destruct (IH (index_entry maps e)) as [-> ->].
    destruct (index_entry_bucket maps e k) as [-> ->].
    by rewrite <- !app_assoc.
Qed.

(** Every bucket is the concatenation, in the order of [uo_entries], of
    what each entry contributes. *)
Lemma build_uo_lookup_bucket uo_entries k :
  bucket (build_uo_lookup uo_entries).1 k = flat_map (name_pairs k) uo_entries
  ∧ bucket (build_uo_lookup uo_entries).2 k
    = flat_map (symbol_pairs k) uo_entries.
Proof.
  unfold build_uo_lookup.
  destruct (fold_index_entry_bucket uo_entries (∅, ∅) k) as [-> ->].
  unfold bucket. simpl. by rewrite !lookup_empty.
Qed.

Lemma build_uo_lookup_nonempty uo_entries :
  nonempty_buckets (build_uo_lookup uo_entries).1
  ∧ nonempty_buckets (build_uo_lookup uo_entries).2.
Proof.
  unfold build_uo_lookup.
  assert (∀ maps, nonempty_buckets maps.1 → nonempty_buckets maps.2 →
            nonempty_buckets (fold_left index_entry uo_entries maps).1
            ∧ nonempty_buckets (fold_left index_entry uo_entries maps).2) as H.
  { induction uo_entries as [|e entries IH]; intros maps H1 H2; simpl; [done|].
    destruct (index_entry_nonempty maps e H1 H2). by apply IH. }
  apply H; apply nonempty_buckets_empty.
Qed.

End IndexFacts.

(** ** The strategy cascade *)

Section MatchFacts.
Context {U : Unicode} {SO : SetOrder}.

Implicit Types nm sm : gmap str (list (entry * source_type)).
Implicit Types st : option (method * entry) * list audit.

(** The candidate list a winning strategy works on: a bucket of the name
    index, or, for the symbol strategy, the plausible pairs of a bucket of
    the symbol index. *)
Inductive winning_bucket nm sm (unit_name : option str) :
    method → list (entry * source_type) → Prop :=
  | wb_name m k pairs :
      m ≠ symbol_to_synonym → nm !! k = Some pairs →
      winning_bucket nm sm unit_name m pairs
  | wb_symbol k pairs plausible_pairs :
      sm !! k = Some pairs →
      filter_plausible unit_name pairs = Ok plausible_pairs →
      winning_bucket nm sm unit_name symbol_to_synonym plausible_pairs.

(** How [best] is read off the winning candidate list: the unit-name
    strategy takes the first pair tagged ["label"] when there is one; every
    strategy otherwise takes the first pair. *)
Definition chosen_from (m : method) (b : list (entry * source_type)) :
    option (method * entry) :=
  match m with
  | unit_name_to _ =>
      match List.filter is_label b with
      | p :: _ => Some (unit_name_to src_label, p.1)
      | [] => (λ p, (unit_name_to p.2, p.1)) <$> head b
      end
  | _ => (λ p, (m, p.1)) <$> head b
  end.

(** [all_matches] lists the winning candidates, in order. *)
Definition audits_of (b : list (entry * source_type)) (found : list audit) : Prop :=
  ∃ am alt variant, found = mk_audit am alt variant <$> b.

Definition strategy_post nm sm (unit_name : option str) st : Prop :=
  match st.1 with
  | None => st.2 = []
  | Some (m, e) =>
      ∃ b, winning_bucket nm sm unit_name m b
           ∧ chosen_from m b = Some (m, e)
           ∧ audits_of b st.2
  end.

Lemma bind_Ok {A B} (r : result A) (k : A → result B) b :
  bind r k = Ok b → ∃ a, r = Ok a ∧ k a = Ok b.
Proof. destruct r as [a|]; simpl; [eauto | done]. Qed.

Lemma first_Ok {A} (l : list A) x : first l = Ok x → head l = Some x.
Proof. destruct l; simpl; congruence. Qed.

Lemma first_nonempty {A} (l : list A) : l ≠ [] → ∃ x, first l = Ok x.
Proof. destruct l; [done | eauto]. Qed.

Lemma find_key_Some keys nm k pairs :
  find_key keys nm = Some (k, pairs) → k ∈ keys ∧ nm !! k = Some pairs.
Proof.
  induction keys as [|k' keys IH]; simpl; [done|].
  destruct (nm !! k') as [l|] eqn:Hk'.
  - intros [= <- <-]. split; [left | done].
  - intros H. destruct (IH H). split; [by right | done].
Qed.

Lemma find_key_None keys nm k :
  find_key keys nm = None → k ∈ keys → nm !! k = None.
Proof.
  induction keys as [|k' keys IH]; simpl; [by intros _ ?%elem_of_nil|].
  destruct (nm !! k') as [l|] eqn:Hk'; [done|].
  intros H [->|Hin]%elem_of_cons; [done | by apply IH].
Qed.

Lemma filter_plausible_Some name pairs :
  filter_plausible (Some name) pairs
  = Ok (List.filter (λ p, plausible name p.1) pairs).
Proof.
  induction pairs as [|p pairs IH]; simpl; [done|]. rewrite IH. simpl.
  by destruct (plausible name p.1).
Qed.

Lemma filter_plausible_elem unit_name pairs pl p :
  filter_plausible unit_name pairs = Ok pl → p ∈ pl → p ∈ pairs.
Proof.
  destruct unit_name as [name|].
  - rewrite filter_plausible_Some. intros [= <-].
    rewrite list_elem_of_In, filter_In, <- list_elem_of_In. tauto.
  - destruct pairs; simpl; [|done]. by intros [= <-] ?%elem_of_nil.
Qed.

(** *** What each helper returns *)

Lemma try_spelling_variant_match_Some text nm e am variant pairs :
  try_spelling_variant_match text nm = Ok (Some (e, am, variant, pairs)) →
  nm !! variant = Some pairs
  ∧ variant ∈ generate_spelling_variants text
  ∧ ∃ src, head pairs = Some (e, src) ∧ am = am_spelling_variant src.
Proof.
  unfold try_spelling_variant_match.
  destruct (find_key _ nm) as [[v l]|] eqn:Hf; [|done].
  intros (p & Hp%first_Ok & [= <- <- <- <-])%bind_Ok.
  apply find_key_Some in Hf as [Hin Hl]. split; [done|]. split.
  - by rewrite set_iter_perm, elem_of_elements in Hin.
  - exists p.2. by destruct p.
Qed.

Lemma try_per_decomposition_match_Some text nm e am variant pairs :
  try_per_decomposition_match text nm = Ok (Some (e, am, variant, pairs)) →
  nm !! variant = Some pairs
  ∧ ∃ src, head pairs = Some (e, src) ∧ am = am_per_variant src.
Proof.
  unfold try_per_decomposition_match.
  destruct (per_match [] text) as [[g1 g2]|]; [|done].
  destruct (find_key _ nm) as [[v l]|] eqn:Hf; [|done].
  intros (p & Hp%first_Ok & [= <- <- <- <-])%bind_Ok.
  apply find_key_Some in Hf as [_ Hl]. split; [done|].
  exists p.2. by destruct p.
Qed.

Lemma try_shape_prefix_Some prefix text nm e am variant pairs :
  try_shape_prefix prefix text nm = Ok (Some (e, am, variant, pairs)) →
  nm !! variant = Some pairs
  ∧ ∃ src, head pairs = Some (e, src) ∧ am = am_shape_variant prefix src.
Proof.
  unfold try_shape_prefix.
  destruct (shape_match _ text) as [base|]; [|done].
  destruct (find_key _ nm) as [[v l]|] eqn:Hf; [|done].
  intros (p & Hp%first_Ok & [= <- <- <- <-])%bind_Ok.
  apply find_key_Some in Hf as [_ Hl]. split; [done|].
  exists p.2. by destruct p.
Qed.

Lemma try_shape_variant_match_Some text nm e am variant pairs :
  try_shape_variant_match text nm = Ok (Some (e, am, variant, pairs)) →
  nm !! variant = Some pairs
  ∧ ∃ prefix src, head pairs = Some (e, src) ∧ am = am_shape_variant prefix src.
Proof.
  unfold try_shape_variant_match. intros (r & Hsq & Hr)%bind_Ok.
  destruct r as [r|].
  - injection Hr as ->.
    apply try_shape_prefix_Some in Hsq as (? & src & ? & ?). eauto.
  - apply try_shape_prefix_Some in Hr as (? & src & ? & ?). eauto.
Qed.

(** *** The postcondition of every strategy *)

Lemma no_match_post nm sm unit_name st :
  no_match = Ok st → strategy_post nm sm unit_name st.
Proof. by intros [= <-]. Qed.

(** A strategy that takes the first pair of a bucket of the name index. *)
Lemma first_pair_post nm sm unit_name m k pairs e src am alt variant :
  m ≠ symbol_to_synonym → (∀ s, m ≠ unit_name_to s) →
  nm !! k = Some pairs → head pairs = Some (e, src) →
  strategy_post nm sm unit_name
    (Some (m, e), mk_audit am alt variant <$> pairs).
Proof.
  intros Hm1 Hm2 Hk Hhd. exists pairs. split; [by eapply wb_name|]. split.
  - destruct m; simpl; rewrite ?Hhd; try done. by destruct (Hm2 src0).
  - by exists am, alt, variant.
Qed.

Lemma strategy_unit_name_post nm sm unit_name norm_unit st :
  strategy_unit_name norm_unit nm = Ok st → strategy_post nm sm unit_name st.
Proof.
  unfold strategy_unit_name.
  destruct (nonempty norm_unit); [|apply no_match_post].
  destruct (nm !! norm_unit) as [pairs|] eqn:Hk; [|apply no_match_post].
  intros (best & Hbest & [= <-])%bind_Ok. destruct best as [m e].
  exists pairs. split; [|split].
  - eapply wb_name; [|done].
    destruct (List.filter is_label pairs); [|by injection Hbest as <- <-].
    apply bind_Ok in Hbest as (p & _ & [= <- <-]). done.
  - destruct (List.filter is_label pairs) as [|q ?] eqn:Hf.
    + apply bind_Ok in Hbest as (p & Hp%first_Ok & [= <- <-]).
      simpl. by rewrite Hf, Hp.
    + injection Hbest as <- <-. simpl. by rewrite Hf.
  - by exists am_unit_name_to, None, None.
Qed.

Lemma strategy_symbol_post nm sm unit_name symbol st :
  strategy_symbol unit_name symbol sm = Ok st → strategy_post nm sm unit_name st.
Proof.
  unfold strategy_symbol.
  destruct symbol as [[|c symbol]|]; try apply no_match_post.
  destruct (nonempty _); [|apply no_match_post].
  destruct (sm !! _) as [pairs|] eqn:Hk; [|apply no_match_post].
  intros (pl & Hpl & Hst)%bind_Ok.
  destruct pl as [|p pl]; [by apply no_match_post|].
  injection Hst as <-. exists (p :: pl). split; [by eapply wb_symbol|].
  split; [done|]. by exists am_symbol_to, None, None.
Qed.

Lemma strategy_plural_post nm sm unit_name plural st :
  strategy_plural plural nm = Ok st → strategy_post nm sm unit_name st.
Proof.
  unfold strategy_plural.
  destruct (truthy plural); [|apply no_match_post].
  destruct (nonempty _); [|apply no_match_post].
  destruct (nm !! _) as [pairs|] eqn:Hk; [|apply no_match_post].
  intros (p & Hp%first_Ok & [= <-])%bind_Ok. destruct p as [e src].
  by eapply first_pair_post.
Qed.

Lemma strategy_alternates_post nm sm unit_name alternates st :
  strategy_alternates alternates nm = Ok st → strategy_post nm sm unit_name st.
Proof.
  induction alternates as [|alt alternates IH]; simpl; [apply no_match_post|].
  destruct (nonempty _); [|done].
  destruct (nm !! _) as [pairs|] eqn:Hk; [|done].
  intros (p & Hp%first_Ok & [= <-])%bind_Ok. destruct p as [e src].
  by eapply first_pair_post.
Qed.

Lemma strategy_canonical_post nm sm unit_name canonical norm_unit st :
  strategy_canonical canonical norm_unit nm = Ok st →
  strategy_post nm sm unit_name st.
Proof.
  unfold strategy_canonical.
  destruct (truthy canonical); [|apply no_match_post].
  destruct (nonempty _ && _); [|apply no_match_post].
  destruct (nm !! _) as [pairs|] eqn:Hk; [|apply no_match_post].
  intros (p & Hp%first_Ok & [= <-])%bind_Ok. destruct p as [e src].
  by eapply first_pair_post.
Qed.

Lemma strategy_spelling_post nm sm unit_name norm_unit st :
  strategy_spelling norm_unit nm = Ok st → strategy_post nm sm unit_name st.
Proof.
  unfold strategy_spelling.
  destruct (nonempty norm_unit); [|apply no_match_post].
  intros (r & Hr & Hst)%bind_Ok.
  destruct r as [[[[e am] variant] pairs]|]; [|by apply no_match_post].
  injection Hst as <-.
  apply try_spelling_variant_match_Some in Hr as (Hk & _ & src & Hhd & _).
  by eapply first_pair_post.
Qed.

Lemma strategy_per_post nm sm unit_name norm_unit st :
  strategy_per norm_unit nm = Ok st → strategy_post nm sm unit_name st.
Proof.
  unfold strategy_per.
  destruct (nonempty norm_unit); [|apply no_match_post].
  intros (r & Hr & Hst)%bind_Ok.
  destruct r as [[[[e am] variant] pairs]|]; [|by apply no_match_post].
  injection Hst as <-.
  apply try_per_decomposition_match_Some in Hr as (Hk & src & Hhd & _).
  by eapply (first_pair_post _ _ _ _ _ _ _ _ (λ _, am)).
Qed.

Lemma strategy_shape_post nm sm unit_name norm_unit st :
  strategy_shape norm_unit nm = Ok st → strategy_post nm sm unit_name st.
Proof.
  unfold strategy_shape.
  destruct (nonempty norm_unit); [|apply no_match_post].
  intros (r & Hr & Hst)%bind_Ok.
  destruct r as [[[[e am] variant] pairs]|]; [|by apply no_match_post].
  injection Hst as <-.
  apply try_shape_variant_match_Some in Hr as (Hk & prefix & src & Hhd & _).
  by eapply (first_pair_post _ _ _ _ _ _ _ _ (λ _, am)).
Qed.

Lemma strategy_alternate_spelling_post nm sm unit_name alternates st :
  strategy_alternate_spelling alternates nm = Ok st →
  strategy_post nm sm unit_name st.
Proof.
  induction alternates as [|alt alternates IH]; simpl; [apply no_match_post|].
  destruct (nonempty _); [|done].
  intros (r & Hr & Hst)%bind_Ok.
  destruct r as [[[[e am] variant] pairs]|]; [|by apply IH].
  injection Hst as <-.
  apply try_spelling_variant_match_Some in Hr as (Hk & _ & src & Hhd & _).
  by eapply first_pair_post.
Qed.

Lemma unless_best_post nm sm unit_name st next st' :
  strategy_post nm sm unit_name st →
  (∀ st1, next = Ok st1 → strategy_post nm sm unit_name st1) →
  unless_best st next = Ok st' → strategy_post nm sm unit_name st'.
Proof.
  intros Hst Hnext. unfold unless_best.
  destruct st as [[best|] found] eqn:E; simpl.
  - by intros [= <-].
  - intros ([b f] & Hn & [= <-])%bind_Ok.
    unfold strategy_post in Hst. simpl in Hst. subst found. simpl.
    by apply Hnext.
Qed.

(** Whatever [select_best] returns satisfies the postcondition: either
    nothing was found and [all_matches] is empty, or [best] is read off a
    winning candidate list that [all_matches] records. *)
Lemma select_best_post nm sm r st :
  select_best nm sm r = Ok st → strategy_post nm sm (get (r_unit r)) st.
Proof.
  unfold select_best.
  intros (s1 & H1 & H)%bind_Ok.
  apply (strategy_unit_name_post nm sm (get (r_unit r))) in H1.
  apply bind_Ok in H as (s2 & H2 & H).
  eapply unless_best_post in H2; [|done|apply strategy_symbol_post].
  apply bind_Ok in H as (s3 & H3 & H).
  eapply unless_best_post in H3; [|done|apply strategy_plural_post].
  apply bind_Ok in H as (s4 & H4 & H).
  eapply unless_best_post in H4; [|done|apply strategy_alternates_post].
  apply bind_Ok in H as (s5 & H5 & H).
  eapply unless_best_post in H5; [|done|apply strategy_canonical_post].
  apply bind_Ok in H as (s6 & H6 & H).
  eapply unless_best_post in H6; [|done|apply strategy_spelling_post].
  apply bind_Ok in H as (s7 & H7 & H).
  eapply unless_best_post in H7; [|done|apply strategy_per_post].
  apply bind_Ok in H as (s8 & H8 & H).
  eapply unless_best_post in H8; [|done|apply strategy_shape_post].
  eapply unless_best_post in H; [done|done|apply strategy_alternate_spelling_post].
Qed.

End MatchFacts.

(** ** Matching never raises on well-formed indices *)

Section Totality.
Context {U : Unicode} {SO : SetOrder}.

Implicit Types nm sm : gmap str (list (entry * source_type)).

Lemma bucket_first nm k pairs :
  nonempty_buckets nm → nm !! k = Some pairs → ∃ p, first pairs = Ok p.
Proof. intros Hnm Hk. apply first_nonempty. by eapply Hnm. Qed.

Lemma try_spelling_variant_match_total text nm :
  nonempty_buckets nm → ∃ r, try_spelling_variant_match text nm = Ok r.
Proof.
  intros Hnm. unfold try_spelling_variant_match.
  destruct (find_key _ nm) as [[v l]|] eqn:Hf; [|eauto].
  apply find_key_Some in Hf as [_ Hl].
  destruct (bucket_first _ _ _ Hnm Hl) as [p ->]. simpl. eauto.
Qed.

Lemma try_per_decomposition_match_total text nm :
  nonempty_buckets nm → ∃ r, try_per_decomposition_match text nm = Ok r.
Proof.
  intros Hnm. unfold try_per_decomposition_match.
  destruct (per_match [] text) as [[g1 g2]|]; [|eauto].
  destruct (find_key _ nm) as [[v l]|] eqn:Hf; [|eauto].
  apply find_key_Some in Hf as [_ Hl].
  destruct (bucket_first _ _ _ Hnm Hl) as [p ->]. simpl. eauto.
Qed.

Lemma try_shape_prefix_total prefix text nm :
  nonempty_buckets nm → ∃ r, try_shape_prefix prefix text nm = Ok r.
Proof.
  intros Hnm. unfold try_shape_prefix.
  destruct (shape_match _ text) as [base|]; [|eauto].
  destruct (find_key _ nm) as [[v l]|] eqn:Hf; [|eauto].
  apply find_key_Some in Hf as [_ Hl].
  destruct (bucket_first _ _ _ Hnm Hl) as [p ->]. simpl. eauto.
Qed.

Lemma try_shape_variant_match_total text nm :
  nonempty_buckets nm → ∃ r, try_shape_variant_match text nm = Ok r.
Proof.
  intros Hnm. unfold try_shape_variant_match.
  destruct (try_shape_prefix_total square text nm Hnm) as [r ->]. simpl.
  destruct r; [eauto | by apply try_shape_prefix_total].
Qed.

Lemma strategy_unit_name_total norm_unit nm :
  nonempty_buckets nm → ∃ st, strategy_unit_name norm_unit nm = Ok st.
Proof.
  intros Hnm. unfold strategy_unit_name, no_match.
  destruct (nonempty norm_unit); [|eauto].
  destruct (nm !! norm_unit) as [pairs|] eqn:Hk; [|eauto].
  destruct (List.filter is_label pairs); simpl; [|eauto].
  destruct (bucket_first _ _ _ Hnm Hk) as [p ->]. simpl. eauto.
Qed.

Lemma strategy_symbol_total name symbol sm :
  ∃ st, strategy_symbol (Some name) symbol sm = Ok st.
Proof.
  unfold strategy_symbol, no_match.
  destruct symbol as [[|c symbol]|]; eauto.
  destruct (nonempty _); [|eauto].
  destruct (sm !! _) as [pairs|]; [|eauto].
  rewrite filter_plausible_Some. simpl.
  destruct (List.filter _ pairs); eauto.
Qed.

Lemma strategy_plural_total plural nm :
  nonempty_buckets nm → ∃ st, strategy_plural plural nm = Ok st.
Proof.
  intros Hnm. unfold strategy_plural, no_match.
  destruct (truthy plural); [|eauto].
  destruct (nonempty _); [|eauto].
  destruct (nm !! _) as [pairs|] eqn:Hk; [|eauto].
  destruct (bucket_first _ _ _ Hnm Hk) as [p ->]. simpl. eauto.
Qed.

Lemma strategy_alternates_total alternates nm :
  nonempty_buckets nm → ∃ st, strategy_alternates alternates nm = Ok st.
Proof.
  intros Hnm. unfold no_match.
  induction alternates as [|alt alternates IH]; simpl; [unfold no_match; eauto|].
  destruct (nonempty _); [|done].
  destruct (nm !! _) as [pairs|] eqn:Hk; [|done].
  destruct (bucket_first _ _ _ Hnm Hk) as [p ->]. simpl. eauto.
Qed.

Lemma strategy_canonical_total canonical norm_unit nm :
  nonempty_buckets nm → ∃ st, strategy_canonical canonical norm_unit nm = Ok st.
Proof.
  intros Hnm. unfold strategy_canonical, no_match.
  destruct (truthy canonical); [|eauto].
  destruct (nonempty _ && _); [|eauto].
  destruct (nm !! _) as [pairs|] eqn:Hk; [|eauto].
  destruct (bucket_first _ _ _ Hnm Hk) as [p ->]. simpl. eauto.
Qed.

Lemma strategy_spelling_total norm_unit nm :
  nonempty_buckets nm → ∃ st, strategy_spelling norm_unit nm = Ok st.
Proof.
  intros Hnm. unfold strategy_spelling, no_match.
  destruct (nonempty norm_unit); [|eauto].
  destruct (try_spelling_variant_match_total norm_unit nm Hnm) as [r ->]. simpl.
  destruct r as [[[[e am] variant] pairs]|]; eauto.
Qed.

Lemma strategy_per_total norm_unit nm :
  nonempty_buckets nm → ∃ st, strategy_per norm_unit nm = Ok st.
Proof.
  intros Hnm. unfold strategy_per, no_match.
  destruct (nonempty norm_unit); [|eauto].
  destruct (try_per_decomposition_match_total norm_unit nm Hnm) as [r ->]. simpl.
  destruct r as [[[[e am] variant] pairs]|]; eauto.
Qed.

Lemma strategy_shape_total norm_unit nm :
  nonempty_buckets nm → ∃ st, strategy_shape norm_unit nm = Ok st.
Proof.
  intros Hnm. unfold strategy_shape, no_match.
  destruct (nonempty norm_unit); [|eauto].
  destruct (try_shape_variant_match_total norm_unit nm Hnm) as [r ->]. simpl.
  destruct r as [[[[e am] variant] pairs]|]; eauto.
Qed.

Lemma strategy_alternate_spelling_total alternates nm :
  nonempty_buckets nm → ∃ st, strategy_alternate_spelling alternates nm = Ok st.
Proof.
  intros Hnm.
  induction alternates as [|alt alternates IH]; simpl; [unfold no_match; eauto|].
  destruct (nonempty _); [|done].
  destruct (try_spelling_variant_match_total (normalize_name alt) nm Hnm)
    as [r ->]. simpl.
  destruct r as [[[[e am] variant] pairs]|]; eauto.
Qed.

Lemma unless_best_total (st : option (method * entry) * list audit) next :
  (∃ st1, next = Ok st1) → ∃ st', unless_best st next = Ok st'.
Proof.
  intros [[b f] ->]. unfold unless_best. destruct st.1; simpl; eauto.
Qed.

(** The only exception on the path of a record is the [AttributeError] of
    [None.lower()], for a [null] unit name. *)
Lemma select_best_total nm sm r :
  nonempty_buckets nm → r_unit r ≠ Null →
  ∃ st, select_best nm sm r = Ok st.
Proof.
  intros Hnm Hunit. unfold select_best.
  assert (∃ name, get (r_unit r) = Some name) as [name ->].
  { destruct (r_unit r); simpl; eauto. done. }
  destruct (strategy_unit_name_total (normalize_name (Some name)) nm Hnm)
    as [s1 ->]; cbn [bind].
  destruct (unless_best_total s1 _
              (strategy_symbol_total name (get (r_symbol r)) sm)) as [s2 ->]; cbn [bind].
  destruct (unless_best_total s2 _
              (strategy_plural_total (get (r_plural r)) nm Hnm)) as [s3 ->]; cbn [bind].
  destruct (unless_best_total s3 _
              (strategy_alternates_total (get_list (r_alternate_unit r)) nm Hnm))
    as [s4 ->]; cbn [bind].
  destruct (unless_best_total s4 _
              (strategy_canonical_total (get (r_canonical_unit r))
                 (normalize_name (Some name)) nm Hnm)) as [s5 ->]; cbn [bind].
  destruct (unless_best_total s5 _
              (strategy_spelling_total (normalize_name (Some name)) nm Hnm))
    as [s6 ->]; cbn [bind].
  destruct (unless_best_total s6 _
              (strategy_per_total (normalize_name (Some name)) nm Hnm))
    as [s7 ->]; cbn [bind].
  destruct (unless_best_total s7 _
              (strategy_shape_total (normalize_name (Some name)) nm Hnm))
    as [s8 ->]; cbn [bind].
  apply unless_best_total. by apply strategy_alternate_spelling_total.
Qed.

Lemma match_record_total nm sm r :
  nonempty_buckets nm → r_unit r ≠ Null →
  ∃ mi, match_record nm sm r = Ok mi.
Proof.
  intros Hnm Hunit. unfold match_record.
  destruct (select_best_total nm sm r Hnm Hunit) as [[best found] ->]. simpl.
  eauto.
Qed.

Lemma match_loop_total nm sm dataset acc :
  nonempty_buckets nm → Forall (λ r, r_unit r ≠ Null) dataset →
  ∃ results matched_count method_counts,
    match_loop nm sm acc dataset = Ok (results, matched_count, method_counts)
    ∧ length results = (length acc.1.1 + length dataset)%nat.
Proof.
  intros Hnm Hds. revert acc.
  induction Hds as [|r dataset Hr Hds IH]; intros [[results n] c]; simpl.
  - exists results, n, c. split; [done | lia].
  - destruct (match_record_total nm sm r Hnm Hr) as [mi ->]. simpl.
    destruct (match_method mi).
    + destruct (IH (results ++ [mi], S n,
                    <[method_str m := S (default 0%nat (c !! method_str m))]> c))
        as (res & n' & c' & -> & Hlen).
      exists res, n', c'. split; [done|]. simpl in Hlen.
      rewrite length_app in Hlen. simpl in *. lia.
    + destruct (IH (results ++ [mi], n, c)) as (res & n' & c' & -> & Hlen).
      exists res, n', c'. split; [done|]. simpl in Hlen.
      rewrite length_app in Hlen. simpl in *. lia.
Qed.

End Totality.

(** ** ASCII inputs do not depend on the Unicode tables

    On strings of ASCII characters the laws of [Unicode] determine every
    table, so the functions of the script agree with their instance at
    [ascii_tables], where they compute. *)

Definition ascii_str (s : str) : bool := forallb is_ascii s.

Definition ascii_opt (o : option str) : bool :=
  match o with
  | Some s => ascii_str s
  | None => true
  end.

Definition ascii_entry (e : entry) : bool :=
  ascii_opt (label e) && ascii_opt (definition e)
  && forallb ascii_str (exact_synonyms e)
  && forallb ascii_str (related_synonyms e)
  && forallb ascii_str (narrow_synonyms e).

Section AsciiTransport.
Context {U : Unicode}.

Lemma ascii_str_drop_while P s :
  ascii_str s = true → ascii_str (drop_while P s) = true.
Proof.
  induction s as [|c s IH]; simpl; [done|].
  intros [Hc Hs]%andb_prop. destruct (P c); [by apply IH|].
  simpl. by rewrite Hc.
Qed.

Lemma ascii_str_rev s : ascii_str (rev s) = ascii_str s.
Proof.
  unfold ascii_str. apply eq_true_iff_eq. rewrite !forallb_forall.
  split; intros H c Hc; apply H; by apply in_rev in Hc || apply in_rev.
Qed.

Lemma ascii_str_strip s : ascii_str s = true → ascii_str (strip s) = true.
Proof.
  intros Hs. unfold strip, rstrip, lstrip.
  rewrite ascii_str_rev. apply ascii_str_drop_while.
  rewrite ascii_str_rev. by apply ascii_str_drop_while.
Qed.

Lemma drop_while_ascii_ext (P Q : char → bool) s :
  (∀ c, is_ascii c = true → P c = Q c) → ascii_str s = true →
  drop_while P s = drop_while Q s.
Proof.
  intros HPQ. induction s as [|c s IH]; simpl; [done|].
  intros [Hc Hs]%andb_prop. rewrite (HPQ c Hc).
  destruct (Q c); [by apply IH | done].
Qed.

Lemma normalize_name_ascii t :
  ascii_opt t = true → normalize_name t = @normalize_name ascii_tables t.
Proof.
  destruct t as [[|c t]|]; try done. intros Ht.
  unfold normalize_name. by rewrite (lower_ascii (c :: t)).
Qed.

Lemma POWER_SYNONYMS_RE_ascii s :
  ascii_str s = true → POWER_SYNONYMS_RE s = @POWER_SYNONYMS_RE ascii_tables s.
Proof.
  intros Hs. unfold POWER_SYNONYMS_RE.
  destruct (startswith (u "10^[") s); [|done].
  assert (ascii_str (drop 4 s) = true) as Hd.
  { unfold ascii_str in *. rewrite forallb_forall in *.
    intros c Hc%list_elem_of_In. apply Hs, list_elem_of_In.
    by eapply subseteq_drop. }
  set (r := match drop 4 s with
            | c :: r' => if c =? 45 then r' else drop 4 s
            | [] => drop 4 s
            end).
  assert (ascii_str r = true) as Hr.
  { subst r. destruct (drop 4 s) as [|c d]; [done|].
    destruct (c =? 45); [|done]. by apply andb_prop in Hd as [_ ?]. }
  destruct r as [|d r']; [done|].
  pose proof Hr as [Hd0 _]%andb_prop.
  rewrite (isdecimal_ascii d Hd0).
  by rewrite (drop_while_ascii_ext isdecimal (@isdecimal ascii_tables) (d :: r')
                (λ c Hc, isdecimal_ascii c Hc) Hr).
Qed.

Lemma is_symbol_like_ascii s :
  ascii_str s = true → is_symbol_like s = @is_symbol_like ascii_tables s.
Proof.
  intros Hs%ascii_str_strip. unfold is_symbol_like.
  by rewrite (isalpha_ascii _ Hs), (islower_ascii _ Hs).
Qed.

Lemma name_key_ascii syn :
  ascii_str syn = true → name_key syn = @name_key ascii_tables syn.
Proof.
  intros Hs%ascii_str_strip. unfold name_key.
  by rewrite (POWER_SYNONYMS_RE_ascii _ Hs), (normalize_name_ascii (Some _) Hs).
Qed.

Lemma symbol_key_ascii syn :
  ascii_str syn = true → symbol_key syn = @symbol_key ascii_tables syn.
Proof.
  intros Hs%ascii_str_strip. unfold symbol_key.
  by rewrite (POWER_SYNONYMS_RE_ascii _ Hs), (is_symbol_like_ascii _ Hs).
Qed.

Lemma fold_index_synonym_ascii e t syns maps :
  forallb ascii_str syns = true →
  fold_left (index_synonym e t) syns maps
  = fold_left (@index_synonym ascii_tables e t) syns maps.
Proof.
  revert maps. induction syns as [|syn syns IH]; intros maps; simpl; [done|].
  intros [Hsyn Hsyns]%andb_prop. rewrite IH by done. f_equal.
  rewrite !index_synonym_keys.
  by rewrite (name_key_ascii _ Hsyn), (symbol_key_ascii _ Hsyn).
Qed.

Lemma index_entry_ascii maps e :
  ascii_entry e = true → index_entry maps e = @index_entry ascii_tables maps e.
Proof.
  unfold ascii_entry. intros [[[[Hl _]%andb_prop He]%andb_prop Hr]%andb_prop Hn]%andb_prop.
  unfold index_entry, skipped, all_synonyms. cbn [fold_left].
  rewrite (normalize_name_ascii _ Hl).
  by rewrite !fold_index_synonym_ascii.
Qed.

Lemma build_uo_lookup_ascii uo_entries :
  forallb ascii_entry uo_entries = true →
  build_uo_lookup uo_entries = @build_uo_lookup ascii_tables uo_entries.
Proof.
  unfold build_uo_lookup. generalize (∅ : gmap str (list (entry * source_type)),
                                      ∅ : gmap str (list (entry * source_type))).
  induction uo_entries as [|e es IH]; intros maps; simpl; [done|].
  intros [He Hes]%andb_prop. by rewrite IH, (index_entry_ascii _ _ He).
Qed.

Lemma fold_lower_ascii syns (acc : str) :
  forallb ascii_str syns = true →
  fold_left (λ acc syn, acc ++ u " " ++ lower syn) syns acc
  = fold_left (λ acc syn, acc ++ u " " ++ @lower ascii_tables syn) syns acc.
Proof.
  revert acc. induction syns as [|syn syns IH]; intros acc; simpl; [done|].
  intros [Hsyn Hsyns]%andb_prop. by rewrite IH, (lower_ascii syn).
Qed.

Lemma plausible_ascii name e :
  ascii_str name = true → ascii_entry e = true →
  plausible name e = @plausible ascii_tables name e.
Proof.
  unfold ascii_entry.
  intros Hname [[[[Hl Hd]%andb_prop He]%andb_prop Hr]%andb_prop Hn]%andb_prop.
  unfold plausible.
  assert (ascii_str (or_empty (label e)) = true) as Hl' by by destruct (label e).
  assert (ascii_str (or_empty (definition e)) = true) as Hd'
    by by destruct (definition e).
  rewrite (lower_ascii name), (lower_ascii (or_empty (label e))),
    (lower_ascii (or_empty (definition e))) by done.
  by rewrite !fold_lower_ascii.
Qed.

End AsciiTransport.

(** ** Candidates come from the indices *)

Section Candidates.
Context {U : Unicode} {SO : SetOrder}.

Implicit Types nm sm : gmap str (list (entry * source_type)).

Lemma syn_hits_elem key k x syns p : p ∈ syn_hits key k x syns → p = x.
Proof.
  unfold syn_hits. rewrite list_elem_of_In, in_flat_map.
  intros (syn & _ & Hp). case_bool_decide; [|done].
  destruct Hp as [<-|[]]. done.
Qed.

Lemma name_pairs_elem k e p : p ∈ name_pairs k e → p.1 = e ∧ skipped e = false.
Proof.
  unfold name_pairs. destruct (skipped e); [by intros ?%elem_of_nil|].
  rewrite !elem_of_app. intros [H|[H|[H|H]]]; split; try done.
  - destruct (_ && _); [|by apply elem_of_nil in H].
    by apply list_elem_of_singleton in H as ->.
  - by apply syn_hits_elem in H as ->.
  - by apply syn_hits_elem in H as ->.
  - by apply syn_hits_elem in H as ->.
Qed.

Lemma symbol_pairs_elem k e p :
  p ∈ symbol_pairs k e → p.1 = e ∧ skipped e = false.
Proof.
  unfold symbol_pairs. destruct (skipped e); [by intros ?%elem_of_nil|].
  rewrite !elem_of_app. intros [H|[H|H]]; split; try done;
    by apply syn_hits_elem in H as ->.
Qed.

(** Every candidate of either index is an entry of the input that passed
    the three guards. *)
Lemma build_uo_lookup_elem uo_entries k p :
  p ∈ bucket (build_uo_lookup uo_entries).1 k
  ∨ p ∈ bucket (build_uo_lookup uo_entries).2 k →
  p.1 ∈ uo_entries ∧ skipped p.1 = false.
Proof.
  destruct (build_uo_lookup_bucket uo_entries k) as [-> ->].
  intros [H|H];
    apply list_elem_of_In, in_flat_map in H
      as (e & He%list_elem_of_In & Hp%list_elem_of_In).
  - apply name_pairs_elem in Hp as [-> ?]. done.
  - apply symbol_pairs_elem in Hp as [-> ?]. done.
Qed.

Lemma chosen_from_elem m b m' e :
  chosen_from m b = Some (m', e) → ∃ src, (e, src) ∈ b.
Proof.
  assert (∀ f : entry * source_type → method * entry,
            (∀ p, (f p).2 = p.1) → f <$> head b = Some (m', e) →
            ∃ src, (e, src) ∈ b) as Hhd.
  { intros f Hf. destruct b as [|[e0 s0] b]; simpl; [done|].
    intros [= H]. pose proof (Hf (e0, s0)) as Hf0. rewrite H in Hf0.
    simpl in Hf0. subst e0. exists s0. left. }
  destruct m; simpl; try by apply Hhd.
  destruct (List.filter is_label b) as [|[e0 s0] l] eqn:Hf; [by apply Hhd|].
  intros [= <- <-]. exists s0.
  assert ((e0, s0) ∈ List.filter is_label b) as Hin by (rewrite Hf; left).
  apply list_elem_of_In, filter_In in Hin as [Hin _]. by apply list_elem_of_In.
Qed.

Lemma winning_bucket_elem nm sm unit_name m b p :
  winning_bucket nm sm unit_name m b → p ∈ b →
  ∃ k, p ∈ bucket nm k ∨ p ∈ bucket sm k.
Proof.
  intros [m0 k pairs _ Hk | k pairs pl Hk Hpl] Hp; exists k.
  - left. unfold bucket. by rewrite Hk.
  - right. unfold bucket. rewrite Hk. simpl. by eapply filter_plausible_elem.
Qed.

(** The chosen entity is a candidate of one of the indices. *)
Lemma select_best_elem nm sm r m e found :
  select_best nm sm r = Ok (Some (m, e), found) →
  ∃ k src, (e, src) ∈ bucket nm k ∨ (e, src) ∈ bucket sm k.
Proof.
  intros (b & Hb & Hch & _)%select_best_post.
  apply chosen_from_elem in Hch as [src Hsrc].
  destruct (winning_bucket_elem _ _ _ _ _ _ Hb Hsrc) as [k Hk]. eauto.
Qed.

(** A unit-name hit settles the record: no later strategy runs. *)
Lemma select_best_unit_name nm sm r best found :
  strategy_unit_name (normalize_name (get (r_unit r))) nm = Ok (Some best, found) →
  select_best nm sm r = Ok (Some best, found).
Proof. intros H. unfold select_best. by rewrite H. Qed.

(** The results of [match_dataset] are the [match_info] of its records. *)
Lemma match_loop_elem nm sm dataset acc results n c mi :
  match_loop nm sm acc dataset = Ok (results, n, c) → mi ∈ results →
  mi ∈ acc.1.1 ∨ ∃ r, r ∈ dataset ∧ match_record nm sm r = Ok mi.
Proof.
  revert acc. induction dataset as [|r dataset IH]; intros [[res0 n0] c0]; simpl.
  - intros [= <- <- <-]. by left.
  - intros (acc' & Hstep & Hloop)%bind_Ok Hmi.
    apply bind_Ok in Hstep as (mi0 & Hmi0 & Hacc).
    destruct (IH _ Hloop Hmi) as [Hin|(r' & Hr' & Hrec)].
    + assert (acc'.1.1 = res0 ++ [mi0]) as Hres.
      { destruct (match_method mi0); by injection Hacc as <-. }
      rewrite Hres in Hin. apply elem_of_app in Hin as [Hin|Hin]; [by left|].
      apply list_elem_of_singleton in Hin as ->. right. exists r.
      split; [left | done].
    + right. exists r'. split; [by right | done].
Qed.

Lemma match_dataset_elem dataset uo_entries results n c mi :
  match_dataset dataset uo_entries = Ok (results, n, c) → mi ∈ results →
  ∃ r, r ∈ dataset
       ∧ match_record (build_uo_lookup uo_entries).1
                      (build_uo_lookup uo_entries).2 r = Ok mi.
Proof.
  unfold match_dataset. destruct (build_uo_lookup uo_entries) as [nm sm].
  intros Hloop Hmi.
  destruct (match_loop_elem _ _ _ _ _ _ _ _ Hloop Hmi) as [Hin|H]; [|done].
  by apply elem_of_nil in Hin.
Qed.

End Candidates.

(** * The properties of the specification *)

(** ** Sample ontology and dataset

    The collision example: two entries share the symbol [F]. *)

Definition farad : entry :=
  Entry (u "u:A") (u "A") (Some (u "farad")) None [u "F"] [] [] false [].

Definition degree_fahrenheit : entry :=
  Entry (u "u:B") (u "B") (Some (u "degree fahrenheit")) None
        [u "F"; u "fahrenheit"] [] [] false [].

Definition obsolete_unit : entry :=
  Entry (u "u:C") (u "C") (Some (u "old farad")) None [u "farad"] [] [] true [].

Definition sample_entries : list entry :=
  [farad; degree_fahrenheit; obsolete_unit].

Definition only_unit_and_symbol (unit_name symbol : str) : record :=
  Record_ (Str unit_name) (Str symbol) Missing Missing LMissing
          Missing Missing Missing.

Definition farad_record : record := only_unit_and_symbol (u "farad") (u "F").
Definition fahrenheit_record : record :=
  only_unit_and_symbol (u "fahrenheit") (u "F").
Definition empty_record : record :=
  Record_ Missing Null (Str []) Missing LNull Missing Missing Missing.

Definition sample_dataset : list record :=
  [farad_record; fahrenheit_record; empty_record].

Definition sample_run : result (list match_info * nat * gmap str nat) :=
  @match_dataset ascii_tables elements_order sample_dataset sample_entries.

Definition results_of (run : result (list match_info * nat * gmap str nat)) :
    list match_info :=
  match run with
  | Ok (results, _, _) => results
  | Raise _ => []
  end.

Definition matched_count_of (run : result (list match_info * nat * gmap str nat)) :
    nat :=
  match run with
  | Ok (_, n, _) => n
  | Raise _ => 0%nat
  end.

Definition method_counts_of (run : result (list match_info * nat * gmap str nat)) :
    gmap str nat :=
  match run with
  | Ok (_, _, c) => c
  | Raise _ => ∅
  end.

(** C1.  When the normalized unit name of a record has a hit in the name
    index built from the ontology, and the symbol strategy would succeed
    on the same record, matching returns the direct-name result: the
    chosen entity belongs to the name-index bucket of the unit name, the
    method is a unit-name tag and not the symbol tag, and [all_matches]
    lists that bucket. *)
Theorem direct_name_beats_symbol {U : Unicode} {SO : SetOrder}
    uo_entries r pairs e_sym found_sym :
  let nm := (build_uo_lookup uo_entries).1 in
  let sm := (build_uo_lookup uo_entries).2 in
  let norm_unit := normalize_name (get (r_unit r)) in
  norm_unit ≠ [] →
  nm !! norm_unit = Some pairs →
  strategy_symbol (get (r_unit r)) (get (r_symbol r)) sm
    = Ok (Some (symbol_to_synonym, e_sym), found_sym) →
  ∃ e src,
    (e, src) ∈ pairs
    ∧ unit_name_to src ≠ symbol_to_synonym
    ∧ select_best nm sm r
      = Ok (Some (unit_name_to src, e),
            mk_audit am_unit_name_to None None <$> pairs)
    ∧ ∃ mi, match_record nm sm r = Ok mi
            ∧ matched mi = true
            ∧ match_method mi = Some (unit_name_to src)
            ∧ match_uo_uri mi = Some (uri e).
Proof.
  intros nm sm norm_unit Hne Hk _.
  destruct (build_uo_lookup_nonempty uo_entries) as [Hnm _]. fold nm in Hnm.
  assert (∃ e src, (e, src) ∈ pairs
            ∧ strategy_unit_name norm_unit nm
              = Ok (Some (unit_name_to src, e),
                    mk_audit am_unit_name_to None None <$> pairs))
    as (e & src & Hin & Hs).
  { unfold strategy_unit_name. rewrite Hk.
    destruct norm_unit as [|c n]; [done|]. cbn [nonempty].
    destruct (List.filter is_label pairs) as [|[e0 s0] l] eqn:Hf.
    - destruct (bucket_first _ _ _ Hnm Hk) as [[e0 s0] Hp]. rewrite Hp.
      exists e0, s0. split; [|done].
      apply first_Ok in Hp. destruct pairs; [done|].
      injection Hp as ->. left.
    - exists e0, src_label.
      assert ((e0, s0) ∈ List.filter is_label pairs) as Hin by (rewrite Hf; left).
      apply list_elem_of_In, filter_In in Hin as [Hin Hl].
      unfold is_label in Hl. apply bool_decide_eq_true in Hl. simpl in Hl.
      subst s0. split; [by apply list_elem_of_In | done]. }
  exists e, src. split; [done|]. split; [done|].
  pose proof (select_best_unit_name nm sm r _ _ Hs) as Hsel.
  split; [done|]. unfold match_record. rewrite Hsel. cbn [bind]. eauto.
Qed.

(** For the record [farad], symbol [F]: both strategies succeed and the
    direct-name result is returned. *)
Lemma direct_name_beats_symbol_witness :
  ∃ e src,
    (e, src) ∈ [(farad, src_label)]
    ∧ unit_name_to src ≠ symbol_to_synonym
    ∧ @select_best ascii_tables elements_order
        (@build_uo_lookup ascii_tables sample_entries).1
        (@build_uo_lookup ascii_tables sample_entries).2 farad_record
      = Ok (Some (unit_name_to src, e),
            mk_audit am_unit_name_to None None <$> [(farad, src_label)])
    ∧ ∃ mi, @match_record ascii_tables elements_order
              (@build_uo_lookup ascii_tables sample_entries).1
              (@build_uo_lookup ascii_tables sample_entries).2 farad_record
            = Ok mi
            ∧ matched mi = true
            ∧ match_method mi = Some (unit_name_to src)
            ∧ match_uo_uri mi = Some (uri e).
Proof.
  apply (@direct_name_beats_symbol ascii_tables elements_order sample_entries
           farad_record [(farad, src_label)] farad
           (mk_audit am_symbol_to None None
              <$> [(farad, src_as_symbol exact_synonym)])).
  - vm_compute. discriminate.
  - vm_compute. reflexivity.
  - vm_compute. reflexivity.
Defined.

(** ** Excluded entries *)

(** The entries the claim excludes: deprecated ones, and those whose
    normalized label is a category placeholder or an SI prefix word. *)
Definition excluded_from_matching {U : Unicode} (e : entry) : Prop :=
  deprecated e = true
  ∨ normalize_name (label e) ∈ CATEGORY_LABELS
  ∨ normalize_name (label e) ∈ PREFIX_WORDS.

Lemma PREFIX_LABEL_RE_words : Forall (λ w, PREFIX_LABEL_RE w = true) PREFIX_WORDS.
Proof. repeat constructor. Qed.

Lemma excluded_skipped {U : Unicode} e :
  excluded_from_matching e → skipped e = true.
Proof.
  unfold skipped. intros [Hd|[Hc|Hp]].
  - by rewrite Hd.
  - apply orb_true_intro. left. apply orb_true_intro. right.
    apply existsb_exists. exists (normalize_name (label e)).
    split; [by apply list_elem_of_In|]. by apply bool_decide_eq_true.
  - apply orb_true_intro. right.
    by apply (proj1 (Forall_forall _ _) PREFIX_LABEL_RE_words).
Qed.

Lemma NoDup_fmap_eq {A B} (f : A → B) (l : list A) x y :
  NoDup (f <$> l) → x ∈ l → y ∈ l → f x = f y → x = y.
Proof.
  induction l as [|a l IH]; simpl; [by intros _ ?%elem_of_nil|].
  intros [Ha Hl]%NoDup_cons [->|Hx]%elem_of_cons [->|Hy]%elem_of_cons Hf;
    [done| | |by apply IH].
  - destruct Ha. rewrite Hf. by apply list_elem_of_fmap_2.
  - destruct Ha. rewrite <- Hf. by apply list_elem_of_fmap_2.
Qed.

(** C8.  An entry that is deprecated, or whose normalized label is
    ["unit"], ["base unit"], ["prefix"] or an SI prefix word, is in no
    bucket of the name index or of the symbol index, under any provenance
    tag, and is never the entity chosen for a record.  When the entries
    have distinct URIs, no match result carries its URI either. *)
Theorem excluded_never_chosen {U : Unicode} {SO : SetOrder} uo_entries e :
  excluded_from_matching e →
  let nm := (build_uo_lookup uo_entries).1 in
  let sm := (build_uo_lookup uo_entries).2 in
  (∀ k src, ((e, src) ∉ bucket nm k) ∧ ((e, src) ∉ bucket sm k))
  ∧ (∀ r m e' found,
       select_best nm sm r = Ok (Some (m, e'), found) → e' ≠ e)
  ∧ (e ∈ uo_entries → NoDup (uri <$> uo_entries) →
     ∀ dataset results matched_count method_counts mi,
       match_dataset dataset uo_entries
         = Ok (results, matched_count, method_counts) →
       mi ∈ results → match_uo_uri mi ≠ Some (uri e)).
Proof.
  intros Hex%excluded_skipped nm sm.
  assert (∀ k src, ((e, src) ∉ bucket nm k) ∧ ((e, src) ∉ bucket sm k))
    as Hbuckets.
  { intros k src. split; intros Hin;
      [ destruct (build_uo_lookup_elem uo_entries k (e, src) (or_introl Hin))
      | destruct (build_uo_lookup_elem uo_entries k (e, src) (or_intror Hin)) ];
      simpl in *; congruence. }
  assert (∀ r m e' found,
            select_best nm sm r = Ok (Some (m, e'), found) →
            e' ∈ uo_entries ∧ skipped e' = false) as Hchosen.
  { intros r m e' found (k & src & Hin)%select_best_elem.
    by apply (build_uo_lookup_elem uo_entries k (e', src)). }
  split; [done|]. split.
  - intros r m e' found [_ Hsk]%Hchosen. congruence.
  - intros He Hnodup dataset results n c mi Hrun Hmi.
    destruct (match_dataset_elem _ _ _ _ _ _ Hrun Hmi) as (r & _ & Hrec).
    fold nm sm in Hrec. unfold match_record in Hrec.
    apply bind_Ok in Hrec as ([best found] & Hsel & Hmi').
    destruct best as [[m e']|]; injection Hmi' as <-; simpl; [|done].
    intros [= Huri]. destruct (Hchosen _ _ _ _ Hsel) as [He' Hsk].
    assert (e' = e) as -> by by eapply NoDup_fmap_eq.
    congruence.
Qed.

(** The deprecated sample entry, whose synonym ["farad"] would otherwise
    compete with the label of [farad]. *)
Lemma excluded_never_chosen_witness :
  (∀ k src,
     ((obsolete_unit, src)
        ∉ bucket (@build_uo_lookup ascii_tables sample_entries).1 k)
     ∧ ((obsolete_unit, src)
          ∉ bucket (@build_uo_lookup ascii_tables sample_entries).2 k))
  ∧ (∀ r m e' found,
       @select_best ascii_tables elements_order
         (@build_uo_lookup ascii_tables sample_entries).1
         (@build_uo_lookup ascii_tables sample_entries).2 r
       = Ok (Some (m, e'), found) → e' ≠ obsolete_unit)
  ∧ (obsolete_unit ∈ sample_entries → NoDup (uri <$> sample_entries) →
     ∀ dataset results matched_count method_counts mi,
       @match_dataset ascii_tables elements_order dataset sample_entries
         = Ok (results, matched_count, method_counts) →
       mi ∈ results → match_uo_uri mi ≠ Some (uri obsolete_unit)).
Proof.
  apply (@excluded_never_chosen ascii_tables elements_order sample_entries
           obsolete_unit).
  left. reflexivity.
Defined.

(** ** Totality *)

(** A field that gives a strategy no input: absent, [null] or empty. *)
Definition blank (f : field) : Prop := f = Missing ∨ f = Null ∨ f = Str [].

Definition blank_list (f : list_field) : Prop :=
  f = LMissing ∨ f = LNull ∨ f = LList [].

Lemma unless_best_no_match (st : option (method * entry) * list audit) :
  unless_best st no_match = Ok st.
Proof.
  unfold unless_best, no_match. destruct st as [[b|] found]; simpl; [done|].
  by rewrite app_nil_r.
Qed.

(** What holds of totality.  Matching a dataset whose records have a
    missing, empty or any other string unit name never raises:
    [match_dataset] returns one result per record, whatever the other
    fields hold (absent, [null], empty, a [null] list of alternates).  A
    strategy whose input field is absent, [null] or empty finds nothing,
    for any index, and the cascade moves on with its state unchanged; when
    no strategy sets [best] the record's result has [matched = false].
    The hypothesis leaves out the unit that is [null]: see
    [null_unit_symbol_hit] below. *)
Theorem matching_is_total {U : Unicode} {SO : SetOrder} dataset uo_entries :
  Forall (λ r, r_unit r ≠ Null) dataset →
  (∃ results matched_count method_counts,
     match_dataset dataset uo_entries = Ok (results, matched_count, method_counts)
     ∧ length results = length dataset)
  ∧ (∀ (nm sm : gmap str (list (entry * source_type))) r,
       (blank (r_unit r) →
          let norm_unit := normalize_name (get (r_unit r)) in
          strategy_unit_name norm_unit nm = no_match
          ∧ strategy_spelling norm_unit nm = no_match
          ∧ strategy_per norm_unit nm = no_match
          ∧ strategy_shape norm_unit nm = no_match)
       ∧ (blank (r_symbol r) →
          strategy_symbol (get (r_unit r)) (get (r_symbol r)) sm = no_match)
       ∧ (blank (r_plural r) → strategy_plural (get (r_plural r)) nm = no_match)
       ∧ (blank_list (r_alternate_unit r) →
          strategy_alternates (get_list (r_alternate_unit r)) nm = no_match
          ∧ strategy_alternate_spelling (get_list (r_alternate_unit r)) nm
            = no_match)
       ∧ (blank (r_canonical_unit r) →
          ∀ norm_unit,
            strategy_canonical (get (r_canonical_unit r)) norm_unit nm = no_match)
       ∧ (∀ st, unless_best st no_match = Ok st)
       ∧ (∀ found, select_best nm sm r = Ok (None, found) →
            ∃ mi, match_record nm sm r = Ok mi
                  ∧ matched mi = false ∧ match_uo_uri mi = None)).
Proof.
  intros Hds. split.
  - unfold match_dataset.
    destruct (build_uo_lookup_nonempty uo_entries) as [Hnm _].
    destruct (build_uo_lookup uo_entries) as [nm sm].
    destruct (match_loop_total nm sm dataset ([], 0%nat, ∅) Hnm Hds)
      as (results & n & c & Hrun & Hlen).
    exists results, n, c. split; [done|]. simpl in Hlen. lia.
  - intros nm sm r.
    split; [|split; [|split; [|split; [|split; [|split]]]]].
    + by intros [-> | [-> | ->]].
    + by intros [-> | [-> | ->]]; destruct (get (r_unit r)).
    + by intros [-> | [-> | ->]].
    + by intros [-> | [-> | ->]].
    + by intros [-> | [-> | ->]].
    + apply unless_best_no_match.
    + intros found Hsel. unfold match_record. rewrite Hsel. simpl. eauto.
Qed.

(** The sample dataset; its last record has a missing unit, a [null]
    symbol, an empty plural and a [null] list of alternates. *)
Lemma matching_is_total_witness :
  (∃ results matched_count method_counts,
     @match_dataset ascii_tables elements_order sample_dataset sample_entries
       = Ok (results, matched_count, method_counts)
     ∧ length results = length sample_dataset)
  ∧ (∀ (nm sm : gmap str (list (entry * source_type))) r,
       (blank (r_unit r) →
          let norm_unit := @normalize_name ascii_tables (get (r_unit r)) in
          strategy_unit_name norm_unit nm = no_match
          ∧ @strategy_spelling elements_order norm_unit nm = no_match
          ∧ @strategy_per elements_order norm_unit nm = no_match
          ∧ @strategy_shape elements_order norm_unit nm = no_match)
       ∧ (blank (r_symbol r) →
          @strategy_symbol ascii_tables (get (r_unit r)) (get (r_symbol r)) sm
          = no_match)
       ∧ (blank (r_plural r) →
          @strategy_plural ascii_tables (get (r_plural r)) nm = no_match)
       ∧ (blank_list (r_alternate_unit r) →
          @strategy_alternates ascii_tables (get_list (r_alternate_unit r)) nm
          = no_match
          ∧ @strategy_alternate_spelling ascii_tables elements_order
              (get_list (r_alternate_unit r)) nm
            = no_match)
       ∧ (blank (r_canonical_unit r) →
          ∀ norm_unit,
            @strategy_canonical ascii_tables (get (r_canonical_unit r))
              norm_unit nm = no_match)
       ∧ (∀ st, unless_best st no_match = Ok st)
       ∧ (∀ found,
            @select_best ascii_tables elements_order nm sm r = Ok (None, found) →
            ∃ mi, @match_record ascii_tables elements_order nm sm r = Ok mi
                  ∧ matched mi = false ∧ match_uo_uri mi = None)).
Proof.
  apply (@matching_is_total ascii_tables elements_order sample_dataset
           sample_entries).
  repeat constructor; discriminate.
Defined.

(** ** Consistency of a match result *)

Definition consistent (mi : match_info) : Prop :=
  (matched mi = true ↔ match_uo_uri mi ≠ None)
  ∧ (matched mi = true ↔ all_matches mi ≠ [])
  ∧ (matched mi = true →
     ∃ x, match_uo_uri mi = Some x ∧ x ∈ a_uo_uri <$> all_matches mi).

Lemma match_record_consistent {U : Unicode} {SO : SetOrder}
    (nm sm : gmap str (list (entry * source_type))) r mi :
  match_record nm sm r = Ok mi → consistent mi.
Proof.
  unfold match_record. intros ([best found] & Hsel & Hmi)%bind_Ok.
  apply select_best_post in Hsel. unfold strategy_post in Hsel. simpl in Hsel.
  destruct best as [[m e]|]; injection Hmi as <-; unfold consistent; simpl.
  - destruct Hsel as (b & _ & Hch & am & alt & variant & ->).
    apply chosen_from_elem in Hch as [src Hin].
    assert (uri e ∈ a_uo_uri <$> (mk_audit am alt variant <$> b)) as Huri.
    { rewrite <- list_fmap_compose.
      by apply (list_elem_of_fmap_2 (a_uo_uri ∘ mk_audit am alt variant) _ (e, src)). }
    split; [|split].
    + by split.
    + split; [|done].
      intros _ Hnil. rewrite Hnil in Huri. by apply elem_of_nil in Huri.
    + eauto.
  - subst found. split; [|split].
    + split; [done | by intros []].
    + split; [done | by intros []].
    + done.
Qed.

(** C10.  Every result of [match_dataset] is internally consistent:
    [matched] holds exactly when [match_uo_uri] is set and exactly when
    [all_matches] is non-empty, and then the chosen URI is one of the URIs
    recorded in [all_matches]. *)
Theorem match_results_consistent {U : Unicode} {SO : SetOrder}
    dataset uo_entries results matched_count method_counts :
  match_dataset dataset uo_entries = Ok (results, matched_count, method_counts) →
  Forall consistent results.
Proof.
  intros Hrun. apply Forall_forall. intros mi Hmi.
  destruct (match_dataset_elem _ _ _ _ _ _ Hrun Hmi) as (r & _ & Hrec).
  by eapply match_record_consistent.
Qed.

Lemma match_results_consistent_witness :
  Forall consistent (results_of sample_run).
Proof.
  apply (@match_results_consistent ascii_tables elements_order sample_dataset
           sample_entries (results_of sample_run) (matched_count_of sample_run)
           (method_counts_of sample_run)).
  vm_compute. reflexivity.
Defined.

(** ** Tie-break inside the winning bucket *)

(** The claim as stated: whichever strategy wins, a label candidate in its
    bucket is preferred over the synonym candidates. *)
Definition label_preferred_everywhere {U : Unicode} {SO : SetOrder}
    (nm sm : gmap str (list (entry * source_type))) (r : record) : Prop :=
  ∀ m e found b,
    select_best nm sm r = Ok (Some (m, e), found) →
    winning_bucket nm sm (get (r_unit r)) m b →
    audits_of b found →
    (∃ e1, (e1, src_label) ∈ b) →
    (∃ e2 t, (e2, src_synonym t) ∈ b) →
    (e, src_label) ∈ b.

(** Two entries that share the name ["metres"]: the first as a synonym,
    the second as its label. *)
Definition metres_as_synonym : entry :=
  Entry (u "u:1") (u "1") (Some (u "alpha")) None [u "metres"] [] [] false [].

Definition metres_as_label : entry :=
  Entry (u "u:2") (u "2") (Some (u "metres")) None [] [] [] false [].

Definition metres_entries : list entry := [metres_as_synonym; metres_as_label].

Definition plural_record : record :=
  Record_ (Str (u "zzz")) Missing (Str (u "metres")) Missing LMissing
          Missing Missing Missing.

Definition metres_bucket : list (entry * source_type) :=
  [(metres_as_synonym, src_synonym exact_synonym); (metres_as_label, src_label)].

(** The plural strategy takes the first pair of the bucket, here a synonym
    pair, although the bucket holds a label pair. *)
Lemma plural_takes_first_pair :
  @select_best ascii_tables elements_order
    (@build_uo_lookup ascii_tables metres_entries).1
    (@build_uo_lookup ascii_tables metres_entries).2 plural_record
  = Ok (Some (plural_to_uo, metres_as_synonym),
        mk_audit am_plural_to None None <$> metres_bucket).
Proof. vm_compute. reflexivity. Qed.

(** The same for every Unicode table and every set iteration order. *)
Lemma plural_takes_first_pair_any {U : Unicode} {SO : SetOrder} :
  select_best (build_uo_lookup metres_entries).1
              (build_uo_lookup metres_entries).2 plural_record
  = Ok (Some (plural_to_uo, metres_as_synonym),
        mk_audit am_plural_to None None <$> metres_bucket).
Proof.
  rewrite (build_uo_lookup_ascii (U:=U) metres_entries) by reflexivity.
  unfold select_best, strategy_plural. cbv zeta.
  rewrite !(normalize_name_ascii (U:=U)) by reflexivity.
  vm_compute. reflexivity.
Qed.

(** Counterexample to C2 as stated. *)
Lemma label_not_preferred_by_plural :
  ¬ @label_preferred_everywhere ascii_tables elements_order
      (@build_uo_lookup ascii_tables metres_entries).1
      (@build_uo_lookup ascii_tables metres_entries).2 plural_record.
Proof.
  intros H.
  specialize (H plural_to_uo metres_as_synonym
                (mk_audit am_plural_to None None <$> metres_bucket)
                metres_bucket plural_takes_first_pair).
  assert ((metres_as_synonym, src_label) ∈ metres_bucket) as Hin.
  { apply H.
    - apply (wb_name _ _ _ _ (u "metres")); [done|]. vm_compute. reflexivity.
    - by exists am_plural_to, None, None.
    - exists metres_as_label. right. left.
    - exists metres_as_synonym, exact_synonym. left. }
  apply elem_of_cons in Hin as [Heq|Hin]; [discriminate|].
  apply elem_of_cons in Hin as [Heq|Hin]; [|by apply elem_of_nil in Hin].
  vm_compute in Heq. discriminate.
Qed.

(** C2, amended.  Whatever strategy wins, [all_matches] lists its candidate
    list in order: a bucket of the name index, or, for the symbol
    strategy, the pairs of a bucket of the symbol index that pass the
    plausibility filter (see [winning_bucket]).  The unit-name strategy
    chooses the first candidate with label provenance when the bucket has
    one, and the first candidate otherwise; every other strategy chooses
    the first candidate of its list, whatever its provenance: for the
    symbol strategy the first plausible pair, which need not be the first
    pair of the bucket. *)
Theorem chosen_within_winning_bucket {U : Unicode} {SO : SetOrder}
    (nm sm : gmap str (list (entry * source_type))) r m e found :
  select_best nm sm r = Ok (Some (m, e), found) →
  ∃ b, winning_bucket nm sm (get (r_unit r)) m b
       ∧ audits_of b found
       ∧ match m with
         | unit_name_to src =>
             match List.filter is_label b with
             | p :: _ => src = src_label ∧ p = (e, src_label)
             | [] => head b = Some (e, src)
             end
         | _ => ∃ src, head b = Some (e, src)
         end.
Proof.
  intros (b & Hb & Hch & Haud)%select_best_post.
  exists b. split; [done|]. split; [done|].
  assert (∀ m0 : method, (λ p : entry * source_type, (m0, p.1)) <$> head b
            = Some (m0, e) → ∃ src, head b = Some (e, src)) as Hhd.
  { intros m0. destruct b as [|[e0 s0] b]; simpl; [done|].
    intros [= ->]. eauto. }
  destruct m; simpl in Hch; try by eapply Hhd.
  destruct (List.filter is_label b) as [|[e0 s0] l] eqn:Hf.
  - destruct b as [|[e0 s0] b]; simpl in *; [done|]. by injection Hch as -> ->.
  - injection Hch as Hsrc He. simpl in He. subst src e0.
    assert ((e, s0) ∈ List.filter is_label b) as Hin by (rewrite Hf; left).
    apply list_elem_of_In, filter_In in Hin as [_ Hl].
    apply bool_decide_eq_true in Hl. simpl in Hl. by subst s0.
Qed.

Lemma chosen_within_winning_bucket_witness :
  ∃ b, @winning_bucket ascii_tables
         (@build_uo_lookup ascii_tables metres_entries).1
                      (@build_uo_lookup ascii_tables metres_entries).2
                      (get (r_unit plural_record)) plural_to_uo b
       ∧ audits_of b (mk_audit am_plural_to None None <$> metres_bucket)
       ∧ ∃ src, head b = Some (metres_as_synonym, src).
Proof.
  apply (@chosen_within_winning_bucket ascii_tables elements_order
           (@build_uo_lookup ascii_tables metres_entries).1
           (@build_uo_lookup ascii_tables metres_entries).2
           plural_record plural_to_uo metres_as_synonym
           (mk_audit am_plural_to None None <$> metres_bucket)).
  vm_compute. reflexivity.
Defined.

(** ** The plausibility filter *)

Lemma forallb_reverse (P : char → bool) (s : str) :
  forallb P (rev s) = forallb P s.
Proof.
  apply eq_true_iff_eq. rewrite !forallb_forall.
  split; intros H c Hc; apply H; by apply in_rev in Hc || apply in_rev.
Qed.

Lemma flush_word_spec cur w :
  w ∈ flush_word cur → w = rev cur ∧ (3 ≤ length w)%nat.
Proof.
  unfold flush_word. destruct (3 <=? length cur)%nat eqn:Hlen.
  - intros ->%list_elem_of_singleton. apply Nat.leb_le in Hlen.
    by rewrite length_rev.
  - by intros ?%elem_of_nil.
Qed.

(** Every match of [[a-z]{3,}] is at least three letters long and made of
    lower-case ASCII letters. *)
Lemma findall_words_spec cur s w :
  forallb is_az cur = true → w ∈ findall_words cur s →
  (3 ≤ length w)%nat ∧ forallb is_az w = true.
Proof.
  revert cur. induction s as [|c s IH]; intros cur Hcur; simpl.
  - intros [-> Hlen]%flush_word_spec. split; [done|].
    by rewrite forallb_reverse.
  - destruct (is_az c) eqn:Hc.
    + apply IH. simpl. by rewrite Hc.
    + intros [[-> Hlen]%flush_word_spec|Hw]%elem_of_app.
      * split; [done|]. by rewrite forallb_reverse.
      * by apply (IH []).
Qed.

(** A space ends the word being read. *)
Lemma findall_words_space cur a b :
  findall_words cur (a ++ 32 :: b) = findall_words cur a ++ findall_words [] b.
Proof.
  revert cur. induction a as [|c a IH]; intros cur; simpl; [done|].
  destruct (is_az c); [apply IH|]. by rewrite IH, app_assoc.
Qed.

Section PlausibilityFacts.
Context {U : Unicode}.

(** The word tokens of a text: the matches of [[a-z]{3,}] in its
    lower-cased form. *)
Definition tokens (text : str) : list str := findall_words [] (lower text).

(** The names of a candidate that the filter reads: its label, its exact
    synonyms and its related synonyms. *)
Definition candidate_names (e : entry) : list str :=
  or_empty (label e) :: exact_synonyms e ++ related_synonyms e.

(** (a) the dataset name shares a word token with a candidate name. *)
Definition shares_word (name : str) (e : entry) : Prop :=
  ∃ w t, w ∈ tokens name ∧ t ∈ candidate_names e ∧ w ∈ tokens t.

(** (b) the dataset name or the candidate label contains the other. *)
Definition name_within_label (name : str) (e : entry) : Prop :=
  contains (lower (or_empty (label e))) (lower name) = true
  ∨ contains (lower name) (lower (or_empty (label e))) = true.

(** (c) a word of three letters or more of one side lies inside such a
    word of the other side. *)
Definition word_within_word (name : str) (e : entry) : Prop :=
  ∃ uw ow t,
    uw ∈ tokens name ∧ t ∈ candidate_names e ∧ ow ∈ tokens t
    ∧ (3 ≤ length uw)%nat ∧ (3 ≤ length ow)%nat
    ∧ (contains uw ow = true ∨ contains ow uw = true).

(** (d) a word of four letters or more of the dataset name occurs in the
    candidate's definition. *)
Definition word_in_definition (name : str) (e : entry) : Prop :=
  ∃ uw, uw ∈ tokens name ∧ (4 ≤ length uw)%nat
        ∧ contains uw (lower (or_empty (definition e))) = true.

(** (a) as the claim states it: the shared token may also come from a
    narrow synonym or from the definition. *)
Definition shares_word_as_claimed (name : str) (e : entry) : Prop :=
  ∃ w t, w ∈ tokens name
         ∧ t ∈ candidate_names e ++ narrow_synonyms e
                 ++ [or_empty (definition e)]
         ∧ w ∈ tokens t.

Definition plausible_as_claimed (name : str) (e : entry) : Prop :=
  shares_word_as_claimed name e ∨ name_within_label name e
  ∨ word_within_word name e ∨ word_in_definition name e.

Lemma fold_lower_tokens syns (acc : str) w :
  w ∈ findall_words []
        (fold_left (λ acc syn, acc ++ u " " ++ lower syn) syns acc)
  ↔ w ∈ findall_words [] acc ∨ ∃ t, t ∈ syns ∧ w ∈ tokens t.
Proof.
  revert acc. induction syns as [|syn syns IH]; intros acc; simpl.
  - split; [by left|]. intros [H|(t & Ht & _)]; [done|].
    by apply elem_of_nil in Ht.
  - rewrite IH. change (acc ++ u " " ++ lower syn) with (acc ++ 32 :: lower syn).
    rewrite findall_words_space, elem_of_app. unfold tokens. split.
    + intros [[H|H]|(t & Ht & H)]; [by left| |].
      * right. exists syn. split; [left | done].
      * right. exists t. split; [by right | done].
    + intros [H|(t & [->|Ht]%elem_of_cons & H)].
      * by left; left.
      * by left; right.
      * right. eauto.
Qed.

(** The words of [all_uo_text] are the tokens of the candidate names. *)
Lemma uo_words_extended_spec e w :
  w ∈ findall_words []
        (fold_left (λ acc syn, acc ++ u " " ++ lower syn) (related_synonyms e)
           (fold_left (λ acc syn, acc ++ u " " ++ lower syn) (exact_synonyms e)
              (lower (or_empty (label e)))))
  ↔ ∃ t, t ∈ candidate_names e ∧ w ∈ tokens t.
Proof.
  rewrite !fold_lower_tokens. unfold candidate_names. split.
  - intros [[H|(t & Ht & H)]|(t & Ht & H)].
    + exists (or_empty (label e)). split; [left | done].
    + exists t. split; [|done]. right. apply elem_of_app. by left.
    + exists t. split; [|done]. right. apply elem_of_app. by right.
  - intros (t & [->|[Ht|Ht]%elem_of_app]%elem_of_cons & H).
    + by left; left.
    + left. right. eauto.
    + right. eauto.
Qed.

Lemma existsb_elements (X : gset str) (f : str → bool) :
  existsb f (elements X) = true ↔ ∃ w, w ∈ X ∧ f w = true.
Proof.
  rewrite existsb_exists. split; intros (w & Hw & Hf); exists w; split;
    try done.
  - by apply list_elem_of_In, elem_of_elements in Hw.
  - by apply list_elem_of_In, elem_of_elements.
Qed.

Lemma or_iff_both (A B C D : Prop) : (A ↔ B) → (C ↔ D) → (A ∨ C ↔ B ∨ D).
Proof. tauto. Qed.

Lemma four_way (a b c d : bool) :
  (if a then true else if b then true else if c then true else d) = true
  ↔ a = true ∨ b = true ∨ c = true ∨ d = true.
Proof. destruct a, b, c, d; intuition discriminate. Qed.

(** C3, amended.  The filter accepts a dataset name and a candidate exactly
    when (a) the name shares a word token of three letters or more with
    the candidate's label, exact synonyms or related synonyms, or (b) one
    of the name and the label contains the other, or (c) a word of one
    side lies inside a word of the other, or (d) a word of four letters or
    more of the name occurs in the candidate's definition.  Narrow
    synonyms are not read, and the definition only by (d). *)
Theorem plausible_iff name e :
  plausible name e = true
  ↔ shares_word name e ∨ name_within_label name e
    ∨ word_within_word name e ∨ word_in_definition name e.
Proof.
  unfold plausible. cbv zeta. rewrite four_way.
  apply or_iff_both; [|apply or_iff_both; [|apply or_iff_both]].
  - rewrite bool_decide_eq_true. unfold shares_word. split.
    + intros [w [Hw1 Hw2]%elem_of_intersection]%set_choose_L.
      apply elem_of_list_to_set in Hw1, Hw2.
      apply uo_words_extended_spec in Hw2 as (t & Ht & Hw2). eauto.
    + intros (w & t & Hw & Ht & Hwt) Hempty.
      apply (not_elem_of_empty (C:=gset str) w). rewrite <- Hempty.
      apply elem_of_intersection. split; apply elem_of_list_to_set; [done|].
      apply uo_words_extended_spec. eauto.
  - unfold name_within_label. by rewrite orb_true_iff.
  - rewrite existsb_elements. unfold word_within_word. split.
    + intros (uw & Huw%elem_of_list_to_set & H).
      apply existsb_elements in H as (ow & How%elem_of_list_to_set & H).
      apply uo_words_extended_spec in How as (t & Ht & How).
      apply andb_prop in H as [[H1%Nat.leb_le H2%Nat.leb_le]%andb_prop
                                 H3%orb_true_iff].
      exists uw, ow, t. eauto 10.
    + intros (uw & ow & t & Huw & Ht & How & H1 & H2 & H3).
      exists uw. split; [by apply elem_of_list_to_set|].
      apply existsb_elements. exists ow. split.
      * apply elem_of_list_to_set, uo_words_extended_spec. eauto.
      * apply Nat.leb_le in H1, H2. apply orb_true_iff in H3.
        by rewrite H1, H2, H3.
  - rewrite existsb_elements. unfold word_in_definition. split.
    + intros (uw & Huw%elem_of_list_to_set & [H1%Nat.leb_le H2]%andb_prop).
      eauto.
    + intros (uw & Huw & H1%Nat.leb_le & H2). exists uw.
      split; [by apply elem_of_list_to_set|]. by rewrite H1, H2.
Qed.

End PlausibilityFacts.

(** A candidate whose definition, and nothing else, mentions the
    three-letter dataset name. *)
Definition pressure_entry : entry :=
  Entry (u "u:P") (u "P") (Some (u "pressure")) (Some (u "one bar"))
        [] [] [] false [].

(** The filter rejects it, for every Unicode table. *)
Lemma bar_not_plausible {U : Unicode} : plausible (u "bar") pressure_entry = false.
Proof. rewrite plausible_ascii by reflexivity. vm_compute. reflexivity. Qed.

(** Counterexample to C3 as stated: the name shares the token ["bar"] with
    the definition, which (a) as claimed accepts, and the filter rejects. *)
Lemma plausible_not_as_claimed :
  ¬ (@plausible ascii_tables (u "bar") pressure_entry = true
     ↔ @plausible_as_claimed ascii_tables (u "bar") pressure_entry).
Proof.
  intros [_ H].
  assert (@plausible ascii_tables (u "bar") pressure_entry = true) as Hp.
  { apply H. left. exists (u "bar"), (u "one bar").
    split; [vm_compute; left|]. split.
    - vm_compute. right. left.
    - vm_compute. right. left. }
  rewrite bar_not_plausible in Hp. discriminate.
Qed.

(** ** What enters the symbol index *)

Definition has_nonspace (s : str) : bool := existsb (λ c, negb (isspace c)) s.

Lemma has_nonspace_nonempty s : has_nonspace s = true → nonempty s = true.
Proof. by destruct s. Qed.

Lemma has_nonspace_rev s : has_nonspace (rev s) = has_nonspace s.
Proof.
  unfold has_nonspace. apply eq_true_iff_eq. rewrite !existsb_exists.
  split; intros (c & Hc & H); exists c; split; try done;
    by apply in_rev in Hc || apply in_rev.
Qed.

Lemma has_nonspace_lstrip s : has_nonspace (lstrip s) = has_nonspace s.
Proof.
  unfold lstrip. induction s as [|c s IH]; simpl; [done|].
  destruct (isspace c) eqn:Hc; simpl; [done | by rewrite Hc].
Qed.

Lemma has_nonspace_strip s : has_nonspace (strip s) = has_nonspace s.
Proof.
  unfold strip, rstrip.
  by rewrite has_nonspace_rev, !has_nonspace_lstrip, has_nonspace_rev,
    has_nonspace_lstrip.
Qed.

(** A non-empty stripped string starts with a character that is not
    whitespace. *)
Lemma strip_nonempty s : nonempty (strip s) = true → has_nonspace (strip s) = true.
Proof.
  unfold strip, rstrip. intros Hne. rewrite has_nonspace_rev.
  destruct (lstrip (rev (lstrip s))) as [|c t] eqn:Ht; [done|].
  unfold lstrip in Ht at 1.
  assert (isspace c = false) as Hc.
  { revert Ht. generalize (rev (lstrip s)). intros l.
    induction l as [|d l IH]; simpl; [done|].
    destruct (isspace d) eqn:Hd; [done|]. by intros [= <- _]. }
  simpl. by rewrite Hc.
Qed.

Lemma has_nonspace_sub_ws_around X pend after_op s :
  isspace X = false → has_nonspace s = true →
  has_nonspace (sub_ws_around X pend after_op s) = true.
Proof.
  intros HX. revert pend after_op.
  induction s as [|c s IH]; intros pend after_op; simpl; [done|].
  destruct (c =? X) eqn:HcX.
  - simpl. by rewrite HX.
  - destruct (isspace c) eqn:Hc; simpl.
    + apply IH.
    + intros _. unfold has_nonspace. rewrite existsb_app. simpl.
      rewrite Hc. simpl. by rewrite orb_true_r.
Qed.

Lemma has_nonspace_collapse_ws in_ws s :
  has_nonspace s = true → has_nonspace (collapse_ws in_ws s) = true.
Proof.
  revert in_ws. induction s as [|c s IH]; intros in_ws; simpl; [done|].
  destruct (isspace c) eqn:Hc; simpl.
  - intros Hs. destruct in_ws; simpl; by apply IH.
  - by rewrite Hc.
Qed.

(** Normalizing a symbol never erases it. *)
Lemma normalize_symbol_for_match_nonempty s :
  nonempty (strip s) = true →
  nonempty (normalize_symbol_for_match (strip s)) = true.
Proof.
  intros Hne. pose proof (strip_nonempty s Hne) as Hns.
  unfold normalize_symbol_for_match.
  destruct (strip s) as [|c t] eqn:Hs; [done|].
  apply has_nonspace_nonempty, has_nonspace_collapse_ws.
  do 3 (apply has_nonspace_sub_ws_around; [done|]).
  by rewrite has_nonspace_strip.
Qed.

Section SymbolIndex.
Context {U : Unicode}.

(** The synonyms of an entry under each kind. *)
Definition synonyms_of (t : syn_type) (e : entry) : list str :=
  match t with
  | exact_synonym => exact_synonyms e
  | related_synonym => related_synonyms e
  | narrow_synonym => narrow_synonyms e
  end.

(** The conditions under which a synonym enters the symbol index, read on
    the stripped synonym. *)
Definition symbol_indexed (syn : str) : Prop :=
  let s := strip syn in
  s ≠ []
  ∧ POWER_SYNONYMS_RE s = false
  ∧ (32 ∉ s)
  ∧ (length s ≤ 15)%nat
  ∧ ((∃ c, c ∈ s ∧ is_special c = true)
     ∨ ((∃ c, c ∈ s ∧ is_AZ c = true) ∧ (length s ≤ 10)%nat)
     ∨ ((length s ≤ 5)%nat ∧ isalpha s = true ∧ islower s = true))
  ∧ ¬ (∃ c, s = [c] ∧ c ∈ SINGLE_CHAR_PREFIX_SYMBOLS).

(** The conditions the claim states: at most 15 characters, no space
    unless the string is a slash or caret compound, and a digit, an
    upper-case letter or a special character, or at most five lower-case
    letters; single ambiguous prefix letters excluded. *)
Definition symbol_indexed_as_claimed (syn : str) : Prop :=
  let s := strip syn in
  (length s ≤ 15)%nat
  ∧ ((32 ∉ s) ∨ ∃ c, c ∈ s ∧ (c = 47 ∨ c = 94))
  ∧ ((∃ c, c ∈ s ∧ (isdecimal c = true ∨ is_AZ c = true ∨ is_special c = true))
     ∨ ((length s ≤ 5)%nat ∧ isalpha s = true ∧ islower s = true))
  ∧ ¬ (∃ c, s = [c] ∧ c ∈ SINGLE_CHAR_PREFIX_SYMBOLS).

Lemma existsb_elem (P : char → bool) (s : str) :
  existsb P s = true ↔ ∃ c, c ∈ s ∧ P c = true.
Proof.
  rewrite existsb_exists. split; intros (c & Hc & H); exists c; split;
    try done; by apply list_elem_of_In.
Qed.

Lemma space_free (s : str) : existsb (N.eqb 32) s = false ↔ 32 ∉ s.
Proof.
  rewrite <- not_true_iff_false, existsb_elem. split.
  - intros Hn Hin. apply Hn. exists 32. by rewrite N.eqb_refl.
  - intros Hn (c & Hc & Heq%N.eqb_eq). by subst c.
Qed.

Lemma is_symbol_like_spec s :
  nonempty s = true → strip s = s →
  is_symbol_like s = true
  ↔ (32 ∉ s) ∧ (length s ≤ 15)%nat
    ∧ ((∃ c, c ∈ s ∧ is_special c = true)
       ∨ ((∃ c, c ∈ s ∧ is_AZ c = true) ∧ (length s ≤ 10)%nat)
       ∨ ((length s ≤ 5)%nat ∧ isalpha s = true ∧ islower s = true)).
Proof.
  intros Hne Hs. unfold is_symbol_like. rewrite Hne, Hs. cbn [negb].
  rewrite <- !existsb_elem.
  destruct (existsb (N.eqb 32) s) eqn:Hsp.
  { split; [done|]. intros [Hn _]. apply space_free in Hn. congruence. }
  apply space_free in Hsp.
  destruct (15 <? length s)%nat eqn:H15.
  { apply Nat.ltb_lt in H15. split; [done|]. intros (_ & ? & _). lia. }
  apply Nat.ltb_ge in H15.
  destruct (existsb is_special s); [by intuition|].
  destruct (existsb is_AZ s); cbn [andb].
  - destruct (length s <=? 10)%nat eqn:H10.
    + apply Nat.leb_le in H10. by intuition.
    + apply Nat.leb_gt in H10.
      destruct (length s <=? 5)%nat eqn:H5;
        [apply Nat.leb_le in H5; lia|]. apply Nat.leb_gt in H5.
      cbn [andb]. split; [done|].
      intros (_ & _ & [?|[[_ ?]|[? _]]]); try done; lia.
  - destruct (length s <=? 5)%nat eqn:H5; cbn [andb].
    + apply Nat.leb_le in H5.
      destruct (isalpha s), (islower s); cbn [andb]; intuition discriminate.
    + apply Nat.leb_gt in H5. split; [done|].
      intros (_ & _ & [?|[[? _]|[? _]]]); try done; lia.
Qed.

End SymbolIndex.

(** *** Stripping twice *)

Lemma drop_while_head P s c t : drop_while P s = c :: t → P c = false.
Proof.
  induction s as [|d s IH]; simpl; [done|].
  destruct (P d) eqn:Hd; [done|]. by intros [= <- _].
Qed.

Lemma drop_while_idem P s : drop_while P (drop_while P s) = drop_while P s.
Proof.
  destruct (drop_while P s) as [|c t] eqn:Hs; [done|].
  apply drop_while_head in Hs. simpl. by rewrite Hs.
Qed.

Lemma drop_while_snoc P a c :
  P c = false → drop_while P (a ++ [c]) = drop_while P a ++ [c].
Proof.
  intros Hc. induction a as [|d a IH]; simpl; [by rewrite Hc|].
  by destruct (P d).
Qed.

Lemma strip_idempotent s : strip (strip s) = strip s.
Proof.
  unfold strip, rstrip, lstrip.
  destruct (drop_while isspace s) as [|c l] eqn:Hl; [done|].
  apply drop_while_head in Hl.
  change (rev (c :: l)) with (rev l ++ [c]).
  rewrite (drop_while_snoc _ _ _ Hl), rev_app_distr.
  change (rev [c] ++ rev (drop_while isspace (rev l)))
    with (c :: rev (drop_while isspace (rev l))).
  cbn [drop_while]. rewrite Hl.
  change (rev (c :: rev (drop_while isspace (rev l))))
    with (rev (rev (drop_while isspace (rev l))) ++ [c]).
  rewrite rev_involutive, (drop_while_snoc _ _ _ Hl), drop_while_idem.
  by rewrite rev_app_distr.
Qed.

Section SymbolIndexClaim.
Context {U : Unicode}.

Lemma single_prefix_letter (s : str) :
  (length s =? 1)%nat
  && existsb (λ c, str_eqb s [c]) SINGLE_CHAR_PREFIX_SYMBOLS = true
  ↔ ∃ c, s = [c] ∧ c ∈ SINGLE_CHAR_PREFIX_SYMBOLS.
Proof.
  rewrite andb_true_iff, existsb_exists. split.
  - intros (_ & c & Hc%list_elem_of_In & Heq%bool_decide_eq_true). eauto.
  - intros (c & -> & Hc). split; [done|]. exists c.
    split; [by apply list_elem_of_In | by apply bool_decide_eq_true].
Qed.

(** [symbol_key] decides [symbol_indexed], and the key is the normalized
    stripped synonym. *)
Lemma symbol_key_spec syn k :
  symbol_key syn = Some k
  ↔ symbol_indexed syn ∧ k = normalize_symbol_for_match (strip syn).
Proof.
  unfold symbol_key, symbol_indexed. cbv zeta.
  destruct (nonempty (strip syn)) eqn:Hne; cbn [negb].
  2:{ split; [done|]. intros [[Hs _] _]. by destruct (strip syn). }
  assert (strip syn ≠ []) as Hne' by by destruct (strip syn).
  destruct (POWER_SYNONYMS_RE (strip syn)) eqn:Hpow.
  { split; [done|]. by intros [(_ & ? & _) _]. }
  pose proof (is_symbol_like_spec (strip syn) Hne (strip_idempotent syn)) as Hlike.
  destruct (is_symbol_like (strip syn)).
  2:{ split; [done|]. intros [(_ & _ & H1 & H2 & H3 & _) _].
      assert (false = true) by (apply Hlike; auto). done. }
  destruct (proj1 Hlike eq_refl) as (H1 & H2 & H3).
  pose proof (single_prefix_letter (strip syn)) as Hsingle.
  destruct ((length (strip syn) =? 1)%nat && _).
  { split; [done|]. intros [(_ & _ & _ & _ & _ & Hn) _].
    destruct Hn. by apply Hsingle. }
  rewrite (normalize_symbol_for_match_nonempty syn Hne). split.
  - intros [= <-]. split; [|done].
    do 5 (split; [done|]).
    intros Hc. by apply Hsingle in Hc.
  - by intros [_ ->].
Qed.

Lemma syn_hits_iff key k x syns p :
  p ∈ syn_hits key k x syns ↔ p = x ∧ ∃ syn, syn ∈ syns ∧ key syn = Some k.
Proof.
  unfold syn_hits. rewrite list_elem_of_In, in_flat_map. split.
  - intros (syn & Hsyn%list_elem_of_In & Hp). case_bool_decide; [|done].
    destruct Hp as [<-|[]]. eauto.
  - intros (-> & syn & Hsyn%list_elem_of_In & Hk). exists syn. split; [done|].
    rewrite bool_decide_eq_true_2 by done. by left.
Qed.

(** C4, amended.  A synonym enters the symbol index exactly when its
    stripped form is non-empty, is not a power-of-ten synonym, holds no
    space, is at most 15 characters long, and either holds one of the
    characters [/ ^ µ ° Ω ² ³], or holds an upper-case ASCII letter and is
    at most 10 characters long, or is at most 5 characters long,
    alphabetic and lower-case; a single ambiguous prefix letter is left
    out.  The symbol index holds, for every entry that passed the guards
    and every such synonym, the entry under the normalized synonym, and
    nothing else. *)
Theorem symbol_index_contents uo_entries e src k :
  (∀ syn, (∃ key, symbol_key syn = Some key) ↔ symbol_indexed syn)
  ∧ ((e, src) ∈ bucket (build_uo_lookup uo_entries).2 k
     ↔ e ∈ uo_entries ∧ skipped e = false
       ∧ ∃ t syn, src = src_as_symbol t ∧ syn ∈ synonyms_of t e
                  ∧ symbol_indexed syn
                  ∧ k = normalize_symbol_for_match (strip syn)).
Proof.
  split.
  { intros syn. split.
    - by intros [key [? _]%symbol_key_spec].
    - intros H. eexists. apply symbol_key_spec. by split. }
  destruct (build_uo_lookup_bucket uo_entries k) as [_ ->].
  rewrite list_elem_of_In, in_flat_map. split.
  - intros (e0 & He0%list_elem_of_In & Hp%list_elem_of_In).
    pose proof (symbol_pairs_elem _ _ _ Hp) as [Heq Hsk]. simpl in Heq. subst e0.
    split; [done|]. split; [done|].
    unfold symbol_pairs in Hp. rewrite Hsk in Hp.
    apply elem_of_app in Hp as [Hp|Hp]; [|apply elem_of_app in Hp as [Hp|Hp]];
      apply syn_hits_iff in Hp as ([= ->] & syn & Hsyn & Hk%symbol_key_spec);
      destruct Hk as [Hk ->].
    + by exists exact_synonym, syn.
    + by exists related_synonym, syn.
    + by exists narrow_synonym, syn.
  - intros (He & Hsk & t & syn & -> & Hsyn & Hind & ->).
    exists e. split; [by apply list_elem_of_In|]. apply list_elem_of_In.
    unfold symbol_pairs. rewrite Hsk. rewrite !elem_of_app.
    assert (symbol_key syn = Some (normalize_symbol_for_match (strip syn)))
      as Hk by by apply symbol_key_spec.
    destruct t; simpl in Hsyn.
    + left. apply syn_hits_iff. eauto.
    + right. left. apply syn_hits_iff. eauto.
    + right. right. apply syn_hits_iff. eauto.
Qed.

End SymbolIndexClaim.

(** An entry whose only synonym has twelve characters, one of them an
    upper-case letter. *)
Definition hectopascal : entry :=
  Entry (u "u:H") (u "H") (Some (u "hectopascal")) None [u "Hectopascals"]
        [] [] false [].

(** The synonym is not symbol-like, for every Unicode table. *)
Lemma hectopascals_not_indexed {U : Unicode} : symbol_key (u "Hectopascals") = None.
Proof. rewrite symbol_key_ascii by reflexivity. vm_compute. reflexivity. Qed.

(** Counterexample to C4 as stated: the synonym meets the stated
    conditions and the symbol index stays empty. *)
Lemma long_uppercase_synonym_not_indexed :
  @symbol_indexed_as_claimed ascii_tables (u "Hectopascals")
  ∧ (@build_uo_lookup ascii_tables [hectopascal]).2 = ∅.
Proof.
  split; [|vm_compute; reflexivity].
  unfold symbol_indexed_as_claimed. cbv zeta.
  assert (strip (u "Hectopascals") = u "Hectopascals") as -> by by vm_compute.
  split; [vm_compute; lia|]. split; [|split].
  - left. apply space_free. vm_compute. reflexivity.
  - left. exists 72. split; [vm_compute; left | right; left; reflexivity].
  - intros (c & Heq & _). vm_compute in Heq. discriminate.
Qed.

(** ** Order inside a bucket *)

(** [a <= b] on Python strings: lexicographic on code points. *)
Fixpoint str_leb (a b : str) : bool :=
  match a, b with
  | [], _ => true
  | _ :: _, [] => false
  | x :: a', y :: b' => (x <? y) || ((x =? y) && str_leb a' b')
  end.

(** The claim as stated: the first candidate of a bucket has the least
    URI among the candidates of the bucket. *)
Definition first_candidate_has_least_uri
    (m : gmap str (list (entry * source_type))) : Prop :=
  ∀ k p rest q,
    m !! k = Some (p :: rest) → q ∈ rest → str_leb (uri p.1) (uri q.1) = true.

(** Counterexample to C5 as stated: with [degree_fahrenheit] (URI ["u:B"])
    extracted before [farad] (URI ["u:A"]), the bucket of the symbol [F]
    starts with [degree_fahrenheit]; with the two swapped it starts with
    [farad]. *)
Lemma bucket_follows_input_order :
  bucket (@build_uo_lookup ascii_tables [degree_fahrenheit; farad]).2 (u "F")
  = [(degree_fahrenheit, src_as_symbol exact_synonym);
     (farad, src_as_symbol exact_synonym)]
  ∧ bucket (@build_uo_lookup ascii_tables [farad; degree_fahrenheit]).2 (u "F")
    = [(farad, src_as_symbol exact_synonym);
       (degree_fahrenheit, src_as_symbol exact_synonym)]
  ∧ str_leb (uri degree_fahrenheit) (uri farad) = false
  ∧ ¬ first_candidate_has_least_uri
        (@build_uo_lookup ascii_tables [degree_fahrenheit; farad]).2.
Proof.
  split; [vm_compute; reflexivity|]. split; [vm_compute; reflexivity|].
  split; [vm_compute; reflexivity|].
  intros H.
  specialize (H (u "F") (degree_fahrenheit, src_as_symbol exact_synonym)
                [(farad, src_as_symbol exact_synonym)]
                (farad, src_as_symbol exact_synonym)).
  assert (str_leb (uri degree_fahrenheit) (uri farad) = true) as Hle.
  { apply H; [vm_compute; reflexivity | left]. }
  vm_compute in Hle. discriminate.
Qed.

(** The same buckets for every Unicode table. *)
Lemma bucket_follows_input_order_any {U : Unicode} :
  bucket (build_uo_lookup [degree_fahrenheit; farad]).2 (u "F")
  = [(degree_fahrenheit, src_as_symbol exact_synonym);
     (farad, src_as_symbol exact_synonym)].
Proof.
  rewrite (build_uo_lookup_ascii (U:=U)) by reflexivity.
  vm_compute. reflexivity.
Qed.

(** In a concatenation of per-entry contributions, an earlier candidate
    comes from an entry that is not later in the input. *)
Lemma flat_map_order (f : entry → list (entry * source_type)) entries p rest q :
  (∀ e x, x ∈ f e → x.1 = e) →
  flat_map f entries = p :: rest → q ∈ rest →
  ∃ i j, (i ≤ j)%nat ∧ entries !! i = Some p.1 ∧ entries !! j = Some q.1.
Proof.
  intros Hf. induction entries as [|e entries IH]; simpl; [done|].
  destruct (f e) as [|x fe] eqn:Hfe; simpl.
  - intros Heq Hq. destruct (IH Heq Hq) as (i & j & Hij & Hi & Hj).
    exists (S i), (S j). split; [lia | done].
  - intros [= -> <-] [Hq|Hq]%elem_of_app.
    + exists 0%nat, 0%nat. split; [done|]. simpl.
      rewrite (Hf e p), (Hf e q); [done | | ]; rewrite Hfe; [by right | left].
    + apply list_elem_of_In, in_flat_map in Hq
        as (e' & [j Hj]%list_elem_of_In%list_elem_of_lookup & Hq%list_elem_of_In).
      exists 0%nat, (S j). split; [lia|]. simpl.
      rewrite (Hf e p) by (rewrite Hfe; left).
      by rewrite (Hf e' q).
Qed.

(** C5, amended.  Every bucket of the name index and of the symbol index
    is the concatenation, in the order of the list of entries given to
    [build_uo_lookup], of what each entry contributes; no sorting by URI
    takes place.  So in a bucket the first candidate comes from an entry
    that stands, in that list, no later than the entry of any other
    candidate. *)
Theorem buckets_in_extraction_order {U : Unicode} uo_entries k :
  (bucket (build_uo_lookup uo_entries).1 k = flat_map (name_pairs k) uo_entries
   ∧ bucket (build_uo_lookup uo_entries).2 k
     = flat_map (symbol_pairs k) uo_entries)
  ∧ (∀ p rest q,
       bucket (build_uo_lookup uo_entries).1 k = p :: rest
       ∨ bucket (build_uo_lookup uo_entries).2 k = p :: rest →
       q ∈ rest →
       ∃ i j, (i ≤ j)%nat ∧ uo_entries !! i = Some p.1
              ∧ uo_entries !! j = Some q.1).
Proof.
  pose proof (build_uo_lookup_bucket uo_entries k) as [Hn Hs].
  split; [done|]. intros p rest q [Hb|Hb] Hq.
  - rewrite Hn in Hb. eapply flat_map_order; [|done..].
    intros e x Hx. by apply name_pairs_elem in Hx as [? _].
  - rewrite Hs in Hb. eapply flat_map_order; [|done..].
    intros e x Hx. by apply symbol_pairs_elem in Hx as [? _].
Qed.

(** ** The gram/gramme guard *)

Lemma startswith_length p s : startswith p s = true → (length p ≤ length s)%nat.
Proof.
  revert s. induction p as [|a p IH]; intros [|b s]; simpl; try done; [lia|].
  intros [_ H]%andb_prop. apply IH in H. lia.
Qed.

(** A replacement by a string that is not longer never lengthens. *)
Lemma replace_from_length_le old new k s :
  (length new ≤ length old)%nat → old ≠ [] →
  (length (replace_from old new k s) ≤ length s - k)%nat.
Proof.
  intros Hlen Hold. revert k.
  induction s as [|c s IH]; intros k; simpl; [lia|].
  destruct k as [|k]; [|apply IH].
  destruct (startswith old (c :: s)) eqn:Hsw.
  - apply startswith_length in Hsw. simpl in Hsw.
    rewrite length_app. specialize (IH (Nat.pred (length old))).
    destruct old; [done|]. simpl in *. lia.
  - specialize (IH 0%nat). simpl. lia.
Qed.

(** A replacement by a longer string lengthens a text that holds the
    replaced string. *)
Lemma replace_from_length_ge old new k s :
  (length old ≤ length new)%nat → old ≠ [] →
  (length s - k ≤ length (replace_from old new k s))%nat.
Proof.
  intros Hlen Hold. revert k.
  induction s as [|c s IH]; intros k; simpl; [lia|].
  destruct k as [|k]; [|apply IH].
  destruct (startswith old (c :: s)) eqn:Hsw.
  - apply startswith_length in Hsw. simpl in Hsw.
    rewrite length_app. specialize (IH (Nat.pred (length old))).
    destruct old; [done|]. simpl in *. lia.
  - specialize (IH 0%nat). simpl. lia.
Qed.

Lemma replace_from_grows old new s :
  (length old < length new)%nat → old ≠ [] → contains old s = true →
  (length s < length (replace_from old new 0 s))%nat.
Proof.
  intros Hlen Hold. destruct old as [|a p]; [done|].
  induction s as [|c s IH]; [done|].
  cbn [contains replace_from].
  destruct (startswith (a :: p) (c :: s)) eqn:Hsw.
  - intros _. apply startswith_length in Hsw.
    rewrite length_app.
    pose proof (replace_from_length_ge (a :: p) new
                  (Nat.pred (length (a :: p))) s ltac:(lia) Hold).
    simpl in *. lia.
  - cbn [orb]. intros H%IH. simpl. lia.
Qed.

Lemma add_swapped_elem swaps v acc w :
  w ∈ add_swapped swaps v acc →
  w ∈ acc ∨ ∃ old new, (old, new) ∈ swaps ∧ w = str_replace old new v.
Proof.
  unfold add_swapped. revert acc.
  induction swaps as [|[old new] swaps IH]; intros acc; simpl; [by left|].
  intros [Hw|(o & n & Hin & ->)]%IH.
  - destruct (contains old v); [|by left].
    apply elem_of_union in Hw as [->%elem_of_singleton|Hw]; [|by left].
    right. exists old, new. split; [left | done].
  - right. exists o, n. split; [by right | done].
Qed.

Lemma second_level_elem swaps vs acc w :
  w ∈ fold_left (λ acc v, add_swapped swaps v acc) vs acc →
  w ∈ acc ∨ ∃ v old new, v ∈ vs ∧ (old, new) ∈ swaps ∧ w = str_replace old new v.
Proof.
  revert acc. induction vs as [|v vs IH]; intros acc; simpl; [by left|].
  intros [[Hw|(o & n & Hin & ->)]%add_swapped_elem
         |(v' & o & n & Hv' & Hin & ->)]%IH.
  - by left.
  - right. exists v, o, n. split; [left | done].
  - right. exists v', o, n. split; [by right | done].
Qed.

(** Every variant is the text after one or two substitutions of the
    table. *)
Lemma generate_spelling_variants_elem text w :
  w ∈ generate_spelling_variants text →
  ∃ old new, (old, new) ∈ swaps_for text
    ∧ (w = str_replace old new text
       ∨ ∃ old1 new1, (old1, new1) ∈ swaps_for text
           ∧ w = str_replace old new (str_replace old1 new1 text)).
Proof.
  unfold generate_spelling_variants. cbv zeta.
  intros [[Hw|Hw]%elem_of_union _]%elem_of_difference.
  - apply add_swapped_elem in Hw as [Hw|(o & n & Hin & ->)];
      [by apply not_elem_of_empty in Hw|]. eauto.
  - apply second_level_elem in Hw
      as [Hw|(v & o & n & Hv%elem_of_elements & Hin & ->)];
      [by apply not_elem_of_empty in Hw|].
    apply add_swapped_elem in Hv as [Hv|(o1 & n1 & Hin1 & ->)];
      [by apply not_elem_of_empty in Hv|].
    exists o, n. split; [done|]. right. eauto.
Qed.

(** With ["program"] in the text, no substitution of the table
    lengthens. *)
Lemma swaps_for_program text :
  contains (u "program") text = true →
  Forall (λ '(old, new), (length new ≤ length old)%nat ∧ old ≠ [])
         (swaps_for text).
Proof.
  intros Hp. unfold swaps_for. rewrite Hp, andb_false_r.
  destruct (contains (u "gramme") text); repeat constructor; done.
Qed.

Lemma str_replace_length_le old new s :
  (length new ≤ length old)%nat → old ≠ [] →
  (length (str_replace old new s) ≤ length s)%nat.
Proof.
  intros Hlen Hold. destruct old as [|a old]; [done|].
  pose proof (replace_from_length_le (a :: old) new 0 s Hlen Hold).
  unfold str_replace. lia.
Qed.

(** The half of C6 that holds: for a text that holds ["program"], the
    variants are never longer than the text, so neither the text with
    ["gram"] rewritten to ["gramme"] nor the text with ["program"]
    rewritten to ["programme"] is among them. *)
Lemma program_not_rewritten text :
  contains (u "program") text = true →
  (∀ w, w ∈ generate_spelling_variants text → (length w ≤ length text)%nat)
  ∧ str_replace (u "program") (u "programme") text
      ∉ generate_spelling_variants text.
Proof.
  intros Hp. pose proof (swaps_for_program text Hp) as Hswaps.
  rewrite Forall_forall in Hswaps.
  assert (∀ w, w ∈ generate_spelling_variants text →
               (length w ≤ length text)%nat) as Hlen.
  { intros w (o & n & Hin & [->|(o1 & n1 & Hin1 & ->)])%generate_spelling_variants_elem.
    - destruct (Hswaps _ Hin). by apply str_replace_length_le.
    - destruct (Hswaps _ Hin), (Hswaps _ Hin1).
      etrans; [by apply str_replace_length_le|].
      by apply str_replace_length_le. }
  split; [done|]. intros Hin%Hlen.
  pose proof (replace_from_grows (u "program") (u "programme") text) as Hg.
  unfold str_replace in Hin. simpl in Hin.
  assert (length text < length (replace_from (u "program") (u "programme") 0 text))%nat
    by (apply Hg; [vm_compute; lia | done | done]).
  change (u "program") with [112; 114; 111; 103; 114; 97; 109] in *.
  lia.
Qed.

(** C6.  The guard covers one direction only: for the text ["programme"],
    which holds ["gramme"], the swap [("gramme", "gram")] is appended and
    the variant set is exactly the text with ["programme"] rewritten to
    ["program"]. *)
Theorem programme_rewritten_to_program :
  contains (u "programme") (u "programme") = true
  ∧ swaps_for (u "programme") = base_swaps ++ [(u "gramme", u "gram")]
  ∧ generate_spelling_variants (u "programme")
    = {[ str_replace (u "programme") (u "program") (u "programme") ]}
  ∧ str_replace (u "programme") (u "program") (u "programme") = u "program".
Proof. repeat split; vm_compute; reflexivity. Qed.

(** ** Decomposition example *)

Definition kilogram_per_cubic_metre : str := u "kilogram per cubic metre".
Definition kilogram_per_cubic_meter : str := u "kilogram per cubic meter".

(** The record [{"unit": "kilogram per cubic meter"}]. *)
Definition cubic_meter_record : record :=
  Record_ (Str kilogram_per_cubic_meter) Missing Missing Missing LMissing
          Missing Missing Missing.

Definition density_unit : entry :=
  Entry (u "u:D") (u "D") (Some kilogram_per_cubic_metre) None [] [] [] false [].

(** The claim as stated at the example: the match is found, is [E], and
    comes from the per-decomposition strategy. *)
Definition found_by_per_decomposition (mi : match_info) (E : entry) : Prop :=
  matched mi = true ∧ match_uo_uri mi = Some (uri E)
  ∧ match_method mi = Some per_variant.

(** Counterexample to C7 as stated: the entity is found, by the
    spelling-variant strategy. *)
Lemma cubic_metre_not_by_per_decomposition :
  ∃ mi,
    @match_record ascii_tables elements_order
      {[ kilogram_per_cubic_metre := [(density_unit, src_label)] ]} ∅
      cubic_meter_record = Ok mi
    ∧ matched mi = true
    ∧ match_uo_uri mi = Some (uri density_unit)
    ∧ match_method mi = Some spelling_variant
    ∧ ¬ found_by_per_decomposition mi density_unit.
Proof.
  eexists. split; [vm_compute; reflexivity|].
  repeat (split; [reflexivity|]).
  intros (_ & _ & Hm). discriminate.
Qed.

Section Decomposition.
Context {U : Unicode} {SO : SetOrder}.

Lemma find_key_singleton keys k (pairs : list (entry * source_type)) :
  k ∈ keys → find_key keys {[ k := pairs ]} = Some (k, pairs).
Proof.
  induction keys as [|k' keys IH]; [by intros ?%elem_of_nil|]. simpl.
  destruct (decide (k' = k)) as [->|Hne].
  - by rewrite lookup_singleton_eq.
  - rewrite lookup_singleton_ne by done.
    intros [->|Hin]%elem_of_cons; [done | by apply IH].
Qed.

Lemma set_iter_singleton (x : str) : set_iter {[ x ]} = [x].
Proof.
  apply Permutation_singleton_r. by rewrite set_iter_perm, elements_singleton.
Qed.

Lemma strategy_symbol_empty unit_name sm :
  strategy_symbol unit_name (Some []) sm = no_match.
Proof. done. Qed.

(** C7, amended.  When the name index holds the single name
    ["kilogram per cubic metre"], mapped to an entity [E], the record
    whose only field is the unit ["kilogram per cubic meter"] is matched
    to [E] by the spelling-variant strategy: substituting ["metre"] for
    ["meter"] in the whole name already gives the indexed name.  The
    per-decomposition helper would find [E] as well, but its strategy
    comes later and does not run. *)
Theorem cubic_metre_found_by_spelling_variant (E : entry) (src : source_type)
    (sm : gmap str (list (entry * source_type))) :
  let nm : gmap str (list (entry * source_type)) :=
    {[ kilogram_per_cubic_metre := [(E, src)] ]} in
  select_best nm sm cubic_meter_record
  = Ok (Some (spelling_variant, E),
        [mk_audit am_spelling_variant None (Some kilogram_per_cubic_metre)
           (E, src)])
  ∧ (∃ mi, match_record nm sm cubic_meter_record = Ok mi
           ∧ matched mi = true
           ∧ match_uo_uri mi = Some (uri E)
           ∧ match_method mi = Some spelling_variant)
  ∧ try_per_decomposition_match kilogram_per_cubic_meter nm
    = Ok (Some (E, am_per_variant src, kilogram_per_cubic_metre, [(E, src)])).
Proof.
  intros nm.
  assert (select_best nm sm cubic_meter_record
          = Ok (Some (spelling_variant, E),
                [mk_audit am_spelling_variant None
                   (Some kilogram_per_cubic_metre) (E, src)])) as Hsel.
  { unfold select_best. cbv zeta.
    rewrite (normalize_name_ascii (U:=U)) by reflexivity.
    assert (@normalize_name ascii_tables (get (r_unit cubic_meter_record))
            = kilogram_per_cubic_meter) as -> by (vm_compute; reflexivity).
    assert (strategy_unit_name kilogram_per_cubic_meter nm = no_match) as ->.
    { unfold strategy_unit_name, nm.
      rewrite lookup_singleton_ne by (vm_compute; discriminate). done. }
    cbn [bind no_match].
    change (get (r_symbol cubic_meter_record)) with (Some (@nil N)).
    rewrite strategy_symbol_empty, unless_best_no_match. cbn [bind].
    change (strategy_plural _ nm) with no_match.
    rewrite unless_best_no_match. cbn [bind].
    change (strategy_alternates _ nm) with no_match.
    rewrite unless_best_no_match. cbn [bind].
    change (strategy_canonical _ _ nm) with no_match.
    rewrite unless_best_no_match. cbn [bind].
    assert (strategy_spelling kilogram_per_cubic_meter nm
            = Ok (Some (spelling_variant, E),
                  [mk_audit am_spelling_variant None
                     (Some kilogram_per_cubic_metre) (E, src)])) as ->.
    { unfold strategy_spelling, try_spelling_variant_match, nm.
      rewrite (find_key_singleton _ kilogram_per_cubic_metre); [done|].
      rewrite set_iter_perm. apply elem_of_elements.
      apply (bool_decide_unpack _). vm_compute. exact I. }
    done. }
  split; [done|]. split.
  - unfold match_record. rewrite Hsel. cbn [bind]. eauto.
  - unfold try_per_decomposition_match.
    assert (per_match [] kilogram_per_cubic_meter
            = Some (u "kilogram", u "cubic meter")) as ->
      by (vm_compute; reflexivity).
    assert (strip (u "kilogram") = u "kilogram") as -> by (vm_compute; reflexivity).
    assert (strip (u "cubic meter") = u "cubic meter") as ->
      by (vm_compute; reflexivity).
    assert (generate_spelling_variants (u "cubic meter") = {[ u "cubic metre" ]})
      as -> by (apply (bool_decide_unpack _); vm_compute; exact I).
    rewrite set_iter_singleton. unfold nm.
    rewrite (find_key_singleton _ kilogram_per_cubic_metre); [done|].
    apply list_elem_of_In, filter_In. split; [|vm_compute; reflexivity].
    apply in_flat_map. exists (u "kilogram"). split; [left; reflexivity|].
    right. left. vm_compute. reflexivity.
Qed.

End Decomposition.

(** ** The sample run *)

(** Collision rejection: [farad] and [fahrenheit], both with symbol [F],
    resolve to their own entries, by the unit name; the record without
    fields is unmatched. *)
Example sample_run_matches :
  (λ mi, (match_uo_uri mi, match_method mi)) <$> results_of sample_run
  = [(Some (u "u:A"), Some (unit_name_to src_label));
     (Some (u "u:B"), Some (unit_name_to (src_synonym exact_synonym)));
     (None, None)]
  ∧ matched_count_of sample_run = 2%nat.
Proof. split; vm_compute; reflexivity. Qed.

(** The symbol alone separates them too: with unit names the index does
    not know, [F] resolves by plausibility. *)
Example symbol_collision_rejected :
  let nm := (@build_uo_lookup ascii_tables sample_entries).1 in
  let sm := (@build_uo_lookup ascii_tables sample_entries).2 in
  (λ r, match @select_best ascii_tables elements_order nm sm r with
        | Ok (Some (m, e), _) => Some (m, uri e)
        | _ => None
        end)
    <$> [only_unit_and_symbol (u "farads") (u "F");
         only_unit_and_symbol (u "fahrenheit scale") (u "F");
         only_unit_and_symbol (u "foot") (u "F")]
  = [Some (symbol_to_synonym, u "u:A");
     Some (symbol_to_synonym, u "u:B");
     None].
Proof. vm_compute. reflexivity. Qed.

(** Spelling equivalence: an index that knows only ["metre"] resolves the
    unit ["meter"] by the spelling-variant strategy. *)
Example metre_found_for_meter :
  let metre := Entry (u "u:M") (u "M") (Some (u "metre")) None [] [] [] false [] in
  match @match_dataset ascii_tables elements_order
          [Record_ (Str (u "meter")) Missing Missing Missing LMissing
                   Missing Missing Missing] [metre] with
  | Ok ([mi], _, _) =>
      match_uo_uri mi = Some (u "u:M")
      ∧ match_method mi = Some spelling_variant
  | _ => False
  end.
Proof. vm_compute. split; reflexivity. Qed.

(** ** The extracted entries *)

Section ParsingFacts.
Context {SO : SetOrder}.

(** The dictionary of [parse_uo_owl]: distinct keys, each the URI of its
    value. *)
Definition keyed_by_uri (entries : list (str * entry)) : Prop :=
  NoDup entries.*1 ∧ Forall (λ kv, kv.1 = uri kv.2) entries.

Lemma add_entry_keys entries e :
  (add_entry entries e).*1
  = if bool_decide (uri e ∈ entries.*1) then entries.*1
    else entries.*1 ++ [uri e].
Proof.
  induction entries as [|[k x] entries IH]; [done|].
  cbn [add_entry]. unfold str_eqb. rewrite fmap_cons. cbn [fst].
  destruct (decide (k = uri e)) as [->|Hk].
  - rewrite !bool_decide_eq_true_2; [done | left | done].
  - rewrite (bool_decide_eq_false_2 (k = uri e)) by done.
    rewrite fmap_cons, IH. cbn [fst].
    destruct (decide (uri e ∈ entries.*1)) as [Hin|Hin].
    + rewrite !bool_decide_eq_true_2; [done | by right | done].
    + rewrite !bool_decide_eq_false_2; [done | | done].
      intros [?|?]%elem_of_cons; congruence.
Qed.

Lemma add_entry_keyed entries e :
  keyed_by_uri entries → keyed_by_uri (add_entry entries e).
Proof.
  intros [Hnd Hk]. split.
  - rewrite add_entry_keys. case_bool_decide as Hin; [done|].
    apply NoDup_app. split; [done|]. split; [|apply NoDup_singleton].
    intros x Hx ->%list_elem_of_singleton. done.
  - clear Hnd. induction Hk as [|[k x] entries Hkx Hk IH]; simpl.
    + by repeat constructor.
    + unfold str_eqb. destruct (bool_decide (k = uri e)); by constructor.
Qed.

Lemma fold_add_element_keyed elements entries :
  keyed_by_uri entries → keyed_by_uri (fold_left add_element elements entries).
Proof.
  revert entries. induction elements as [|x elements IH]; intros entries H;
    simpl; [done|].
  apply IH. destruct x as [e|]; [by apply add_entry_keyed | done].
Qed.

(** [parse_uo_owl] returns one entry per URI. *)
Lemma parse_uo_owl_NoDup classes descriptions :
  NoDup (uri <$> parse_uo_owl classes descriptions).
Proof.
  unfold parse_uo_owl.
  destruct (fold_add_element_keyed descriptions
              (fold_left add_element classes [])) as [Hnd Hk].
  { apply fold_add_element_keyed. split; [apply NoDup_nil_2 | constructor]. }
  set (entries := fold_left add_element descriptions _) in *.
  assert (uri <$> entries.*2 = entries.*1) as ->; [|done].
  clear Hnd. induction Hk as [|[k x] l Hkx Hk IH]; [done|].
  rewrite !fmap_cons, IH. cbn [fst snd] in *. by rewrite Hkx.
Qed.

(** The entries come out in the order in which their URIs are first
    read ([owl:Class] elements before [rdf:Description] elements), not
    sorted: a later element with a smaller URI stays behind. *)
Example parse_uo_owl_keeps_document_order :
  parse_uo_owl [Some degree_fahrenheit; None; Some farad] []
  = [degree_fahrenheit; farad]
  ∧ str_leb (uri degree_fahrenheit) (uri farad) = false.
Proof. split; vm_compute; reflexivity. Qed.

End ParsingFacts.

(** ** Boundary cases *)

(** A unit that is present with the value [null] is outside the totality
    result: when the symbol has a hit, the plausibility check raises. *)
Example null_unit_raises :
  @match_dataset ascii_tables elements_order
    [Record_ Null (Str (u "F")) Missing Missing LMissing Missing Missing Missing]
    sample_entries
  = Raise AttributeError.
Proof. vm_compute. reflexivity. Qed.

(** Without a symbol hit the same record is simply unmatched. *)
Example null_unit_without_symbol :
  results_of (@match_dataset ascii_tables elements_order
                [Record_ Null Null Null Null LNull Null Null Null]
                sample_entries)
  = [MatchInfo None None None None None false None None None None []].
Proof. vm_compute. reflexivity. Qed.

(** An ASCII digit does not make a synonym symbol-like; a superscript
    digit, a slash or a caret does. *)
Example digits_and_symbol_likeness :
  @is_symbol_like ascii_tables <$> [u "m2"; [109; 178]; u "m/s"; u "m^2"; u "kg"]
  = [false; true; true; true; true].
Proof. vm_compute. reflexivity. Qed.

(** * The rest of the script *)

(** ** Reading an ontology element

    An element of [xml.etree.ElementTree], as far as [extract_uo_entry]
    reads it: the [rdf:about] attribute, and for every child its tag, its
    text and its [rdf:resource] attribute. *)

Record xml_child := XmlChild {
  tag : str;
  text : option str;
  resource : option str
}.

Record xml_element := XmlElement {
  about : option str;
  children : list xml_child
}.

Definition TAG_LABEL : str := u "{http://www.w3.org/2000/01/rdf-schema#}label".
Definition TAG_SUBCLASS_OF : str :=
  u "{http://www.w3.org/2000/01/rdf-schema#}subClassOf".
Definition TAG_DEPRECATED : str := u "{http://www.w3.org/2002/07/owl#}deprecated".
Definition TAG_EXACT_SYN : str :=
  u "{http://www.geneontology.org/formats/oboInOwl#}hasExactSynonym".
Definition TAG_RELATED_SYN : str :=
  u "{http://www.geneontology.org/formats/oboInOwl#}hasRelatedSynonym".
Definition TAG_NARROW_SYN : str :=
  u "{http://www.geneontology.org/formats/oboInOwl#}hasNarrowSynonym".
Definition TAG_DEFINITION : str := u "{http://purl.obolibrary.org/obo/}IAO_0000115".

Definition OBO : str := u "http://purl.obolibrary.org/obo/".

(** [s.split(sep)[-1]]: what follows the last separator; [acc] holds the
    current segment, reversed. *)
Fixpoint last_segment (sep : char) (acc : str) (s : str) : str :=
  match s with
  | [] => rev acc
  | c :: s' =>
      if c =? sep then last_segment sep [] s'
      else last_segment sep (c :: acc) s'
  end.

Section Extraction.
Context {U : Unicode}.

(** [UO_URI_PATTERN.match(s)], the pattern
    [^http://purl\.obolibrary\.org/obo/UO_\d+$]. *)
Definition UO_URI_PATTERN (s : str) : bool :=
  if startswith (OBO ++ u "UO_") s then
    let r := drop (length (OBO ++ u "UO_")) s in
    match r with
    | d :: _ => isdecimal d && at_end (drop_while isdecimal r)
    | [] => false
    end
  else false.

(** One turn of [for child in element]. *)
Definition read_child (e : entry) (child : xml_child) : entry :=
  let stripped := strip (or_empty (text child)) in
  if str_eqb (tag child) TAG_LABEL then
    Entry (uri e) (uo_id e) (Some stripped) (definition e) (exact_synonyms e)
          (related_synonyms e) (narrow_synonyms e) (deprecated e)
          (parent_classes e)
  else if str_eqb (tag child) TAG_DEFINITION then
    Entry (uri e) (uo_id e) (label e) (Some stripped) (exact_synonyms e)
          (related_synonyms e) (narrow_synonyms e) (deprecated e)
          (parent_classes e)
  else if str_eqb (tag child) TAG_EXACT_SYN then
    if nonempty stripped then
      Entry (uri e) (uo_id e) (label e) (definition e)
            (exact_synonyms e ++ [stripped])
            (related_synonyms e) (narrow_synonyms e) (deprecated e)
            (parent_classes e)
    else e
  else if str_eqb (tag child) TAG_RELATED_SYN then
    if nonempty stripped then
      Entry (uri e) (uo_id e) (label e) (definition e) (exact_synonyms e)
            (related_synonyms e ++ [stripped]) (narrow_synonyms e)
            (deprecated e) (parent_classes e)
    else e
  else if str_eqb (tag child) TAG_NARROW_SYN then
    if nonempty stripped then
      Entry (uri e) (uo_id e) (label e) (definition e) (exact_synonyms e)
            (related_synonyms e) (narrow_synonyms e ++ [stripped])
            (deprecated e) (parent_classes e)
    else e
  else if str_eqb (tag child) TAG_DEPRECATED then
    if str_eqb (lower stripped) (u "true") then
      Entry (uri e) (uo_id e) (label e) (definition e) (exact_synonyms e)
            (related_synonyms e) (narrow_synonyms e) true (parent_classes e)
    else e
  else if str_eqb (tag child) TAG_SUBCLASS_OF then
    if UO_URI_PATTERN (or_empty (resource child)) then
      Entry (uri e) (uo_id e) (label e) (definition e) (exact_synonyms e)
            (related_synonyms e) (narrow_synonyms e) (deprecated e)
            (parent_classes e ++ [or_empty (resource child)])
    else e
  else e.

(** [extract_uo_entry(element)] *)
Definition extract_uo_entry (element : xml_element) : option entry :=
  let uri := or_empty (about element) in
  if negb (UO_URI_PATTERN uri) then None
  else
    Some (fold_left read_child (children element)
            (Entry uri (last_segment 47 [] uri) None None [] [] [] false [])).

(** [parse_uo_owl] on the two lists of elements that [root.findall]
    returns. *)
Definition parse_elements {SO : SetOrder} (classes descriptions : list xml_element) :
    list entry :=
  parse_uo_owl (extract_uo_entry <$> classes) (extract_uo_entry <$> descriptions).

End Extraction.

Lemma startswith_app p s : startswith p s = true → s = p ++ drop (length p) s.
Proof.
  revert s. induction p as [|a p IH]; intros [|b s]; simpl; try done.
  intros [->%N.eqb_eq H]%andb_prop. f_equal. by apply IH.
Qed.

Lemma take_drop_while P s : take_while P s ++ drop_while P s = s.
Proof.
  induction s as [|c s IH]; simpl; [done|].
  destruct (P c); simpl; [by rewrite IH | done].
Qed.

Lemma take_while_Forall P s : Forall (λ c, P c = true) (take_while P s).
Proof.
  induction s as [|c s IH]; simpl; [constructor|].
  destruct (P c) eqn:Hc; by constructor.
Qed.

Lemma last_segment_no_sep sep acc t :
  sep ∉ t → last_segment sep acc t = rev acc ++ t.
Proof.
  revert acc. induction t as [|c t IH]; intros acc Hsep; simpl.
  - by rewrite app_nil_r.
  - apply not_elem_of_cons in Hsep as [Hc Ht].
    rewrite (proj2 (N.eqb_neq c sep)) by done.
    rewrite IH by done. simpl. by rewrite <- app_assoc.
Qed.

Lemma last_segment_app sep acc pre t :
  last_segment sep acc (pre ++ sep :: t) = last_segment sep [] t.
Proof.
  revert acc. induction pre as [|c pre IH]; intros acc; simpl.
  - by rewrite N.eqb_refl.
  - destruct (c =? sep); apply IH.
Qed.

Lemma at_end_spec s : at_end s = true → s = [] ∨ s = [10].
Proof.
  destruct s as [|c [|d s]]; [by left | | ].
  - destruct c as [|p]; [done|]. intros H. right.
    do 4 (try (destruct p as [p|p|]; try done)).
  - destruct c as [|p]; [done|]. intros H. exfalso.
    do 4 (try (destruct p as [p|p|]; try done)).
Qed.

Lemma at_end_no_slash s : at_end s = true → 47 ∉ s.
Proof.
  intros [->| ->]%at_end_spec; [by intros ?%elem_of_nil|].
  intros [?|?%elem_of_nil]%elem_of_cons; done.
Qed.

Section ExtractionFacts.
Context {U : Unicode}.

(** A string that matches the pattern is the prefix, [UO_], decimal
    digits, and at most a final newline; it holds no slash after the
    prefix. *)
Lemma UO_URI_PATTERN_shape s :
  UO_URI_PATTERN s = true →
  ∃ r, s = OBO ++ u "UO_" ++ r ∧ r ≠ [] ∧ 47 ∉ r.
Proof.
  unfold UO_URI_PATTERN.
  destruct (startswith (OBO ++ u "UO_") s) eqn:Hsw; [|done].
  apply startswith_app in Hsw.
  set (r := drop (length (OBO ++ u "UO_")) s) in *.
  destruct r as [|d r'] eqn:Hr; [done|].
  intros [Hd Hend]%andb_prop. exists (d :: r').
  split; [by rewrite app_assoc|]. split; [done|].
  rewrite <- (take_drop_while isdecimal (d :: r')).
  intros [Hin|Hin]%elem_of_app.
  - pose proof (take_while_Forall isdecimal (d :: r')) as Hall.
    rewrite Forall_forall in Hall. apply Hall in Hin.
    by rewrite isdecimal_ascii in Hin.
  - by apply at_end_no_slash in Hend.
Qed.

Definition stripped_nonempty (s : str) : Prop := s ≠ [] ∧ strip s = s.

(** What [read_child] keeps of an entry under construction. *)
Definition well_read (e : entry) : Prop :=
  Forall stripped_nonempty
         (exact_synonyms e ++ related_synonyms e ++ narrow_synonyms e)
  ∧ Forall (λ p, UO_URI_PATTERN p = true) (parent_classes e)
  ∧ (∀ l, label e = Some l → strip l = l)
  ∧ (∀ d, definition e = Some d → strip d = d).

Lemma strip_stripped_nonempty s :
  nonempty (strip s) = true → stripped_nonempty (strip s).
Proof.
  intros H. split; [by destruct (strip s) | apply strip_idempotent].
Qed.

Lemma read_child_keeps e child :
  well_read e →
  well_read (read_child e child)
  ∧ uri (read_child e child) = uri e ∧ uo_id (read_child e child) = uo_id e.
Proof.
  intros (Hsyn & Hpar & Hlab & Hdef).
  rewrite !Forall_app in Hsyn. destruct Hsyn as (He & Hr & Hn).
  unfold read_child. cbv zeta.
  repeat match goal with
  | |- context [if ?b then _ else _] => destruct b eqn:?
  end; (split; [|done]); unfold well_read; simpl;
    rewrite ?Forall_app; repeat split; try done;
    try (intros ? [= <-]; apply strip_idempotent);
    try (apply Forall_app; split; [done|]; constructor; [|constructor]);
    try (by apply strip_stripped_nonempty);
    (constructor; [|constructor]); try done;
    by apply strip_stripped_nonempty.
Qed.

Lemma fold_read_child_keeps cs e :
  well_read e →
  well_read (fold_left read_child cs e)
  ∧ uri (fold_left read_child cs e) = uri e
  ∧ uo_id (fold_left read_child cs e) = uo_id e.
Proof.
  revert e. induction cs as [|c cs IH]; intros e He; simpl; [done|].
  destruct (read_child_keeps e c He) as (H1 & H2 & H3).
  destruct (IH _ H1) as (? & -> & ->). done.
Qed.

(** What an extracted entry carries. *)
Lemma extract_uo_entry_Some element e :
  extract_uo_entry element = Some e →
  uri e = or_empty (about element)
  ∧ UO_URI_PATTERN (uri e) = true
  ∧ uri e = OBO ++ uo_id e
  ∧ startswith (u "UO_") (uo_id e) = true
  ∧ well_read e.
Proof.
  unfold extract_uo_entry. cbv zeta.
  destruct (UO_URI_PATTERN (or_empty (about element))) eqn:Hpat; simpl; [|done].
  intros [= <-].
  set (e0 := Entry _ _ None None [] [] [] false []).
  assert (well_read e0) as H0.
  { unfold well_read. simpl. repeat split; try done; constructor. }
  destruct (fold_read_child_keeps (children element) e0 H0) as (Hw & -> & ->).
  simpl. split; [done|]. split; [done|].
  destruct (UO_URI_PATTERN_shape _ Hpat) as (r & Hs & Hr & Hslash).
  assert (last_segment 47 [] (or_empty (about element)) = u "UO_" ++ r) as ->.
  { rewrite Hs.
    assert (OBO = u "http://purl.obolibrary.org/obo" ++ [47]) as ->
      by (vm_compute; reflexivity).
    rewrite <- app_assoc.
    change ([47] ++ u "UO_" ++ r) with (47 :: (u "UO_" ++ r)).
    rewrite last_segment_app, last_segment_no_sep; [done|].
    intros [Hin|Hin]%elem_of_app; [|done].
    vm_compute in Hin. repeat (apply elem_of_cons in Hin as [Hin|Hin]; [done|]).
    by apply elem_of_nil in Hin. }
  split; [done|]. split; [|done]. vm_compute. reflexivity.
Qed.

(** X1.  An element is extracted exactly when its [rdf:about] matches the
    UO pattern.  The entry then carries that URI, its identifier is the
    URI without the prefix [http://purl.obolibrary.org/obo/] and starts
    with [UO_]; the synonyms it stores are stripped and never empty, its
    label and definition are stripped, and every parent class it stores
    matches the UO pattern. *)
Theorem extract_uo_entry_shape element :
  (extract_uo_entry element = None
   ↔ UO_URI_PATTERN (or_empty (about element)) = false)
  ∧ ∀ e, extract_uo_entry element = Some e →
      uri e = or_empty (about element)
      ∧ UO_URI_PATTERN (uri e) = true
      ∧ uri e = OBO ++ uo_id e
      ∧ startswith (u "UO_") (uo_id e) = true
      ∧ well_read e.
Proof.
  split; [|apply extract_uo_entry_Some].
  unfold extract_uo_entry. cbv zeta.
  by destruct (UO_URI_PATTERN (or_empty (about element))).
Qed.

End ExtractionFacts.

(** ** Merging repeated declarations *)

Section MergeFacts.
Context {SO : SetOrder}.

(** [entries.get(k)] on the association list. *)
Fixpoint assoc_lookup (k : str) (entries : list (str * entry)) : option entry :=
  match entries with
  | [] => None
  | (k', x) :: entries' => if str_eqb k' k then Some x else assoc_lookup k entries'
  end.

(** The value a key holds after one more declaration [e] of it. *)
Definition merged_with (o : option entry) (e : entry) : entry :=
  match o with
  | Some x => merge_entry x e
  | None => e
  end.

(** The declarations of one URI, merged in document order. *)
Definition merge_all (o : option entry) (g : list entry) : option entry :=
  fold_left (λ o e, Some (merged_with o e)) g o.

Definition declarations (k : str) (es : list entry) : list entry :=
  List.filter (λ e, str_eqb (uri e) k) es.

(** The first truthy value of a field among the declarations, and the
    value of the first declaration when none is truthy. *)
Definition first_truthy (f : entry → option str) (g : list entry) : option str :=
  match List.filter (λ e, truthy (f e)) g with
  | e :: _ => f e
  | [] => match g with e :: _ => f e | [] => None end
  end.

Lemma add_entry_lookup entries e k :
  assoc_lookup k (add_entry entries e)
  = if str_eqb (uri e) k then Some (merged_with (assoc_lookup k entries) e)
    else assoc_lookup k entries.
Proof.
  unfold str_eqb.
  induction entries as [|[k' x] entries IH]; cbn [add_entry assoc_lookup].
  - unfold str_eqb. by destruct (bool_decide (uri e = k)).
  - unfold str_eqb in *.
    destruct (decide (k' = uri e)) as [->|Hk'].
    + rewrite (bool_decide_eq_true_2 (uri e = uri e)) by done.
      cbn [assoc_lookup]. unfold str_eqb.
      by destruct (bool_decide (uri e = k)).
    + rewrite (bool_decide_eq_false_2 (k' = uri e)) by done.
      cbn [assoc_lookup]. unfold str_eqb. rewrite IH.
      destruct (decide (k' = k)) as [->|Hk].
      * rewrite (bool_decide_eq_true_2 (k = k)) by done.
        rewrite (bool_decide_eq_false_2 (uri e = k)) by congruence. done.
      * by rewrite (bool_decide_eq_false_2 (k' = k)) by done.
Qed.

Lemma fold_add_entry_lookup es entries k :
  assoc_lookup k (fold_left add_entry es entries)
  = merge_all (assoc_lookup k entries) (declarations k es).
Proof.
  revert entries. induction es as [|e es IH]; intros entries; [done|].
  cbn [fold_left]. rewrite IH, add_entry_lookup.
  unfold declarations. cbn [List.filter].
  by destruct (str_eqb (uri e) k).
Qed.

Lemma fold_add_element_valid (xs : list (option entry)) entries :
  fold_left add_element xs entries = fold_left add_entry (omap id xs) entries.
Proof.
  revert entries. induction xs as [|[e|] xs IH]; intros entries; simpl; [done|..];
    apply IH.
Qed.

Lemma union_list_elem (a b : list str) s : s ∈ union_list a b ↔ s ∈ a ∨ s ∈ b.
Proof.
  unfold union_list.
  by rewrite set_iter_perm, elem_of_elements, elem_of_list_to_set, elem_of_app.
Qed.

Lemma union_list_NoDup (a b : list str) : NoDup (union_list a b).
Proof. unfold union_list. rewrite set_iter_perm. apply NoDup_elements. Qed.

(** The result of merging a non-empty list of declarations. *)
Definition merged_from (x : entry) (g : list entry) : Prop :=
  (∃ e, head g = Some e ∧ uri x = uri e ∧ uo_id x = uo_id e)
  ∧ deprecated x = existsb deprecated g
  ∧ label x = first_truthy label g
  ∧ definition x = first_truthy definition g
  ∧ (∀ s, s ∈ exact_synonyms x ↔ ∃ e, e ∈ g ∧ s ∈ exact_synonyms e)
  ∧ (∀ s, s ∈ related_synonyms x ↔ ∃ e, e ∈ g ∧ s ∈ related_synonyms e)
  ∧ (∀ s, s ∈ narrow_synonyms x ↔ ∃ e, e ∈ g ∧ s ∈ narrow_synonyms e)
  ∧ (∀ s, s ∈ parent_classes x ↔ ∃ e, e ∈ g ∧ s ∈ parent_classes e).

Lemma first_truthy_snoc f g e x :
  g ≠ [] → x = first_truthy f g →
  (if truthy (f e) && negb (truthy x) then f e else x)
  = first_truthy f (g ++ [e]).
Proof.
  intros Hg ->. unfold first_truthy. rewrite List.filter_app. cbn [List.filter].
  destruct (List.filter (λ e0, truthy (f e0)) g) as [|e1 l] eqn:Hf.
  - destruct g as [|e0 g]; [done|]. cbn [app].
    destruct (truthy (f e)) eqn:He; cbn [app].
    + assert (truthy (f e0) = false) as ->; [|done].
      cbn [List.filter] in Hf. by destruct (truthy (f e0)).
    + by rewrite andb_false_l.
  - cbn [app].
    assert (truthy (f e1) = true) as ->.
    { assert (In e1 (List.filter (λ e0, truthy (f e0)) g)) as Hin
        by (rewrite Hf; left; done).
      by apply filter_In in Hin as [_ ?]. }
    by rewrite andb_false_r.
Qed.

Lemma exists_snoc {A} (P : A → Prop) (g : list A) (e : A) :
  (∃ x, x ∈ g ++ [e] ∧ P x) ↔ (∃ x, x ∈ g ∧ P x) ∨ P e.
Proof.
  split.
  - intros (x & [Hx| ->%list_elem_of_singleton]%elem_of_app & HP); eauto.
  - intros [(x & Hx & HP)|HP].
    + exists x. split; [|done]. apply elem_of_app. by left.
    + exists e. split; [|done]. apply elem_of_app. right. left.
Qed.

Lemma merged_from_snoc x g e :
  g ≠ [] → merged_from x g → merged_from (merge_entry x e) (g ++ [e]).
Proof.
  intros Hg ((e0 & Hhd & Hu & Hi) & Hd & Hl & Hdef & Hex & Hre & Hna & Hpa).
  unfold merged_from, merge_entry. cbn [uri uo_id deprecated label definition
    exact_synonyms related_synonyms narrow_synonyms parent_classes].
  split; [|split; [|split; [|split; [|split; [|split; [|split]]]]]].
  - exists e0. split; [|done]. destruct g; [done|]. done.
  - rewrite existsb_app, <- Hd. simpl. rewrite orb_false_r.
    by destruct (deprecated e), (deprecated x).
  - by apply first_truthy_snoc.
  - by apply first_truthy_snoc.
  - intros s. rewrite union_list_elem, exists_snoc, Hex. done.
  - intros s. rewrite union_list_elem, exists_snoc, Hre. done.
  - intros s. rewrite union_list_elem, exists_snoc, Hna. done.
  - intros s. rewrite union_list_elem, exists_snoc, Hpa. done.
Qed.

Lemma merged_from_singleton e : merged_from e [e].
Proof.
  unfold merged_from, first_truthy. cbn [List.filter existsb head].
  split; [by exists e|]. split; [by rewrite orb_false_r|].
  split; [by destruct (truthy (label e))|].
  split; [by destruct (truthy (definition e))|].
  repeat split; try (intros (e' & ->%list_elem_of_singleton & ?); done);
    intros ?; exists e; (split; [left | done]).
Qed.

Lemma merge_all_spec g x :
  merge_all None g = Some x → g ≠ [] ∧ merged_from x g.
Proof.
  assert (∀ g0 x0 g1 x1, g0 ≠ [] → merged_from x0 g0 →
            merge_all (Some x0) g1 = Some x1 → merged_from x1 (g0 ++ g1)) as Hgen.
  { intros g0 x0 g1. revert g0 x0.
    induction g1 as [|e g1 IH]; intros g0 x0 x1 Hg0 H0; cbn.
    - intros [= <-]. by rewrite app_nil_r.
    - intros H. change (g0 ++ e :: g1) with (g0 ++ [e] ++ g1).
      rewrite app_assoc. eapply IH; [|by apply merged_from_snoc|done].
      by destruct g0. }
  destruct g as [|e g]; [done|]. cbn. intros H. split; [done|].
  change (e :: g) with ([e] ++ g).
  eapply Hgen; [done | apply merged_from_singleton | done].
Qed.

Lemma keyed_lookup entries k x :
  keyed_by_uri entries → (k, x) ∈ entries → assoc_lookup k entries = Some x.
Proof.
  intros [Hnd _]. induction entries as [|[k' x'] entries IH]; cbn;
    [by intros ?%elem_of_nil|].
  apply NoDup_cons in Hnd as [Hk' Hnd].
  intros [[= -> ->]|Hin]%elem_of_cons.
  - unfold str_eqb. by rewrite bool_decide_eq_true_2.
  - unfold str_eqb. rewrite bool_decide_eq_false_2; [by apply IH|].
    intros ->. apply Hk'. by apply (list_elem_of_fmap_2 fst _ (k, x)).
Qed.

(** X2.  Every entry that [parse_uo_owl] returns is the merge, in document
    order, of the declarations of its URI (the [owl:Class] elements before
    the [rdf:Description] elements): it keeps the URI and identifier of the
    first declaration, is deprecated exactly when some declaration is,
    takes as label and as definition the first non-empty one (that of the
    first declaration when all are empty), and its synonym lists and
    parent classes hold exactly the members of the declarations' lists. *)
Theorem parse_uo_owl_merges classes descriptions x :
  x ∈ parse_uo_owl classes descriptions →
  let g := declarations (uri x) (omap id (classes ++ descriptions)) in
  g ≠ [] ∧ merged_from x g.
Proof.
  unfold parse_uo_owl. rewrite <- fold_left_app, fold_add_element_valid.
  set (es := omap id (classes ++ descriptions)).
  intros Hx. cbv zeta.
  assert (keyed_by_uri (fold_left add_entry es [])) as Hkeyed.
  { subst es. rewrite <- fold_add_element_valid. apply fold_add_element_keyed.
    split; [apply NoDup_nil_2 | constructor]. }
  apply list_elem_of_fmap in Hx as ([k x'] & -> & Hin). cbn [snd] in *.
  assert (k = uri x') as ->.
  { destruct Hkeyed as [_ Hk]. rewrite Forall_forall in Hk. by apply Hk in Hin. }
  pose proof (keyed_lookup _ _ _ Hkeyed Hin) as Hl.
  rewrite fold_add_entry_lookup in Hl. cbn [assoc_lookup] in Hl.
  by apply merge_all_spec.
Qed.

(** The URIs of the result are those of the valid elements. *)
Lemma parse_uo_owl_uris classes descriptions k :
  k ∈ uri <$> parse_uo_owl classes descriptions
  ↔ ∃ e, Some e ∈ classes ++ descriptions ∧ uri e = k.
Proof.
  unfold parse_uo_owl. rewrite <- fold_left_app, fold_add_element_valid.
  set (es := omap id (classes ++ descriptions)).
  assert (keyed_by_uri (fold_left add_entry es [])) as [_ Hk].
  { subst es. rewrite <- fold_add_element_valid. apply fold_add_element_keyed.
    split; [apply NoDup_nil_2 | constructor]. }
  assert (uri <$> (fold_left add_entry es []).*2 = (fold_left add_entry es []).*1)
    as ->.
  { induction Hk as [|[k0 x] l Hkx Hk IH]; [done|].
    rewrite !fmap_cons, IH. cbn [fst snd] in *. by rewrite Hkx. }
  assert (∀ (l : list entry) entries, k ∈ (fold_left add_entry l entries).*1
            ↔ k ∈ entries.*1 ∨ ∃ e, e ∈ l ∧ uri e = k) as Hfold.
  { clear. intros l. induction l as [|e es' IH]; intros entries; cbn [fold_left].
    - split; [by left|]. intros [?|(e & ?%elem_of_nil & _)]; done.
    - rewrite IH, add_entry_keys. split.
      + intros [Hin|(e' & He' & Hu)].
        * case_bool_decide; [by left|].
          apply elem_of_app in Hin as [?| ->%list_elem_of_singleton]; [by left|].
          right. exists e. split; [left | done].
        * right. exists e'. split; [by right | done].
      + intros [Hin|(e' & [->|He']%elem_of_cons & Hu)].
        * left. case_bool_decide; [done|]. apply elem_of_app. by left.
        * left. subst k. case_bool_decide; [done|].
          apply elem_of_app. right. left.
        * right. eauto. }
  rewrite Hfold. split.
  - intros [?%elem_of_nil|(e & He & Hu)]; [done|]. exists e. split; [|done].
    subst es. apply list_elem_of_omap in He as ([e'|] & Hin & [= ->]). done.
  - intros (e & He & Hu). right. exists e. split; [|done].
    apply list_elem_of_omap. by exists (Some e).
Qed.

(** X3.  [parse_uo_owl] returns exactly one entry for every URI that a
    valid element declares, and nothing else. *)
Theorem parse_uo_owl_one_entry_per_uri classes descriptions :
  NoDup (uri <$> parse_uo_owl classes descriptions)
  ∧ ∀ k, k ∈ uri <$> parse_uo_owl classes descriptions
         ↔ ∃ e, Some e ∈ classes ++ descriptions ∧ uri e = k.
Proof.
  split; [apply parse_uo_owl_NoDup | apply parse_uo_owl_uris].
Qed.

End MergeFacts.

(** One URI declared twice, with another in between. *)
Lemma parse_uo_owl_merges_witness :
  let x := merge_entry (SO:=elements_order) farad
             (Entry (u "u:A") (u "A2") (Some (u "Farad")) (Some (u "SI unit"))
                    [u "F"; u "farads"] [] [] true []) in
  let g := declarations (uri x)
             (omap id ([Some farad; Some degree_fahrenheit]
                       ++ [Some (Entry (u "u:A") (u "A2") (Some (u "Farad"))
                                   (Some (u "SI unit")) [u "F"; u "farads"]
                                   [] [] true [])])) in
  g ≠ [] ∧ merged_from x g.
Proof.
  apply (@parse_uo_owl_merges elements_order
           [Some farad; Some degree_fahrenheit]
           [Some (Entry (u "u:A") (u "A2") (Some (u "Farad")) (Some (u "SI unit"))
                        [u "F"; u "farads"] [] [] true [])]).
  vm_compute. left.
Defined.

(** ** Shape of the indices *)

Section IndexShape.
Context {U : Unicode}.

Lemma bucket_lookup (m : gmap str (list (entry * source_type))) k l :
  m !! k = Some l → bucket m k = l.
Proof. unfold bucket. by intros ->. Qed.

Lemma lookup_bucket (m : gmap str (list (entry * source_type))) k :
  bucket m k ≠ [] → m !! k = Some (bucket m k).
Proof. unfold bucket. by destruct (m !! k). Qed.

Lemma name_key_nonempty syn k : name_key syn = Some k → k ≠ [].
Proof.
  unfold name_key.
  destruct (negb _); [done|]. destruct (POWER_SYNONYMS_RE _); [done|].
  destruct (normalize_name _) as [|c n]; [done|]. by intros [= <-].
Qed.

Lemma symbol_key_nonempty syn k : symbol_key syn = Some k → k ≠ [].
Proof.
  unfold symbol_key.
  destruct (negb _); [done|]. destruct (POWER_SYNONYMS_RE _); [done|].
  destruct (is_symbol_like _); [|done]. destruct (_ && _); [done|].
  destruct (normalize_symbol_for_match _) as [|c n]; [done|]. by intros [= <-].
Qed.

Lemma name_pairs_shape k e p :
  p ∈ name_pairs k e →
  k ≠ [] ∧ p.1 = e ∧ (p.2 = src_label ∨ ∃ t, p.2 = src_synonym t).
Proof.
  unfold name_pairs. destruct (skipped e); [by intros ?%elem_of_nil|].
  rewrite !elem_of_app. intros [H|[H|[H|H]]].
  - destruct (nonempty (normalize_name (label e))) eqn:Hne; [|by apply elem_of_nil in H].
    cbn [andb] in H. case_bool_decide as Hk; [|by apply elem_of_nil in H].
    apply list_elem_of_singleton in H as ->. subst k.
    split; [by destruct (normalize_name (label e))|]. split; [done | by left].
  - apply syn_hits_iff in H as (-> & syn & _ & Hk%name_key_nonempty). eauto.
  - apply syn_hits_iff in H as (-> & syn & _ & Hk%name_key_nonempty). eauto.
  - apply syn_hits_iff in H as (-> & syn & _ & Hk%name_key_nonempty). eauto.
Qed.

Lemma symbol_pairs_shape k e p :
  p ∈ symbol_pairs k e → k ≠ [] ∧ p.1 = e ∧ ∃ t, p.2 = src_as_symbol t.
Proof.
  unfold symbol_pairs. destruct (skipped e); [by intros ?%elem_of_nil|].
  rewrite !elem_of_app. intros [H|[H|H]];
    apply syn_hits_iff in H as (-> & syn & _ & Hk%symbol_key_nonempty); eauto.
Qed.

(** X4.  In both indices no key is the empty string and no bucket is
    empty; every candidate is an entry of the input; the name index
    carries only the tags [label] and the three synonym kinds, the symbol
    index only the three [_as_symbol] tags. *)
Theorem build_uo_lookup_well_formed uo_entries k l :
  ((build_uo_lookup uo_entries).1 !! k = Some l →
   k ≠ [] ∧ l ≠ []
   ∧ Forall (λ p, p.1 ∈ uo_entries
                  ∧ (p.2 = src_label ∨ ∃ t, p.2 = src_synonym t)) l)
  ∧ ((build_uo_lookup uo_entries).2 !! k = Some l →
     k ≠ [] ∧ l ≠ []
     ∧ Forall (λ p, p.1 ∈ uo_entries ∧ ∃ t, p.2 = src_as_symbol t) l).
Proof.
  destruct (build_uo_lookup_nonempty uo_entries) as [Hn1 Hn2].
  destruct (build_uo_lookup_bucket uo_entries k) as [Hb1 Hb2].
  split; intros Hl.
  - pose proof (Hn1 _ _ Hl) as Hne. apply bucket_lookup in Hl.
    rewrite Hb1 in Hl. subst l.
    assert (∀ p, p ∈ flat_map (name_pairs k) uo_entries →
              k ≠ [] ∧ p.1 ∈ uo_entries
              ∧ (p.2 = src_label ∨ ∃ t, p.2 = src_synonym t)) as Hall.
    { intros p (e & He%list_elem_of_In & Hp%list_elem_of_In)%list_elem_of_In%in_flat_map.
      apply name_pairs_shape in Hp as (? & -> & ?). done. }
    split; [|split; [done|]].
    + destruct (flat_map (name_pairs k) uo_entries) as [|p l] eqn:E; [done|].
      apply (Hall p). left.
    + apply Forall_forall. intros p Hp. by apply Hall in Hp as (_ & ? & ?).
  - pose proof (Hn2 _ _ Hl) as Hne. apply bucket_lookup in Hl.
    rewrite Hb2 in Hl. subst l.
    assert (∀ p, p ∈ flat_map (symbol_pairs k) uo_entries →
              k ≠ [] ∧ p.1 ∈ uo_entries ∧ ∃ t, p.2 = src_as_symbol t) as Hall.
    { intros p (e & He%list_elem_of_In & Hp%list_elem_of_In)%list_elem_of_In%in_flat_map.
      apply symbol_pairs_shape in Hp as (? & -> & ?). done. }
    split; [|split; [done|]].
    + destruct (flat_map (symbol_pairs k) uo_entries) as [|p l] eqn:E; [done|].
      apply (Hall p). left.
    + apply Forall_forall. intros p Hp. by apply Hall in Hp as (_ & ? & ?).
Qed.

(** *** Finding an entry by its own label *)

(** The entries indexed under [k] by their label. *)
Definition labelled_as (k : str) (e : entry) : bool :=
  negb (skipped e) && str_eqb (normalize_name (label e)) k.

Lemma filter_flat_map {A B} (f : B → bool) (g : A → list B) (l : list A) :
  List.filter f (flat_map g l) = flat_map (λ x, List.filter f (g x)) l.
Proof.
  induction l as [|x l IH]; simpl; [done|]. by rewrite List.filter_app, IH.
Qed.

Lemma filter_label_syn_hits key k e t syns :
  List.filter is_label (syn_hits key k (e, src_synonym t) syns) = [].
Proof.
  unfold syn_hits. induction syns as [|syn syns IH]; simpl; [done|].
  rewrite List.filter_app, IH, app_nil_r. by case_bool_decide.
Qed.

Lemma filter_label_name_pairs k e :
  k ≠ [] →
  List.filter is_label (name_pairs k e)
  = if labelled_as k e then [(e, src_label)] else [].
Proof.
  intros Hk. unfold name_pairs, labelled_as.
  destruct (skipped e); [done|]. cbn [negb andb].
  rewrite !List.filter_app, !filter_label_syn_hits, !app_nil_r.
  unfold str_eqb. case_bool_decide as Heq.
  - rewrite Heq. destruct k; [done|]. done.
  - by rewrite andb_false_r.
Qed.

Lemma label_pairs_of_bucket uo_entries k :
  k ≠ [] →
  List.filter is_label (bucket (build_uo_lookup uo_entries).1 k)
  = (λ e, (e, src_label)) <$> List.filter (labelled_as k) uo_entries.
Proof.
  intros Hk. destruct (build_uo_lookup_bucket uo_entries k) as [-> _].
  rewrite filter_flat_map.
  induction uo_entries as [|e es IH]; simpl; [done|].
  rewrite IH, filter_label_name_pairs by done.
  by destruct (labelled_as k e).
Qed.

End IndexShape.

(** X5.  An entry that passes the exclusion guards and has a non-empty
    normalized label is found by its own label: a record whose unit is
    that label is matched by the method [unit_name_to_label], to the first
    entry of the input that passes the guards and has the same normalized
    label, and [all_matches] lists the whole bucket of that name. *)
Theorem found_by_own_label {U : Unicode} {SO : SetOrder} uo_entries e l r :
  e ∈ uo_entries → skipped e = false → label e = Some l →
  normalize_name (Some l) ≠ [] → r_unit r = Str l →
  let nm := (build_uo_lookup uo_entries).1 in
  let sm := (build_uo_lookup uo_entries).2 in
  let k := normalize_name (Some l) in
  ∃ e' rest,
    List.filter (labelled_as k) uo_entries = e' :: rest
    ∧ select_best nm sm r
      = Ok (Some (unit_name_to src_label, e'),
            mk_audit am_unit_name_to None None <$> bucket nm k).
Proof.
  intros He Hsk Hl Hk Hr nm sm k.
  assert (labelled_as k e = true) as Hlab.
  { unfold labelled_as, k. rewrite Hsk, Hl. cbn [negb andb].
    by apply bool_decide_eq_true. }
  assert (In e (List.filter (labelled_as k) uo_entries)) as Hin.
  { apply filter_In. split; [by apply list_elem_of_In | done]. }
  destruct (List.filter (labelled_as k) uo_entries) as [|e' rest] eqn:Hf; [done|].
  exists e', rest. split; [done|].
  pose proof (label_pairs_of_bucket uo_entries k Hk) as Hlp. fold nm in Hlp.
  rewrite Hf in Hlp. cbn [fmap list_fmap] in Hlp.
  assert (bucket nm k ≠ []) as Hne.
  { intros Hnil. rewrite Hnil in Hlp. done. }
  apply select_best_unit_name. rewrite Hr. cbn [get].
  change (normalize_name (Some l)) with k in Hk |- *.
  unfold strategy_unit_name. rewrite (lookup_bucket _ _ Hne), Hlp.
  clearbody k nm. destruct k; [done|]. done.
Qed.

Lemma found_by_own_label_witness :
  ∃ e' rest,
    List.filter (@labelled_as ascii_tables
                   (@normalize_name ascii_tables (Some (u "farad"))))
                sample_entries
    = e' :: rest
    ∧ @select_best ascii_tables elements_order
        (@build_uo_lookup ascii_tables sample_entries).1
        (@build_uo_lookup ascii_tables sample_entries).2 farad_record
      = Ok (Some (unit_name_to src_label, e'),
            mk_audit am_unit_name_to None None
              <$> bucket (@build_uo_lookup ascii_tables sample_entries).1
                    (@normalize_name ascii_tables (Some (u "farad")))).
Proof.
  apply (@found_by_own_label ascii_tables elements_order sample_entries farad
           (u "farad") farad_record).
  - left.
  - reflexivity.
  - reflexivity.
  - vm_compute. discriminate.
  - reflexivity.
Defined.

(** ** The order of the strategies *)

Section Priority.
Context {U : Unicode} {SO : SetOrder}.

Abbreviation outcome := (option (method * entry) * list audit)%type (only parsing).

(** The nine strategies of the loop body, in the order in which the code
    tries them. *)
Definition strategies
    (name_map symbol_map : gmap str (list (entry * source_type))) (r : record) :
    list (result outcome) :=
  let unit_name := get (r_unit r) in
  let alternates := get_list (r_alternate_unit r) in
  let norm_unit := normalize_name unit_name in
  [ strategy_unit_name norm_unit name_map;
    strategy_symbol unit_name (get (r_symbol r)) symbol_map;
    strategy_plural (get (r_plural r)) name_map;
    strategy_alternates alternates name_map;
    strategy_canonical (get (r_canonical_unit r)) norm_unit name_map;
    strategy_spelling norm_unit name_map;
    strategy_per norm_unit name_map;
    strategy_shape norm_unit name_map;
    strategy_alternate_spelling alternates name_map ].

(** [if not best: ...] repeated down a list of strategies. *)
Fixpoint cascade (l : list (result outcome)) (st : outcome) : result outcome :=
  match l with
  | [] => Ok st
  | s :: l' => st' ←! unless_best st s; cascade l' st'
  end.

Lemma bind_ret {A} (r : result A) : bind r Ok = r.
Proof. by destruct r. Qed.

Lemma bind_ext {A B} (r : result A) (k k' : A → result B) :
  (∀ a, k a = k' a) → bind r k = bind r k'.
Proof. intros H. destruct r; [apply H | done]. Qed.

Lemma select_best_cascade nm sm r :
  select_best nm sm r = cascade (strategies nm sm r) (None, []).
Proof.
  unfold select_best, strategies. cbv zeta. cbn [cascade].
  destruct (strategy_unit_name _ nm) as [[b f]|]; [|done].
  cbn [unless_best fst snd bind app].
  do 7 (apply bind_ext; intros ?).
  by destruct (unless_best _ _).
Qed.

Lemma cascade_best l b f : cascade l (Some b, f) = Ok (Some b, f).
Proof. induction l as [|s l IH]; [done|]. done. Qed.

(** A strategy that leaves [best] unset appends nothing. *)
Definition appends_with_best (s : result outcome) : Prop :=
  ∀ f, s = Ok (None, f) → f = [].

Lemma strategies_append_with_best nm sm r :
  Forall appends_with_best (strategies nm sm r).
Proof.
  unfold strategies. cbv zeta.
  repeat apply Forall_cons_2; [..|apply Forall_nil_2]; intros f Hs.
  - by apply (strategy_unit_name_post nm sm (get (r_unit r))) in Hs.
  - by apply (strategy_symbol_post nm sm (get (r_unit r))) in Hs.
  - by apply (strategy_plural_post nm sm (get (r_unit r))) in Hs.
  - by apply (strategy_alternates_post nm sm (get (r_unit r))) in Hs.
  - by apply (strategy_canonical_post nm sm (get (r_unit r))) in Hs.
  - by apply (strategy_spelling_post nm sm (get (r_unit r))) in Hs.
  - by apply (strategy_per_post nm sm (get (r_unit r))) in Hs.
  - by apply (strategy_shape_post nm sm (get (r_unit r))) in Hs.
  - by apply (strategy_alternate_spelling_post nm sm (get (r_unit r))) in Hs.
Qed.

Lemma cascade_first l :
  Forall appends_with_best l →
  (Forall (λ s, s = no_match) l ∧ cascade l (None, []) = no_match)
  ∨ ∃ (i : nat) s, l !! i = Some s ∧ s ≠ no_match
      ∧ (∀ (j : nat) s', (j < i)%nat → l !! j = Some s' → s' = no_match)
      ∧ cascade l (None, []) = s.
Proof.
  induction l as [|s l IH]; intros Hl.
  { left. by split. }
  apply Forall_cons in Hl as [Hs Hl].
  destruct s as [[[b|] f]|e].
  - right. exists 0%nat, (Ok (Some b, f)). split; [done|]. split; [done|].
    split; [intros; lia|]. cbn [cascade unless_best fst snd bind app].
    apply cascade_best.
  - rewrite (Hs f eq_refl). change (Ok (None, [])) with no_match.
    destruct (IH Hl) as [[Hall Hc]|(i & s & Hi & Hne & Hbefore & Hc)].
    + left. split; [by constructor | done].
    + right. exists (S i), s. split; [done|]. split; [done|].
      split; [|done]. intros [|j] s' Hj; cbn.
      * by intros [= <-].
      * apply Hbefore. lia.
  - right. exists 0%nat, (Raise e). split; [done|]. split; [done|].
    split; [intros; lia | done].
Qed.

(** X6.  [select_best] gives the outcome of the first of the nine
    strategies, in the order of the code, that does not come back empty:
    its chosen entity and its candidates alone, or the exception it
    raises.  Every strategy before it found nothing, and none after it
    adds to [all_matches].  When all nine find nothing the record stays
    unmatched, with no candidates. *)
Theorem select_best_first_success nm sm r :
  (Forall (λ s, s = no_match) (strategies nm sm r)
   ∧ select_best nm sm r = no_match)
  ∨ ∃ (i : nat) s,
      strategies nm sm r !! i = Some s ∧ s ≠ no_match
      ∧ (∀ (j : nat) s', (j < i)%nat → strategies nm sm r !! j = Some s' →
                         s' = no_match)
      ∧ select_best nm sm r = s.
Proof.
  rewrite select_best_cascade. apply cascade_first.
  apply strategies_append_with_best.
Qed.

End Priority.

(** ** The counters of [match_dataset] *)

Section Bookkeeping.
Context {U : Unicode} {SO : SetOrder}.

(** The results whose [match_method] is the string [k]. *)
Definition with_method (k : str) (results : list match_info) : list match_info :=
  List.filter (λ mi, bool_decide (method_str <$> match_method mi = Some k)) results.

(** The sum of the values of a counter. *)
Definition total (c : gmap str nat) : nat :=
  map_fold (λ _ v s, (v + s)%nat) O c.

Lemma total_insert c k v :
  c !! k = None → total (<[k := v]> c) = (v + total c)%nat.
Proof.
  intros Hk. unfold total.
  rewrite map_fold_insert_L; [done| |done]. intros; lia.
Qed.

Lemma total_increment c k :
  total (<[k := S (default O (c !! k))]> c) = S (total c).
Proof.
  destruct (c !! k) as [v|] eqn:Hk; cbn [default].
  - rewrite <- (insert_delete_id c k v Hk) at 2.
    rewrite <- (insert_delete_eq c).
    rewrite !total_insert by apply lookup_delete_eq. done.
  - by rewrite total_insert.
Qed.

Lemma match_record_method nm sm r mi :
  match_record nm sm r = Ok mi →
  matched mi = bool_decide (is_Some (match_method mi)).
Proof.
  unfold match_record. intros ([best found] & _ & [= <-])%bind_Ok.
  by destruct best as [[m e]|].
Qed.

Definition counted (results : list match_info) (n : nat) (c : gmap str nat) :
    Prop :=
  n = length (List.filter matched results)
  ∧ (∀ k, default O (c !! k) = length (with_method k results))
  ∧ (∀ k, c !! k ≠ Some O)
  ∧ total c = n.

Lemma with_method_app k l1 l2 :
  with_method k (l1 ++ l2) = with_method k l1 ++ with_method k l2.
Proof. apply List.filter_app. Qed.

Lemma match_step_counted nm sm results n c r acc :
  counted results n c →
  match_step nm sm (results, n, c) r = Ok acc →
  ∃ mi, match_record nm sm r = Ok mi
        ∧ acc.1.1 = results ++ [mi]
        ∧ counted acc.1.1 acc.1.2 acc.2.
Proof.
  intros (Hn & Hc & Hz & Ht). unfold match_step.
  intros (mi & Hmi & [= <-])%bind_Ok. exists mi. split; [done|].
  pose proof (match_record_method _ _ _ _ Hmi) as Hm.
  destruct (match_method mi) as [m|] eqn:Hmm; cbn [fst snd].
  - split; [done|]. unfold counted.
    rewrite List.filter_app, length_app. cbn [List.filter]. rewrite Hm.
    rewrite bool_decide_eq_true_2 by eauto. cbn [length].
    split; [lia|]. split; [|split].
    + intros k. rewrite with_method_app, length_app.
      unfold with_method at 2. cbn [List.filter]. rewrite Hmm. cbn [fmap option_fmap option_map].
      destruct (decide (method_str m = k)) as [<-|Hne].
      * rewrite lookup_insert_eq, bool_decide_eq_true_2 by done.
        cbn [default length id]. rewrite Hc. unfold id. lia.
      * rewrite lookup_insert_ne by done.
        rewrite bool_decide_eq_false_2 by congruence.
        cbn [length]. rewrite Hc. lia.
    + intros k. destruct (decide (method_str m = k)) as [<-|Hne].
      * by rewrite lookup_insert_eq.
      * by rewrite lookup_insert_ne.
    + rewrite total_increment. lia.
  - split; [done|]. unfold counted.
    rewrite List.filter_app, length_app. cbn [List.filter]. rewrite Hm.
    rewrite bool_decide_eq_false_2 by (by intros [? ?]). cbn [length].
    split; [lia|]. split; [|split; [done|lia]].
    intros k. rewrite with_method_app, length_app.
    unfold with_method at 2. cbn [List.filter]. rewrite Hmm.
    cbn [fmap option_fmap option_map].
    rewrite bool_decide_eq_false_2 by done. cbn [length]. rewrite Hc. lia.
Qed.

Lemma match_loop_counted nm sm dataset results0 n0 c0 results n c :
  counted results0 n0 c0 →
  match_loop nm sm (results0, n0, c0) dataset = Ok (results, n, c) →
  (∃ new, results = results0 ++ new
          ∧ Forall2 (λ r mi, match_record nm sm r = Ok mi) dataset new)
  ∧ counted results n c.
Proof.
  revert results0 n0 c0.
  induction dataset as [|r dataset IH]; intros results0 n0 c0 Hcnt; simpl.
  - intros [= <- <- <-]. split; [|done]. exists []. by rewrite app_nil_r.
  - intros ([[res1 n1] c1] & Hstep & Hloop)%bind_Ok.
    destruct (match_step_counted _ _ _ _ _ _ _ Hcnt Hstep)
      as (mi & Hmi & Hres & Hcnt1). cbn [fst snd] in Hres, Hcnt1. subst res1.
    destruct (IH _ _ _ Hcnt1 Hloop) as [(new & -> & Hall) Hcnt2].
    split; [|done]. exists (mi :: new). rewrite <- app_assoc. split; [done|].
    by constructor.
Qed.

End Bookkeeping.

(** X7.  What [match_dataset] returns is positionally the [match_info] of
    each record of the dataset, in the order of the dataset;
    [matched_count] is the number of results with [matched] set; for every
    method string the entry of [method_counts] (0 when the key is absent)
    is the number of results carrying that [match_method]; no key is
    stored with the count 0; and the counts add up to [matched_count]. *)
Theorem match_dataset_counts {U : Unicode} {SO : SetOrder}
    dataset uo_entries results matched_count method_counts :
  match_dataset dataset uo_entries = Ok (results, matched_count, method_counts) →
  Forall2 (λ r mi, match_record (build_uo_lookup uo_entries).1
                                (build_uo_lookup uo_entries).2 r = Ok mi)
          dataset results
  ∧ matched_count = length (List.filter matched results)
  ∧ (∀ k, default O (method_counts !! k) = length (with_method k results))
  ∧ (∀ k, method_counts !! k ≠ Some O)
  ∧ total method_counts = matched_count.
Proof.
  unfold match_dataset. destruct (build_uo_lookup uo_entries) as [nm sm].
  intros Hloop. apply match_loop_counted in Hloop as [(new & -> & Hall) Hcnt].
  - done.
  - unfold counted. cbn. split; [done|]. split; [|split; [done|]].
    + intros k. by rewrite lookup_empty.
    + unfold total. by rewrite map_fold_empty.
Qed.

Lemma match_dataset_counts_witness :
  Forall2 (λ r mi, @match_record ascii_tables elements_order
                     (@build_uo_lookup ascii_tables sample_entries).1
                     (@build_uo_lookup ascii_tables sample_entries).2 r = Ok mi)
          sample_dataset (results_of sample_run)
  ∧ matched_count_of sample_run
    = length (List.filter matched (results_of sample_run))
  ∧ (∀ k, default O (method_counts_of sample_run !! k)
          = length (with_method k (results_of sample_run)))
  ∧ (∀ k, method_counts_of sample_run !! k ≠ Some O)
  ∧ total (method_counts_of sample_run) = matched_count_of sample_run.
Proof.
  apply (@match_dataset_counts ascii_tables elements_order sample_dataset
           sample_entries (results_of sample_run) (matched_count_of sample_run)
           (method_counts_of sample_run)).
  vm_compute. reflexivity.
Defined.

(** ** Which names have spelling variants *)

Lemma contains_nil_r old : old ≠ [] → contains old [] = false.
Proof. by destruct old. Qed.

Lemma replace_from_shrinks old new s :
  (length new < length old)%nat → contains old s = true →
  (length (replace_from old new 0 s) < length s)%nat.
Proof.
  intros Hlen. destruct old as [|a p]; [simpl in Hlen; lia|].
  induction s as [|c s IH]; [done|].
  cbn [contains replace_from].
  destruct (startswith (a :: p) (c :: s)) eqn:Hsw.
  - intros _. apply startswith_length in Hsw.
    rewrite length_app.
    pose proof (replace_from_length_le (a :: p) new
                  (Nat.pred (length (a :: p))) s ltac:(lia) ltac:(done)).
    simpl in *. lia.
  - cbn [orb]. intros H%IH. simpl. lia.
Qed.

Lemma replace_from_same_length old new s :
  length old = length new → old ≠ new → old ≠ [] →
  contains old s = true → replace_from old new 0 s ≠ s.
Proof.
  intros Hlen Hne Hold.
  induction s as [|c s IH]; [by rewrite contains_nil_r|].
  cbn [contains replace_from].
  destruct (startswith old (c :: s)) eqn:Hsw.
  - intros _ Heq. apply startswith_app in Hsw.
    assert (new ++ replace_from old new (Nat.pred (length old)) s
            = old ++ drop (length old) (c :: s)) as Happ by congruence.
    apply app_inj_1 in Happ as [? _]; [congruence | done].
  - cbn [orb]. intros H%IH [= Heq]. done.
Qed.

(** Replacing a string that occurs by a different one changes the text. *)
Lemma str_replace_changes old new s :
  old ≠ [] → old ≠ new → contains old s = true → str_replace old new s ≠ s.
Proof.
  intros Hold Hne Hc. destruct old as [|a p]; [done|]. unfold str_replace.
  destruct (Nat.lt_total (length (a :: p)) (length new)) as [Hlt|[Heq|Hgt]].
  - pose proof (replace_from_grows _ _ _ Hlt Hold Hc). intros Heq.
    rewrite Heq in H. lia.
  - by apply replace_from_same_length.
  - pose proof (replace_from_shrinks _ _ _ Hgt Hc). intros Heq.
    rewrite Heq in H. lia.
Qed.

Lemma swaps_for_proper text :
  Forall (λ '(old, new), old ≠ [] ∧ old ≠ new) (swaps_for text).
Proof.
  unfold swaps_for, base_swaps.
  destruct (_ && _ && _), (contains (u "gramme") text);
    repeat constructor; vm_compute; discriminate.
Qed.

Lemma add_swapped_mono swaps v acc w :
  w ∈ acc → w ∈ add_swapped swaps v acc.
Proof.
  unfold add_swapped. revert acc.
  induction swaps as [|[old new] swaps IH]; intros acc Hw; simpl; [done|].
  apply IH. destruct (contains old v); [|done]. apply elem_of_union. by right.
Qed.

Lemma add_swapped_intro swaps v acc old new :
  (old, new) ∈ swaps → contains old v = true →
  str_replace old new v ∈ add_swapped swaps v acc.
Proof.
  unfold add_swapped. revert acc.
  induction swaps as [|[o n] swaps IH]; intros acc; [by intros ?%elem_of_nil|].
  intros [[= -> ->]|Hin]%elem_of_cons Hc; simpl.
  - rewrite Hc. apply (add_swapped_mono swaps v). apply elem_of_union. left.
    by apply elem_of_singleton.
  - by apply IH.
Qed.

Lemma add_swapped_none swaps v acc :
  (∀ old new, (old, new) ∈ swaps → contains old v = false) →
  add_swapped swaps v acc = acc.
Proof.
  unfold add_swapped. revert acc.
  induction swaps as [|[o n] swaps IH]; intros acc Hno; simpl; [done|].
  rewrite (Hno o n) by left. apply IH. intros old new Hin.
  apply (Hno old new). by right.
Qed.

(** X8.  The text itself is never one of its spelling variants, and a text
    has no variant at all exactly when it holds none of the spellings on
    the left of its substitution table: each substitution that applies
    changes the text. *)
Theorem generate_spelling_variants_empty_iff text :
  (text ∉ generate_spelling_variants text)
  ∧ (generate_spelling_variants text = ∅
     ↔ ∀ old new, (old, new) ∈ swaps_for text → contains old text = false).
Proof.
  split.
  { unfold generate_spelling_variants. cbv zeta.
    intros [_ H]%elem_of_difference. apply H. by apply elem_of_singleton. }
  split.
  - intros Hempty old new Hin.
    destruct (contains old text) eqn:Hc; [|done]. exfalso.
    pose proof (swaps_for_proper text) as Hp. rewrite Forall_forall in Hp.
    destruct (Hp _ Hin) as [Hold Hne].
    apply (not_elem_of_empty (C:=gset str) (str_replace old new text)).
    rewrite <- Hempty. unfold generate_spelling_variants. cbv zeta.
    apply elem_of_difference. split.
    + apply elem_of_union. left. by apply add_swapped_intro.
    + intros Heq%elem_of_singleton. by apply str_replace_changes in Heq.
  - intros Hno. unfold generate_spelling_variants. cbv zeta.
    rewrite (add_swapped_none _ _ _ Hno), elements_empty. cbn [fold_left].
    apply leibniz_equiv, elem_of_equiv_empty.
    intros x [[H|H]%elem_of_union _]%elem_of_difference;
      by apply not_elem_of_empty in H.
Qed.

(** ** The per-decomposition *)

(** What [re.match(r"^(.+?)\s+per\s+(.+)$", text)] says of a text it
    matches, with [g1] and [g2] the two groups. *)
Definition per_decomposed (text g1 g2 : str) : Prop :=
  ∃ ws1 ws2 tail,
    text = g1 ++ ws1 ++ u "per" ++ ws2 ++ g2 ++ tail
    ∧ g1 ≠ [] ∧ Forall (λ c, is_dot c = true) g1
    ∧ ws1 ≠ [] ∧ Forall (λ c, isspace c = true) ws1
    ∧ ws2 ≠ [] ∧ Forall (λ c, isspace c = true) ws2
    ∧ g2 ≠ [] ∧ Forall (λ c, is_dot c = true) g2
    ∧ at_end tail = true.

Lemma dotplus_end_Some s g :
  dotplus_end s = Some g →
  ∃ tail, s = g ++ tail ∧ g ≠ [] ∧ Forall (λ c, is_dot c = true) g
          ∧ at_end tail = true.
Proof.
  unfold dotplus_end.
  destruct (nonempty (take_while is_dot s)) eqn:Hne; [|done].
  destruct (at_end (drop_while is_dot s)) eqn:Hend; [|done].
  intros [= <-]. exists (drop_while is_dot s).
  split; [by rewrite take_drop_while|].
  split; [by destruct (take_while is_dot s)|].
  split; [apply take_while_Forall | done].
Qed.

Lemma ws_dotplus_end_Some s g :
  ws_dotplus_end s = Some g →
  ∃ ws tail, s = ws ++ g ++ tail
    ∧ ws ≠ [] ∧ Forall (λ c, isspace c = true) ws
    ∧ g ≠ [] ∧ Forall (λ c, is_dot c = true) g
    ∧ at_end tail = true.
Proof.
  induction s as [|c s IH]; [done|]. cbn [ws_dotplus_end].
  destruct (isspace c) eqn:Hc; [|done].
  destruct (ws_dotplus_end s) as [g'|] eqn:Hs.
  - intros [= <-].
    destruct (IH eq_refl) as (ws & tail & -> & _ & Hws & Hg & Hdot & Hend).
    exists (c :: ws), tail. split; [done|]. split; [done|].
    split; [by constructor | done].
  - intros (tail & -> & Hg & Hdot & Hend)%dotplus_end_Some.
    exists [c], tail. split; [done|]. split; [done|].
    split; [by repeat constructor | done].
Qed.

Lemma per_tail_Some s g2 :
  per_tail s = Some g2 →
  ∃ ws1 ws2 tail, s = ws1 ++ u "per" ++ ws2 ++ g2 ++ tail
    ∧ ws1 ≠ [] ∧ Forall (λ c, isspace c = true) ws1
    ∧ ws2 ≠ [] ∧ Forall (λ c, isspace c = true) ws2
    ∧ g2 ≠ [] ∧ Forall (λ c, is_dot c = true) g2
    ∧ at_end tail = true.
Proof.
  unfold per_tail. destruct s as [|c s]; [done|].
  destruct (isspace c) eqn:Hc; [|done].
  destruct (startswith (u "per") (drop_while isspace (c :: s))) eqn:Hper; [|done].
  cbn [andb]. intros (ws2 & tail & Hrest & Hws2 & Hsp2 & Hg & Hdot & Hend)%ws_dotplus_end_Some.
  exists (take_while isspace (c :: s)), ws2, tail.
  split.
  - rewrite <- Hrest. apply startswith_app in Hper.
    change (length (u "per")) with 3%nat in Hper. rewrite <- Hper.
    by rewrite take_drop_while.
  - split; [by cbn [take_while]; rewrite Hc|].
    split; [apply take_while_Forall | done].
Qed.

Lemma per_match_Some acc s g1 g2 :
  per_match acc s = Some (g1, g2) →
  ∃ pre rest, s = pre ++ rest ∧ g1 = rev acc ++ pre ∧ pre ≠ []
    ∧ Forall (λ c, is_dot c = true) pre ∧ per_tail rest = Some g2.
Proof.
  revert acc. induction s as [|c s IH]; intros acc; [done|]. cbn [per_match].
  destruct (is_dot c) eqn:Hc; [|done].
  destruct (per_tail s) as [g|] eqn:Ht.
  - intros [= <- <-]. exists [c], s. split; [done|].
    split; [by cbn [rev] | ]. split; [done|]. split; [by repeat constructor | done].
  - intros (pre & rest & -> & -> & _ & Hdot & Hrest)%IH.
    exists (c :: pre), rest. split; [done|].
    split; [cbn [rev]; by rewrite <- app_assoc|].
    split; [done|]. split; [by constructor | done].
Qed.

Lemma per_match_decomposed text g1 g2 :
  per_match [] text = Some (g1, g2) → per_decomposed text g1 g2.
Proof.
  intros (pre & rest & -> & -> & Hpre & Hdot & Hrest)%per_match_Some.
  apply per_tail_Some in Hrest
    as (ws1 & ws2 & tail & -> & Hws1 & Hsp1 & Hws2 & Hsp2 & Hg & Hdot2 & Hend).
  exists ws1, ws2, tail. cbn [rev app]. done.
Qed.

(** X9.  A hit of the per-decomposition helper comes from a text of the
    form numerator, whitespace, ["per"], whitespace, denominator (each of
    the two non-empty and without newline, the text ending there or in one
    final newline).  The name it reports is the stripped numerator or one
    of its spelling variants, [" per "], and the stripped denominator or
    one of its spelling variants; it is a key of the name index, never the
    text itself, and the entity returned is the first candidate stored
    under it. *)
Theorem try_per_decomposition_match_hit {SO : SetOrder}
    (text : str) (nm : gmap str (list (entry * source_type)))
    (e : entry) (am : audit_method) (full : str)
    (pairs : list (entry * source_type)) :
  try_per_decomposition_match text nm = Ok (Some (e, am, full, pairs)) →
  full ≠ text
  ∧ nm !! full = Some pairs
  ∧ (∃ src, head pairs = Some (e, src) ∧ am = am_per_variant src)
  ∧ ∃ g1 g2 nv dv,
      per_decomposed text g1 g2
      ∧ (nv = strip g1 ∨ nv ∈ generate_spelling_variants (strip g1))
      ∧ (dv = strip g2 ∨ dv ∈ generate_spelling_variants (strip g2))
      ∧ full = nv ++ u " per " ++ dv.
Proof.
  intros Hhit.
  destruct (try_per_decomposition_match_Some _ _ _ _ _ _ Hhit) as [Hk Hsrc].
  revert Hhit. unfold try_per_decomposition_match.
  destruct (per_match [] text) as [[g1 g2]|] eqn:Hm; [|done].
  destruct (find_key _ nm) as [[v l]|] eqn:Hf; [|done].
  intros (p & _ & [= _ _ -> _])%bind_Ok.
  apply find_key_Some in Hf as [Hin _].
  apply list_elem_of_In, filter_In in Hin as [Hin Hne].
  apply in_flat_map in Hin as (nv & Hnv%list_elem_of_In & Hfull%list_elem_of_In).
  apply list_elem_of_fmap in Hfull as (dv & -> & Hdv).
  split.
  { intros Heq. rewrite Heq in Hne. unfold str_eqb in Hne.
    by rewrite bool_decide_eq_true_2 in Hne. }
  split; [done|]. split; [done|].
  exists g1, g2, nv, dv. split; [by apply per_match_decomposed|].
  split; [|split; [|done]].
  - apply elem_of_cons in Hnv as [->|Hnv]; [by left|]. right.
    by rewrite set_iter_perm, elem_of_elements in Hnv.
  - apply elem_of_cons in Hdv as [->|Hdv]; [by left|]. right.
    by rewrite set_iter_perm, elem_of_elements in Hdv.
Qed.

Lemma try_per_decomposition_match_hit_witness :
  kilogram_per_cubic_metre ≠ kilogram_per_cubic_meter
  ∧ ({[ kilogram_per_cubic_metre := [(density_unit, src_label)] ]}
       : gmap str (list (entry * source_type)))
      !! kilogram_per_cubic_metre
    = Some [(density_unit, src_label)]
  ∧ (∃ src, head [(density_unit, src_label)] = Some (density_unit, src)
            ∧ am_per_variant src_label = am_per_variant src)
  ∧ ∃ g1 g2 nv dv,
      per_decomposed kilogram_per_cubic_meter g1 g2
      ∧ (nv = strip g1 ∨ nv ∈ generate_spelling_variants (strip g1))
      ∧ (dv = strip g2 ∨ dv ∈ generate_spelling_variants (strip g2))
      ∧ kilogram_per_cubic_metre = nv ++ u " per " ++ dv.
Proof.
  apply (@try_per_decomposition_match_hit elements_order
           kilogram_per_cubic_meter
           {[ kilogram_per_cubic_metre := [(density_unit, src_label)] ]}
           density_unit (am_per_variant src_label) kilogram_per_cubic_metre
           [(density_unit, src_label)]).
  vm_compute. reflexivity.
Defined.

(** ** A record without a unit name *)

Section BlankUnit.
Context {U : Unicode}.

Lemma lower_nil : lower [] = [].
Proof. by rewrite (lower_ascii []). Qed.

Lemma contains_nil_l s : contains [] s = true.
Proof. by destruct s. Qed.

(** The filter accepts every candidate for the empty name, and a
    candidate without label for every name: the empty string is a
    substring of anything. *)
Lemma plausible_blank name e :
  name = [] ∨ truthy (label e) = false → plausible name e = true.
Proof.
  intros H. unfold plausible. cbv zeta.
  destruct (bool_decide _); [done|].
  assert (contains (lower (or_empty (label e))) (lower name)
          || contains (lower name) (lower (or_empty (label e))) = true) as ->;
    [|done].
  destruct H as [->|Hl].
  - by rewrite lower_nil, contains_nil_l, orb_true_r.
  - assert (or_empty (label e) = []) as -> by (by destruct (label e) as [[|c l]|]).
    by rewrite lower_nil, contains_nil_l.
Qed.

Lemma filter_plausible_blank pairs : filter_plausible (Some []) pairs = Ok pairs.
Proof.
  rewrite filter_plausible_Some. f_equal.
  induction pairs as [|p pairs IH]; [done|]. cbn [List.filter].
  rewrite plausible_blank by (by left). by rewrite IH.
Qed.

Lemma symbol_index_bucket uo_entries k l :
  (build_uo_lookup uo_entries).2 !! k = Some l → k ≠ [] ∧ l ≠ [].
Proof.
  intros Hl.
  pose proof (proj2 (build_uo_lookup_nonempty uo_entries) _ _ Hl) as Hne.
  split; [|done]. apply bucket_lookup in Hl.
  rewrite (proj2 (build_uo_lookup_bucket uo_entries k)) in Hl. subst l.
  destruct (flat_map (symbol_pairs k) uo_entries) as [|p l] eqn:E; [done|].
  assert (In p (flat_map (symbol_pairs k) uo_entries)) as Hp
    by (rewrite E; by left).
  apply in_flat_map in Hp as (e & _ & Hp%list_elem_of_In).
  by apply symbol_pairs_shape in Hp as [? _].
Qed.

End BlankUnit.

(** X10.  A record whose unit is absent or the empty string is matched by
    its symbol alone: when the normalized symbol is a key of the symbol
    index, the plausibility filter rejects nothing, the record is matched
    by [symbol_to_synonym] to the first candidate of the bucket, and
    [all_matches] lists the whole bucket. *)
Theorem blank_unit_matched_by_symbol {U : Unicode} {SO : SetOrder}
    uo_entries r (symbol : str) pairs :
  r_unit r = Missing ∨ r_unit r = Str [] →
  r_symbol r = Str symbol →
  (build_uo_lookup uo_entries).2 !! normalize_symbol_for_match symbol
  = Some pairs →
  ∃ p rest,
    pairs = p :: rest
    ∧ select_best (build_uo_lookup uo_entries).1 (build_uo_lookup uo_entries).2 r
      = Ok (Some (symbol_to_synonym, p.1),
            mk_audit am_symbol_to None None <$> pairs).
Proof.
  intros Hunit Hsym Hk.
  destruct (symbol_index_bucket _ _ _ Hk) as [Hkey Hpairs].
  destruct pairs as [|p rest]; [done|]. exists p, rest. split; [done|].
  assert (get (r_unit r) = Some []) as Hget by (by destruct Hunit as [-> | ->]).
  unfold select_best. cbv zeta. rewrite Hget, Hsym. cbn [get normalize_name].
  cbn [strategy_unit_name nonempty bind no_match unless_best fst snd].
  unfold strategy_symbol. destruct symbol as [|c symbol]; [done|].
  destruct (normalize_symbol_for_match (c :: symbol)) as [|d k] eqn:Hn; [done|].
  cbn [nonempty]. rewrite Hk, filter_plausible_blank.
  cbn [bind unless_best fst snd app]. done.
Qed.

Lemma blank_unit_matched_by_symbol_witness :
  ∃ p rest,
    bucket (@build_uo_lookup ascii_tables sample_entries).2
           (normalize_symbol_for_match (u "F"))
    = p :: rest
    ∧ @select_best ascii_tables elements_order
        (@build_uo_lookup ascii_tables sample_entries).1
        (@build_uo_lookup ascii_tables sample_entries).2
        (Record_ Missing (Str (u "F")) Missing Missing LMissing
                 Missing Missing Missing)
      = Ok (Some (symbol_to_synonym, p.1),
            mk_audit am_symbol_to None None
              <$> bucket (@build_uo_lookup ascii_tables sample_entries).2
                    (normalize_symbol_for_match (u "F"))).
Proof.
  apply (@blank_unit_matched_by_symbol ascii_tables elements_order
           sample_entries
           (Record_ Missing (Str (u "F")) Missing Missing LMissing
                    Missing Missing Missing)
           (u "F")
           (bucket (@build_uo_lookup ascii_tables sample_entries).2
                   (normalize_symbol_for_match (u "F")))).
  - by left.
  - reflexivity.
  - vm_compute. reflexivity.
Defined.

(** ** The form of a normalized name *)

Section NormalForm.
Context {U : Unicode}.

Lemma replace_from_char a b s :
  replace_from [a] [b] 0 s = (λ c, if c =? a then b else c) <$> s.
Proof.
  induction s as [|c s IH]; [done|]. rewrite fmap_cons, <- IH.
  cbn [replace_from startswith length Nat.pred].
  rewrite andb_true_r, (N.eqb_sym a c).
  by destruct (c =? a).
Qed.

Lemma collapse_ws_chars (P : char → Prop) b s :
  P 32 → Forall P s → Forall P (collapse_ws b s).
Proof.
  intros H32 Hs. revert b.
  induction Hs as [|c s Hc Hs IH]; intros b; cbn [collapse_ws]; [constructor|].
  destruct (isspace c); [destruct b|]; auto.
Qed.

Lemma collapse_ws_spaces b s :
  Forall (λ c, isspace c = true → c = 32) (collapse_ws b s).
Proof.
  revert b. induction s as [|c s IH]; intros b; cbn [collapse_ws]; [constructor|].
  destruct (isspace c) eqn:Hc; [destruct b|]; auto.
  constructor; [congruence | done].
Qed.

(** No two whitespace characters in a row; [prev_ws] tells whether the
    character before the string is one. *)
Fixpoint no_ws_run (prev_ws : bool) (s : str) : bool :=
  match s with
  | [] => true
  | c :: s' =>
      if isspace c then negb prev_ws && no_ws_run true s'
      else no_ws_run false s'
  end.

Lemma collapse_ws_no_run b s : no_ws_run b (collapse_ws b s) = true.
Proof.
  revert b. induction s as [|c s IH]; intros b; cbn [collapse_ws]; [done|].
  destruct (isspace c) eqn:Hc; [destruct b|].
  - apply IH.
  - cbn [no_ws_run]. change (isspace 32) with true. cbn [negb andb]. apply IH.
  - cbn [no_ws_run]. rewrite Hc. apply IH.
Qed.

Lemma no_ws_run_double b s : no_ws_run b s = true → contains [32; 32] s = false.
Proof.
  revert b. induction s as [|c s IH]; intros b; [done|].
  cbn [no_ws_run contains startswith].
  destruct (isspace c) eqn:Hc.
  - intros [_ Hs]%andb_prop. rewrite (IH _ Hs), orb_false_r.
    destruct s as [|d s]; [by rewrite andb_false_r|].
    cbn [no_ws_run] in Hs. cbn [startswith].
    destruct (32 =? d) eqn:Hd; [|by rewrite andb_false_r].
    apply N.eqb_eq in Hd. subst d. change (isspace 32) with true in Hs. done.
  - intros Hs. rewrite (IH _ Hs), orb_false_r.
    destruct (32 =? c) eqn:Hd; [|done].
    apply N.eqb_eq in Hd. subst c. done.
Qed.

(** X11.  A normalized name holds no middle dot, asterisk or underscore;
    its only whitespace character is the plain space, and never two in a
    row. *)
Theorem normalize_name_form text :
  Forall (λ c, c ≠ 183 ∧ c ≠ 42 ∧ c ≠ 95 ∧ (isspace c = true → c = 32))
         (normalize_name text)
  ∧ no_ws_run false (normalize_name text) = true
  ∧ contains (u "  ") (normalize_name text) = false.
Proof.
  assert (no_ws_run false (normalize_name text) = true) as Hrun.
  { destruct text as [[|c t]|]; try done. apply collapse_ws_no_run. }
  split; [|split; [done | by apply (no_ws_run_double false)]].
  destruct text as [[|c t]|]; try constructor.
  unfold normalize_name. cbv zeta. unfold str_replace.
  rewrite !replace_from_char.
  apply Forall_forall. intros x Hx.
  pose proof (collapse_ws_spaces false
    ((λ c0, if c0 =? 95 then 32 else c0) <$>
       ((λ c0, if c0 =? 42 then 32 else c0) <$>
          ((λ c0, if c0 =? 183 then 32 else c0) <$> strip (lower (c :: t))))))
    as Hsp.
  rewrite Forall_forall in Hsp. specialize (Hsp x Hx).
  assert (Forall (λ c, c ≠ 183 ∧ c ≠ 42 ∧ c ≠ 95)
    (collapse_ws false
      ((λ c0, if c0 =? 95 then 32 else c0) <$>
         ((λ c0, if c0 =? 42 then 32 else c0) <$>
            ((λ c0, if c0 =? 183 then 32 else c0) <$> strip (lower (c :: t)))))))
    as Hch.
  { apply collapse_ws_chars; [done|].
    rewrite <- !list_fmap_compose. apply Forall_fmap, Forall_true.
    intros y. cbn.
    destruct (y =? 183) eqn:E1; [done|].
    destruct (y =? 42) eqn:E2; [done|].
    destruct (y =? 95) eqn:E3; [done|].
    apply N.eqb_neq in E1, E2, E3. done. }
  rewrite Forall_forall in Hch. destruct (Hch x Hx) as (? & ? & ?). done.
Qed.

End NormalForm.

(** ** The form of a normalized symbol *)

(** The characters of a string that are not whitespace. *)
Definition nonspace (s : str) : str := List.filter (λ c, negb (isspace c)) s.

Lemma nonspace_app s t : nonspace (s ++ t) = nonspace s ++ nonspace t.
Proof. apply List.filter_app. Qed.

Lemma nonspace_spaces s : Forall (λ c, isspace c = true) s → nonspace s = [].
Proof.
  induction 1 as [|c s Hc Hs IH]; [done|]. unfold nonspace in *.
  cbn [List.filter]. by rewrite Hc.
Qed.

Lemma nonspace_rev s : nonspace (rev s) = rev (nonspace s).
Proof.
  induction s as [|c s IH]; [done|]. cbn [rev]. rewrite nonspace_app, IH.
  unfold nonspace. cbn [List.filter].
  destruct (isspace c); cbn [negb rev]; [by rewrite app_nil_r | done].
Qed.

Lemma nonspace_lstrip s : nonspace (lstrip s) = nonspace s.
Proof.
  unfold lstrip. induction s as [|c s IH]; [done|]. cbn [drop_while].
  destruct (isspace c) eqn:Hc; [|done].
  unfold nonspace in *. cbn [List.filter]. by rewrite Hc.
Qed.

Lemma nonspace_strip s : nonspace (strip s) = nonspace s.
Proof.
  unfold strip, rstrip.
  by rewrite nonspace_rev, nonspace_lstrip, nonspace_rev, rev_involutive,
             nonspace_lstrip.
Qed.

Lemma nonspace_collapse_ws b s : nonspace (collapse_ws b s) = nonspace s.
Proof.
  revert b. induction s as [|c s IH]; intros b; [done|]. cbn [collapse_ws].
  unfold nonspace in *. cbn [List.filter].
  destruct (isspace c) eqn:Hc; [destruct b|]; cbn [List.filter negb].
  - apply IH.
  - change (isspace 32) with true. cbn [negb]. apply IH.
  - rewrite Hc. cbn [negb]. f_equal. apply IH.
Qed.

Lemma nonspace_sub_ws_around X pend after_op s :
  isspace X = false → Forall (λ c, isspace c = true) pend →
  nonspace (sub_ws_around X pend after_op s) = nonspace s.
Proof.
  intros HX. revert pend after_op.
  induction s as [|c s IH]; intros pend after_op Hpend; cbn [sub_ws_around].
  - destruct after_op; [done|]. rewrite nonspace_rev.
    by rewrite (nonspace_spaces pend).
  - destruct (c =? X) eqn:HcX.
    + apply N.eqb_eq in HcX. subst c. unfold nonspace in *.
      cbn [List.filter]. rewrite HX. cbn [negb]. f_equal. by apply IH.
    + destruct (isspace c) eqn:Hc.
      * rewrite IH by (by constructor). unfold nonspace.
        cbn [List.filter]. by rewrite Hc.
      * rewrite nonspace_app.
        assert (nonspace (if after_op then [] else rev pend) = []) as ->.
        { destruct after_op; [done|].
          by rewrite nonspace_rev, (nonspace_spaces pend). }
        unfold nonspace in *. cbn [List.filter app]. rewrite Hc. cbn [negb].
        f_equal. by apply IH.
Qed.

(** X12.  [normalize_symbol_for_match] changes whitespace only: the
    characters of the result that are not whitespace are those of the
    symbol, in the same order and case; the only whitespace left is the
    plain space, never two in a row. *)
Theorem normalize_symbol_for_match_form (symbol : str) :
  nonspace (normalize_symbol_for_match symbol) = nonspace symbol
  ∧ Forall (λ c, isspace c = true → c = 32) (normalize_symbol_for_match symbol)
  ∧ no_ws_run false (normalize_symbol_for_match symbol) = true.
Proof.
  destruct symbol as [|c t]; [by repeat constructor|].
  unfold normalize_symbol_for_match. cbv zeta.
  split; [|split; [apply collapse_ws_spaces | apply collapse_ws_no_run]].
  rewrite nonspace_collapse_ws.
  rewrite !nonspace_sub_ws_around by (done || constructor).
  apply nonspace_strip.
Qed.

(** ** The other two helpers *)

Lemma shape_match_Some prefix (text base : str) :
  shape_match prefix text = Some base →
  ∃ ws tail, text = prefix ++ ws ++ base ++ tail
    ∧ ws ≠ [] ∧ Forall (λ c, isspace c = true) ws
    ∧ base ≠ [] ∧ Forall (λ c, is_dot c = true) base
    ∧ at_end tail = true.
Proof.
  unfold shape_match. destruct (startswith prefix text) eqn:Hsw; [|done].
  intros (ws & tail & Hrest & ?)%ws_dotplus_end_Some.
  exists ws, tail. split; [|done].
  rewrite <- Hrest. by apply startswith_app.
Qed.

(** What a hit of the square/cubic helper for [prefix] says. *)
Definition shape_hit {SO : SetOrder} (prefix : shape) (text : str)
    (nm : gmap str (list (entry * source_type)))
    (e : entry) (am : audit_method) (alt : str)
    (pairs : list (entry * source_type)) : Prop :=
  ∃ ws base tail variant,
    text = shape_str prefix ++ ws ++ base ++ tail
    ∧ ws ≠ [] ∧ Forall (λ c, isspace c = true) ws
    ∧ base ≠ [] ∧ Forall (λ c, is_dot c = true) base
    ∧ at_end tail = true
    ∧ variant ∈ generate_spelling_variants base
    ∧ variant ≠ base
    ∧ alt = shape_str prefix ++ u " " ++ variant
    ∧ nm !! alt = Some pairs
    ∧ ∃ src, head pairs = Some (e, src) ∧ am = am_shape_variant prefix src.

Lemma try_shape_prefix_hit {SO : SetOrder} prefix (text : str) nm e am alt pairs :
  try_shape_prefix prefix text nm = Ok (Some (e, am, alt, pairs)) →
  shape_hit prefix text nm e am alt pairs.
Proof.
  intros Hhit.
  destruct (try_shape_prefix_Some _ _ _ _ _ _ _ Hhit) as [Hk Hsrc].
  revert Hhit. unfold try_shape_prefix.
  destruct (shape_match _ text) as [base|] eqn:Hm; [|done].
  destruct (find_key _ nm) as [[v l]|] eqn:Hf; [|done].
  intros (p & _ & [= _ _ -> _])%bind_Ok.
  apply find_key_Some in Hf as [Hin _].
  apply list_elem_of_fmap in Hin as (variant & -> & Hv).
  rewrite set_iter_perm, elem_of_elements in Hv.
  apply shape_match_Some in Hm as (ws & tail & ? & ? & ? & ? & ? & ?).
  exists ws, base, tail, variant.
  do 6 (split; [done|]). split; [done|]. split; [|done].
  intros ->. revert Hv. unfold generate_spelling_variants. cbv zeta.
  intros [_ H']%elem_of_difference. apply H'. by apply elem_of_singleton.
Qed.

(** X13.  A hit of the square/cubic helper comes from a text that starts
    with ["square"] or ["cubic"], followed by whitespace and a base name
    (non-empty, without newline, the text ending there or in one final
    newline).  The name it reports is the prefix, one space, and a
    spelling variant of the base, so it differs from the base; it is a key
    of the name index and the entity returned is the first candidate
    stored under it. *)
Theorem try_shape_variant_match_hit {SO : SetOrder} (text : str)
    (nm : gmap str (list (entry * source_type)))
    (e : entry) (am : audit_method) (alt : str)
    (pairs : list (entry * source_type)) :
  try_shape_variant_match text nm = Ok (Some (e, am, alt, pairs)) →
  ∃ prefix, shape_hit prefix text nm e am alt pairs.
Proof.
  unfold try_shape_variant_match. intros (r & Hsq & Hr)%bind_Ok.
  destruct r as [r|].
  - injection Hr as ->. exists square. by apply try_shape_prefix_hit.
  - exists cubic. by apply try_shape_prefix_hit.
Qed.

Lemma try_shape_variant_match_hit_witness :
  ∃ prefix,
    @shape_hit elements_order prefix (u "cubic meter")
      {[ u "cubic metre" := [(density_unit, src_label)] ]}
      density_unit (am_shape_variant cubic src_label) (u "cubic metre")
      [(density_unit, src_label)].
Proof.
  apply (@try_shape_variant_match_hit elements_order (u "cubic meter")
           {[ u "cubic metre" := [(density_unit, src_label)] ]}
           density_unit (am_shape_variant cubic src_label) (u "cubic metre")
           [(density_unit, src_label)]).
  vm_compute. reflexivity.
Defined.

(** X14.  The spelling-variant helper finds nothing exactly when no
    spelling variant of the text is a key of the name index; what it finds
    is a variant of the text, hence not the text itself, that is a key,
    with the first candidate stored under it. *)
Theorem try_spelling_variant_match_complete {SO : SetOrder} (text : str)
    (nm : gmap str (list (entry * source_type))) :
  (try_spelling_variant_match text nm = Ok None
   ↔ ∀ v, v ∈ generate_spelling_variants text → nm !! v = None)
  ∧ ∀ e am variant pairs,
      try_spelling_variant_match text nm = Ok (Some (e, am, variant, pairs)) →
      variant ∈ generate_spelling_variants text
      ∧ variant ≠ text
      ∧ nm !! variant = Some pairs
      ∧ ∃ src, head pairs = Some (e, src) ∧ am = am_spelling_variant src.
Proof.
  split; [split|].
  - unfold try_spelling_variant_match.
    destruct (find_key _ nm) as [[v l]|] eqn:Hf.
    + destruct l; discriminate.
    + intros _ v Hv. eapply find_key_None; [done|].
      by rewrite set_iter_perm, elem_of_elements.
  - intros Hno. unfold try_spelling_variant_match.
    destruct (find_key _ nm) as [[v l]|] eqn:Hf; [|done].
    apply find_key_Some in Hf as [Hin Hl].
    rewrite set_iter_perm, elem_of_elements in Hin.
    rewrite (Hno v Hin) in Hl. done.
  - intros e am variant pairs (Hk & Hv & Hsrc)%try_spelling_variant_match_Some.
    split; [done|]. split; [|done].
    intros ->. revert Hv. unfold generate_spelling_variants. cbv zeta.
    intros [_ H']%elem_of_difference. apply H'. by apply elem_of_singleton.
Qed.

(** ** From the elements of the document to the entries *)

Section Document.
Context {U : Unicode} {SO : SetOrder}.

(** What every extracted entry satisfies, and merging keeps. *)
Definition valid_entry (e : entry) : Prop :=
  UO_URI_PATTERN (uri e) = true
  ∧ uri e = OBO ++ uo_id e
  ∧ startswith (u "UO_") (uo_id e) = true
  ∧ well_read e.

Lemma Forall_union_list (P : str → Prop) a b :
  Forall P a → Forall P b → Forall P (union_list a b).
Proof.
  rewrite !Forall_forall. intros Ha Hb s [?|?]%union_list_elem; auto.
Qed.

Lemma merge_entry_valid x e :
  valid_entry x → valid_entry e → valid_entry (merge_entry x e).
Proof.
  intros (Hp & Hu & Hs & Hsyn & Hpar & Hl & Hd)
         (_ & _ & _ & Hsyn' & Hpar' & Hl' & Hd').
  rewrite !Forall_app in Hsyn, Hsyn'.
  destruct Hsyn as (He & Hr & Hn), Hsyn' as (He' & Hr' & Hn').
  unfold valid_entry, well_read, merge_entry.
  cbn [uri uo_id label definition exact_synonyms related_synonyms
       narrow_synonyms parent_classes].
  split; [done|]. split; [done|]. split; [done|].
  rewrite !Forall_app.
  split; [split; [|split]; by apply Forall_union_list|].
  split; [by apply Forall_union_list|].
  split.
  - intros l. destruct (_ && _); auto.
  - intros d. destruct (_ && _); auto.
Qed.

Lemma add_entry_valid entries e :
  Forall (λ kv, valid_entry kv.2) entries → valid_entry e →
  Forall (λ kv, valid_entry kv.2) (add_entry entries e).
Proof.
  intros Hall He.
  induction Hall as [|[k x] entries Hx Hall IH]; cbn [add_entry].
  - constructor; [done | constructor].
  - destruct (str_eqb k (uri e)); constructor; try done.
    by apply merge_entry_valid.
Qed.

Lemma fold_add_element_all_valid xs entries :
  Forall (λ x, ∀ e, x = Some e → valid_entry e) xs →
  Forall (λ kv, valid_entry kv.2) entries →
  Forall (λ kv, valid_entry kv.2) (fold_left add_element xs entries).
Proof.
  intros Hxs. revert entries.
  induction Hxs as [|x xs Hx Hxs IH]; intros entries Hall; cbn [fold_left];
    [done|].
  apply IH. destruct x as [e|]; cbn [add_element]; [|done].
  apply add_entry_valid; [done | by apply Hx].
Qed.

Lemma extracted_valid (elements : list xml_element) :
  Forall (λ x, ∀ e, x = Some e → valid_entry e) (extract_uo_entry <$> elements).
Proof.
  apply Forall_fmap, Forall_forall. intros el _ e He. cbn in He.
  apply extract_uo_entry_Some in He as (_ & ? & ? & ? & ?). done.
Qed.

(** X15.  Reading a document: [parse_uo_owl] returns one entry for each
    distinct [rdf:about] value that matches the UO pattern among the
    [owl:Class] and [rdf:Description] elements, and none for any other
    element.  Every entry returned, merged or not, has an identifier that
    starts with [UO_] and is its URI without the OBO prefix, stripped
    non-empty synonyms, a stripped label and definition, and parent
    classes that match the UO pattern. *)
Theorem parse_elements_sound (classes descriptions : list xml_element) :
  NoDup (uri <$> parse_elements classes descriptions)
  ∧ (∀ k, k ∈ uri <$> parse_elements classes descriptions
          ↔ UO_URI_PATTERN k = true
            ∧ ∃ el, el ∈ classes ++ descriptions ∧ or_empty (about el) = k)
  ∧ Forall valid_entry (parse_elements classes descriptions).
Proof.
  unfold parse_elements. split; [apply parse_uo_owl_NoDup|]. split.
  - intros k. rewrite parse_uo_owl_uris, <- fmap_app. split.
    + intros (e & (el & He & Hel)%list_elem_of_fmap & <-).
      symmetry in He. apply extract_uo_entry_Some in He as (Hu & Hp & _).
      split; [done|]. exists el. by split.
    + intros (Hp & el & Hel & <-).
      destruct (extract_uo_entry el) as [e|] eqn:He.
      * exists e. split.
        -- rewrite <- He. by apply list_elem_of_fmap_2.
        -- by apply extract_uo_entry_Some in He as [? _].
      * revert He. unfold extract_uo_entry. cbv zeta. by rewrite Hp.
  - unfold parse_uo_owl. apply Forall_fmap.
    apply fold_add_element_all_valid; [apply extracted_valid|].
    apply fold_add_element_all_valid; [apply extracted_valid | constructor].
Qed.

End Document.

(** ** A unit name that is [null] *)

Section NullUnit.
Context {U : Unicode} {SO : SetOrder}.

Implicit Types nm sm : gmap str (list (entry * source_type)).

(** The record holds ["unit": null] and a symbol whose normalized form is
    a key of the symbol index. *)
Definition null_unit_symbol_hit sm (r : record) : Prop :=
  r_unit r = Null
  ∧ ∃ symbol, r_symbol r = Str symbol
              ∧ is_Some (sm !! normalize_symbol_for_match symbol).

Lemma null_unit_symbol_hit_dec sm r :
  null_unit_symbol_hit sm r ∨ ¬ null_unit_symbol_hit sm r.
Proof.
  unfold null_unit_symbol_hit.
  destruct (r_unit r); try (right; intros [? _]; done).
  destruct (r_symbol r) as [| |symbol];
    try (right; intros (_ & s & ? & _); done).
  destruct (sm !! normalize_symbol_for_match symbol) eqn:E.
  - left. split; [done|]. exists symbol. rewrite E. eauto.
  - right. intros (_ & s & [= <-] & H). rewrite E in H. by destruct H.
Qed.

(** Only the symbol strategy can raise on indices without empty buckets. *)
Lemma select_best_total_but_symbol nm sm r :
  nonempty_buckets nm →
  (∃ st, strategy_symbol (get (r_unit r)) (get (r_symbol r)) sm = Ok st) →
  ∃ st, select_best nm sm r = Ok st.
Proof.
  intros Hnm Hsym. unfold select_best. cbv zeta.
  destruct (strategy_unit_name_total (normalize_name (get (r_unit r))) nm Hnm)
    as [s1 ->]; cbn [bind].
  destruct (unless_best_total s1 _ Hsym) as [s2 ->]; cbn [bind].
  destruct (unless_best_total s2 _
              (strategy_plural_total (get (r_plural r)) nm Hnm)) as [s3 ->]; cbn [bind].
  destruct (unless_best_total s3 _
              (strategy_alternates_total (get_list (r_alternate_unit r)) nm Hnm))
    as [s4 ->]; cbn [bind].
  destruct (unless_best_total s4 _
              (strategy_canonical_total (get (r_canonical_unit r))
                 (normalize_name (get (r_unit r))) nm Hnm)) as [s5 ->]; cbn [bind].
  destruct (unless_best_total s5 _
              (strategy_spelling_total (normalize_name (get (r_unit r))) nm Hnm))
    as [s6 ->]; cbn [bind].
  destruct (unless_best_total s6 _
              (strategy_per_total (normalize_name (get (r_unit r))) nm Hnm))
    as [s7 ->]; cbn [bind].
  destruct (unless_best_total s7 _
              (strategy_shape_total (normalize_name (get (r_unit r))) nm Hnm))
    as [s8 ->]; cbn [bind].
  apply unless_best_total. by apply strategy_alternate_spelling_total.
Qed.

Lemma strategy_symbol_without_hit sm r :
  r_unit r = Null → ¬ null_unit_symbol_hit sm r →
  strategy_symbol (get (r_unit r)) (get (r_symbol r)) sm = no_match.
Proof.
  intros Hunit Hno. rewrite Hunit. cbn [get].
  destruct (r_symbol r) as [| |[|c s]] eqn:Hsym; cbn [get]; try done.
  unfold strategy_symbol.
  destruct (nonempty (normalize_symbol_for_match (c :: s))); [|done].
  destruct (sm !! normalize_symbol_for_match (c :: s)) as [pairs|] eqn:E; [|done].
  exfalso. apply Hno. split; [done|]. exists (c :: s). rewrite E. eauto.
Qed.

Lemma match_record_without_hit nm sm r :
  nonempty_buckets nm → ¬ null_unit_symbol_hit sm r →
  ∃ mi, match_record nm sm r = Ok mi.
Proof.
  intros Hnm Hno.
  assert (r_unit r = Null ∨ r_unit r ≠ Null) as [Hunit|Hunit]
    by (destruct (r_unit r); (by left) || (by right)).
  2:{ by apply match_record_total. }
  unfold match_record.
  destruct (select_best_total_but_symbol nm sm r Hnm) as [[best found] ->].
  - rewrite strategy_symbol_without_hit by done. unfold no_match. eauto.
  - cbn [bind]. eauto.
Qed.

Lemma match_record_with_hit uo_entries r :
  null_unit_symbol_hit (build_uo_lookup uo_entries).2 r →
  match_record (build_uo_lookup uo_entries).1 (build_uo_lookup uo_entries).2 r
  = Raise AttributeError.
Proof.
  intros (Hunit & symbol & Hsym & [pairs Hk]).
  destruct (symbol_index_bucket _ _ _ Hk) as [Hkey Hpairs].
  unfold match_record, select_best. cbv zeta. rewrite Hunit, Hsym.
  cbn [get normalize_name strategy_unit_name nonempty bind no_match
       unless_best fst snd].
  unfold strategy_symbol. destruct symbol as [|c symbol]; [done|].
  destruct (normalize_symbol_for_match (c :: symbol)) as [|d k]; [done|].
  cbn [nonempty]. rewrite Hk. by destruct pairs.
Qed.

Lemma match_loop_null_unit uo_entries dataset acc :
  let nm := (build_uo_lookup uo_entries).1 in
  let sm := (build_uo_lookup uo_entries).2 in
  (Exists (null_unit_symbol_hit sm) dataset →
   match_loop nm sm acc dataset = Raise AttributeError)
  ∧ (¬ Exists (null_unit_symbol_hit sm) dataset →
     ∃ results matched_count method_counts,
       match_loop nm sm acc dataset = Ok (results, matched_count, method_counts)
       ∧ length results = (length acc.1.1 + length dataset)%nat).
Proof.
  intros nm sm. revert acc.
  induction dataset as [|r dataset IH]; intros [[results n] c].
  { split; [by intros ?%Exists_nil|]. intros _. exists results, n, c.
    split; [done|]. cbn. lia. }
  cbn [match_loop match_step].
  destruct (null_unit_symbol_hit_dec sm r) as [Hhit|Hno].
  - split; [|intros H; exfalso; apply H; by left].
    intros _. unfold nm, sm. by rewrite match_record_with_hit.
  - destruct (match_record_without_hit nm sm r) as [mi ->]; [|done|].
    { apply build_uo_lookup_nonempty. }
    cbn [bind].
    set (acc' := match match_method mi with
                 | Some m => _
                 | None => _
                 end).
    destruct (IH acc') as [IHhit IHno].
    assert (length acc'.1.1 = S (length results)) as Hlen.
    { unfold acc'. destruct (match_method mi); cbn [fst];
        rewrite length_app; cbn; lia. }
    split.
    + intros [?|?]%Exists_cons; [done | by apply IHhit].
    + intros H. destruct IHno as (results' & n' & c' & -> & Hl).
      { intros ?. apply H. by right. }
      exists results', n', c'. split; [done|]. cbn [fst length]. lia.
Qed.

End NullUnit.

(** C9.  A unit that is present with the value [null] is not guarded:
    such a record gives the unit-name strategies no input, yet when its
    symbol is a key of the symbol index the plausibility check calls
    [lower()] on the [null] name and the record, and with it the whole of
    [match_dataset], ends in an [AttributeError].  This is the only way
    matching fails on the indices built from the entries: every other
    record gets a result, and a dataset without such a record gets one
    result per record. *)
Theorem null_unit_with_symbol_hit_raises {U : Unicode} {SO : SetOrder}
    uo_entries :
  let nm := (build_uo_lookup uo_entries).1 in
  let sm := (build_uo_lookup uo_entries).2 in
  (∀ r, null_unit_symbol_hit sm r →
        blank (r_unit r)
        ∧ strategy_unit_name (normalize_name (get (r_unit r))) nm = no_match
        ∧ match_record nm sm r = Raise AttributeError)
  ∧ (∀ r, ¬ null_unit_symbol_hit sm r → ∃ mi, match_record nm sm r = Ok mi)
  ∧ (∀ dataset,
       Exists (null_unit_symbol_hit sm) dataset →
       match_dataset dataset uo_entries = Raise AttributeError)
  ∧ (∀ dataset,
       ¬ Exists (null_unit_symbol_hit sm) dataset →
       ∃ results matched_count method_counts,
         match_dataset dataset uo_entries
         = Ok (results, matched_count, method_counts)
         ∧ length results = length dataset).
Proof.
  intros nm sm. split; [|split; [|split]].
  - intros r Hhit. split; [right; left; apply Hhit|].
    split; [|by apply match_record_with_hit].
    destruct Hhit as [-> _]. done.
  - intros r Hno. apply match_record_without_hit; [|done].
    apply build_uo_lookup_nonempty.
  - intros dataset Hex.
    destruct (match_loop_null_unit uo_entries dataset ([], 0%nat, ∅)) as [H _].
    unfold match_dataset. destruct (build_uo_lookup uo_entries). by apply H.
  - intros dataset Hno.
    destruct (match_loop_null_unit uo_entries dataset ([], 0%nat, ∅)) as [_ H].
    unfold match_dataset. destruct (build_uo_lookup uo_entries).
    destruct (H Hno) as (results & n & c & Hrun & Hlen).
    exists results, n, c. split; [done|]. cbn in Hlen. lia.
Qed.

(** The record [{"unit": null, "symbol": "F"}] against the sample
    entries, where [F] is a symbol of two of them. *)
Lemma null_unit_with_symbol_hit_raises_witness :
  @match_dataset ascii_tables elements_order
    [Record_ Null (Str (u "F")) Missing Missing LMissing Missing Missing Missing]
    sample_entries
  = Raise AttributeError.
Proof.
  apply (proj1 (proj2 (proj2 (@null_unit_with_symbol_hit_raises ascii_tables
                                elements_order sample_entries)))).
  left. split; [reflexivity|]. exists (u "F"). split; [reflexivity|].
  vm_compute. eauto.
Defined.

(** ** The order of the extracted entries *)

Section ExtractionOrder.
Context {SO : SetOrder}.

Lemma fold_add_entry_keys_elem (l : list entry) entries k :
  k ∈ (fold_left add_entry l entries).*1
  ↔ k ∈ entries.*1 ∨ ∃ e, e ∈ l ∧ uri e = k.
Proof.
  revert entries. induction l as [|e es IH]; intros entries; cbn [fold_left].
  - split; [by left|]. intros [?|(e & ?%elem_of_nil & _)]; done.
  - rewrite IH, add_entry_keys. split.
    + intros [Hin|(e' & He' & Hu)].
      * case_bool_decide; [by left|].
        apply elem_of_app in Hin as [?| ->%list_elem_of_singleton]; [by left|].
        right. exists e. split; [left | done].
      * right. exists e'. split; [by right | done].
    + intros [Hin|(e' & [->|He']%elem_of_cons & Hu)].
      * left. case_bool_decide; [done|]. apply elem_of_app. by left.
      * left. subst k. case_bool_decide; [done|].
        apply elem_of_app. right. left.
      * right. eauto.
Qed.

Lemma parse_uo_owl_keys classes descriptions :
  uri <$> parse_uo_owl classes descriptions
  = (fold_left add_entry (omap id (classes ++ descriptions)) []).*1.
Proof.
  unfold parse_uo_owl. rewrite <- fold_left_app, fold_add_element_valid.
  set (es := omap id (classes ++ descriptions)).
  assert (keyed_by_uri (fold_left add_entry es [])) as [_ Hk].
  { subst es. rewrite <- fold_add_element_valid. apply fold_add_element_keyed.
    split; [apply NoDup_nil_2 | constructor]. }
  induction Hk as [|[k0 x] l Hkx Hk IH]; [done|].
  rewrite !fmap_cons, IH. cbn [fst snd] in *. by rewrite Hkx.
Qed.

(** In the keys of the dictionary, a key stands before another only if it
    was declared before the other's first declaration. *)
Lemma fold_add_entry_keys_order (es : list entry) l1 a l2 b l3 :
  (fold_left add_entry es []).*1 = l1 ++ a :: l2 ++ b :: l3 →
  ∃ p rest, es = p ++ rest ∧ a ∈ uri <$> p ∧ b ∉ uri <$> p.
Proof.
  revert l1 a l2 b l3.
  induction es as [|e es IH] using rev_ind; intros l1 a l2 b l3.
  { cbn. by destruct l1. }
  rewrite fold_left_app. cbn [fold_left]. rewrite add_entry_keys.
  set (K := (fold_left add_entry es []).*1) in *.
  assert (∀ k, k ∈ K ↔ k ∈ uri <$> es) as HK.
  { intros k. unfold K. rewrite fold_add_entry_keys_elem. split.
    - intros [?%elem_of_nil|(e0 & ? & <-)]; [done|].
      by apply list_elem_of_fmap_2.
    - intros (e0 & -> & ?)%list_elem_of_fmap. right. eauto. }
  case_bool_decide as Hin.
  - intros (p & rest & -> & Ha & Hb)%IH.
    exists p, (rest ++ [e]). by rewrite <- app_assoc.
  - destruct l3 as [|z l3 _] using rev_ind.
    + intros Heq.
      change (l1 ++ a :: l2 ++ [b]) with (l1 ++ (a :: l2) ++ [b]) in Heq.
      rewrite app_assoc in Heq. apply app_inj_tail in Heq as [HKeq <-].
      exists es, [e]. split; [done|]. split.
      * apply HK. rewrite HKeq. apply elem_of_app. right. left.
      * by rewrite <- HK.
    + intros Heq.
      assert (K = l1 ++ a :: l2 ++ b :: l3) as HKeq.
      { apply (app_inj_tail K (l1 ++ a :: l2 ++ b :: l3) (uri e) z).
        rewrite Heq, <- app_assoc. f_equal. cbn. f_equal.
        by rewrite <- app_assoc. }
      apply IH in HKeq as (p & rest & -> & Ha & Hb).
      exists p, (rest ++ [e]). by rewrite <- app_assoc.
Qed.

End ExtractionOrder.

(** X16.  [parse_uo_owl] returns the entries in the order in which their
    URIs are first read, all [owl:Class] elements before all
    [rdf:Description] elements: when an entry stands before another in the
    result, the sequence of extracted elements, classes first, has a
    prefix that declares the URI of the first and not that of the
    second. *)
Theorem parse_uo_owl_order {SO : SetOrder}
    (classes descriptions : list (option entry)) l1 x l2 y l3 :
  parse_uo_owl classes descriptions = l1 ++ x :: l2 ++ y :: l3 →
  ∃ p rest, omap id (classes ++ descriptions) = p ++ rest
            ∧ uri x ∈ uri <$> p ∧ uri y ∉ uri <$> p.
Proof.
  intros Heq. apply (fold_add_entry_keys_order _ (uri <$> l1) (uri x)
                       (uri <$> l2) (uri y) (uri <$> l3)).
  rewrite <- parse_uo_owl_keys, Heq.
  by rewrite fmap_app, fmap_cons, fmap_app, fmap_cons.
Qed.

(** A class with the larger URI, an element that is not a UO unit, and a
    description with the smaller URI. *)
Lemma parse_uo_owl_order_witness :
  ∃ p rest, omap id ([Some degree_fahrenheit; None] ++ [Some farad]) = p ++ rest
            ∧ uri degree_fahrenheit ∈ uri <$> p ∧ uri farad ∉ uri <$> p.
Proof.
  apply (@parse_uo_owl_order elements_order [Some degree_fahrenheit; None]
           [Some farad] [] degree_fahrenheit [] farad []).
  vm_compute. reflexivity.
Defined.
